(* ===================================================================== *)
(* crawler-api: a shallow embedding of src/main.py                        *)
(*                                                                         *)
(* The crawl engine (crawl_site / crawl_url), the URL classifier           *)
(* (is_valid_url), the fetch unit (fetch_url), link extraction             *)
(* (extract_links) and the two read endpoints (get_results and             *)
(* stream_results with its event_generator) are transcribed from the       *)
(* Python source.  Python sets are gset string, the process-wide dict       *)
(* crawl_results is a gmap string task_entry, the asyncio queue and every   *)
(* Python list is a list, and code that can raise returns in the small      *)
(* exception monad [res].                                                   *)
(* ===================================================================== *)

From Stdlib Require Import ZArith Ascii String List Lia.
From stdpp Require Import base decidable option list sets gmap strings.

Local Open Scope Z_scope.
Local Open Scope string_scope.
Local Open Scope list_scope.

#[local] Set Warnings "-clear-no-such-hyp".

(* --------------------------------------------------------------------- *)
(* Exceptions                                                             *)
(* --------------------------------------------------------------------- *)

(** The Python exceptions that occur in main.py: the ValueError of
    urllib.parse, whatever aiohttp raises from a request, and the
    HTTPException of the two read endpoints. *)
Inductive exn : Type :=
  | ValueError
  | ClientError
  | HTTPException (status_code : Z) (detail : string).

(** A computation either returns or raises. *)
Inductive res (A : Type) : Type :=
  | Ret (a : A)
  | Raise (e : exn).
Arguments Ret {A} a.
Arguments Raise {A} e.

Definition bind {A B : Type} (m : res A) (k : A → res B) : res B :=
  match m with
  | Ret a => k a
  | Raise e => Raise e
  end.

(** [try: m except: h] is Python's try/except Exception around [m]. *)
Definition try_except {A : Type} (m : res A) (h : exn → res A) : res A :=
  match m with
  | Ret a => Ret a
  | Raise e => h e
  end.

Notation "'let!' x ':=' m 'in' k" := (bind m (λ x, k))
  (at level 10, x name, m at level 100, k at level 200).

(* --------------------------------------------------------------------- *)
(* Python string operations used by the source                            *)
(* --------------------------------------------------------------------- *)

(** str.startswith *)
Fixpoint startswith (s p : string) {struct p} : bool :=
  match p, s with
  | EmptyString, _ => true
  | String c p', String d s' => if Ascii.eqb c d then startswith s' p' else false
  | String _ _, EmptyString => false
  end.

Fixpoint string_rev_app (s acc : string) : string :=
  match s with
  | EmptyString => acc
  | String c s' => string_rev_app s' (String c acc)
  end.

Definition string_rev (s : string) : string := string_rev_app s EmptyString.

(** str.endswith *)
Definition endswith (s suffix : string) : bool :=
  startswith (string_rev s) (string_rev suffix).

(** [needle in hay] on Python strings. *)
Fixpoint contains (hay needle : string) : bool :=
  startswith hay needle ||
  match hay with
  | EmptyString => false
  | String _ hay' => contains hay' needle
  end.

(** str.lower restricted to what the suffix test below can observe: the
    skip-list is ASCII, and an ASCII letter of the skip-list is the lower
    case of its ASCII capital only. *)
Definition lower_ascii (c : ascii) : ascii :=
  let n := nat_of_ascii c in
  if (Nat.leb 65 n && Nat.leb n 90)%bool then ascii_of_nat (n + 32) else c.

Fixpoint lower (s : string) : string :=
  match s with
  | EmptyString => EmptyString
  | String c s' => String (lower_ascii c) (lower s')
  end.

(** Python truthiness of a string: [bool(s)]. *)
Definition truthy (s : string) : bool :=
  match s with
  | EmptyString => false
  | String _ _ => true
  end.

(* --------------------------------------------------------------------- *)
(* The URL classifier: SKIP_EXTENSIONS and is_valid_url                    *)
(* --------------------------------------------------------------------- *)

(** The fields of urllib's ParseResult that main.py reads. *)
Record parse_result : Type := ParseResult {
  scheme : string;
  netloc : string;
  path : string
}.

Definition SKIP_EXTENSIONS : list string :=
  [ ".jpg"; ".jpeg"; ".png"; ".gif"; ".bmp"; ".svg"; ".webp";
    ".css"; ".js"; ".ico"; ".pdf"; ".doc"; ".docx"; ".xls"; ".xlsx";
    ".zip"; ".rar"; ".tar"; ".gz"; ".mp3"; ".mp4"; ".avi"; ".mov";
    ".flv"; ".wmv"; ".woff"; ".woff2"; ".ttf"; ".eot" ].

(* --------------------------------------------------------------------- *)
(* Task state                                                             *)
(* --------------------------------------------------------------------- *)

(** One dict appended to crawl_results[task_id]["urls"]; [status] is None
    for a URL that was discovered and not crawled yet. *)
Record url_record : Type := URLRecord {
  url : string;
  status : option Z;
  new : bool
}.

Global Instance url_record_eq_dec : EqDecision url_record.
Proof. solve_decision. Defined.

(** The value stored under a task id in the process-wide dict crawl_results. *)
Record task_entry : Type := TaskEntry {
  urls : list url_record;
  complete : bool
}.

(** The state one run of crawl_site works on: its three locals and the
    entry crawl_results[task_id], which start_crawl creates before the run
    is scheduled and which no other task id shares. *)
Record crawl_state : Type := CrawlState {
  queue : list string;
  discovered_urls : gset string;
  crawled_urls : gset string;
  results : task_entry
}.

Definition set_queue (q : list string) (s : crawl_state) : crawl_state :=
  CrawlState q (discovered_urls s) (crawled_urls s) (results s).

Definition add_crawled (u : string) (s : crawl_state) : crawl_state :=
  CrawlState (queue s) (discovered_urls s) ({[u]} ∪ crawled_urls s) (results s).

(** crawl_results[task_id]["urls"].append(r) *)
Definition append_result (r : url_record) (s : crawl_state) : crawl_state :=
  CrawlState (queue s) (discovered_urls s) (crawled_urls s)
             (TaskEntry (urls (results s) ++ [r]) (complete (results s))).

(** crawl_results[task_id]["complete"] = True *)
Definition mark_complete (s : crawl_state) : crawl_state :=
  CrawlState (queue s) (discovered_urls s) (crawled_urls s)
             (TaskEntry (urls (results s)) true).

(** What session.get hands back when it does not raise: the status, the
    Content-Type header if there is one, and the outcome of reading the
    body with response.text(). *)
Record response : Type := Response {
  resp_status : Z;
  content_type : option string;
  resp_text : res string
}.

(** Control points of crawl_site at which another coroutine can run: the
    head of the while loop; the await of asyncio.gather, with the
    coroutines not started yet, the URLs whose fetch is pending and the
    first exception a gathered coroutine raised, if any; the end, after
    complete was set; and the end by an exception, which gather re-raises
    in crawl_site while the other coroutines of the round still run to
    their end (complete is then never set). *)
Inductive control : Type :=
  | LoopHead
  | Gathering (todo inflight : list string) (raised : option exn)
  | Finished
  | Crashed (e : exn).

(** What the event loop does next during a gather: nothing is left, the
    next coroutine is started, or the fetch of an in-flight one resolves. *)
Inductive event : Type :=
  | GatherDone
  | Start (u : string) (rest : list string)
  | Resolve (i : nat) (u : string).

Record config : Type := Config {
  st : crawl_state;
  pc : control
}.

(** The body of the POST /crawl request. *)
Record CrawlRequest : Type := mkCrawlRequest {
  req_url : string;
  respect_robots_txt : bool;
  max_urls : Z
}.

(** The dict returned by GET /crawl/{task_id}. *)
Record snapshot : Type := Snapshot {
  snap_urls : list url_record;
  snap_complete : bool;
  snap_count : nat
}.

(* --------------------------------------------------------------------- *)
(* A reference model of the libraries, used to run closed examples         *)
(* --------------------------------------------------------------------- *)

(** The program below is parametric in urllib, BeautifulSoup and the
    network.  To evaluate it on concrete sites this module gives a small
    executable stand-in for each: urlparse for URLs of the shape
    scheme://authority/path?query#fragment (no parameter part, no
    stripping of control characters), urljoin for absolute and
    absolute-path references, and an anchor finder for pages written as
    <a href='...'> elements. *)
Module Urllib.

Definition is_alpha (c : ascii) : bool :=
  let n := nat_of_ascii c in
  ((Nat.leb 65 n && Nat.leb n 90) || (Nat.leb 97 n && Nat.leb n 122))%bool.

Definition is_scheme_char (c : ascii) : bool :=
  let n := nat_of_ascii c in
  (is_alpha c || (Nat.leb 48 n && Nat.leb n 57)
   || Ascii.eqb c "+" || Ascii.eqb c "-" || Ascii.eqb c ".")%bool.

Fixpoint string_forallb (p : ascii → bool) (s : string) : bool :=
  match s with
  | EmptyString => true
  | String c s' => p c && string_forallb p s'
  end.

Definition string_existsb (p : ascii → bool) (s : string) : bool :=
  negb (string_forallb (λ c, negb (p c)) s).

(** Split before the first character satisfying [p]. *)
Fixpoint break_at (p : ascii → bool) (s : string) : string * string :=
  match s with
  | EmptyString => (EmptyString, EmptyString)
  | String c s' =>
      if p c then (EmptyString, s)
      else let '(a, b) := break_at p s' in (String c a, b)
  end.

Definition drop2 (s : string) : string :=
  match s with
  | String _ (String _ s') => s'
  | _ => EmptyString
  end.

Definition split_scheme (u : string) : string * string :=
  let '(pre, rest) := break_at (Ascii.eqb ":") u in
  match pre, rest with
  | String c _, String _ after =>
      if is_alpha c && string_forallb is_scheme_char pre
      then (lower pre, after) else (EmptyString, u)
  | _, _ => (EmptyString, u)
  end.

Definition is_delim (c : ascii) : bool :=
  (Ascii.eqb c "/" || Ascii.eqb c "?" || Ascii.eqb c "#")%bool.

Definition urlparse (u : string) : res parse_result :=
  let '(sch, rest) := split_scheme u in
  let '(loc, rest') :=
    if startswith rest "//" then break_at is_delim (drop2 rest)
    else (EmptyString, rest) in
  let open := string_existsb (Ascii.eqb "[") loc in
  let close := string_existsb (Ascii.eqb "]") loc in
  if xorb open close then Raise ValueError
  else
    let '(p, _) :=
      break_at (λ c, Ascii.eqb c "?" || Ascii.eqb c "#")%bool rest' in
    Ret (ParseResult sch loc p).

(** Everything up to and including the last slash of a path. *)
Fixpoint dirname (p : string) : string :=
  match p with
  | EmptyString => EmptyString
  | String c p' =>
      if string_existsb (Ascii.eqb "/") p then String c (dirname p')
      else EmptyString
  end.

Definition urljoin (base href : string) : res string :=
  let! b := urlparse base in
  let! h := urlparse href in
  if negb (truthy href) then Ret base
  else if truthy (scheme h) then Ret href
  else if startswith href "//" then Ret (scheme b +:+ ":" +:+ href)
  else if startswith href "/"
       then Ret (scheme b +:+ "://" +:+ netloc b +:+ href)
  else Ret (scheme b +:+ "://" +:+ netloc b +:+ dirname (path b) +:+ href).

Definition drop6 (s : string) : string :=
  match s with
  | String _ (String _ (String _ (String _ (String _ (String _ s'))))) => s'
  | _ => EmptyString
  end.

(** The href of every <a href='...'>, in document order. *)
Fixpoint find_all_href (html : string) : list string :=
  match html with
  | EmptyString => []
  | String _ html' =>
      (if startswith html "href='"
       then [fst (break_at (Ascii.eqb "'") (drop6 html))] else [])
      ++ find_all_href html'
  end.

End Urllib.

(* --------------------------------------------------------------------- *)
(* The program                                                             *)
(* --------------------------------------------------------------------- *)

Section Crawler.

(** urllib.parse.urlparse and urljoin; both raise ValueError on some
    inputs. *)
Variable urlparse : string → res parse_result.
Variable urljoin : string → string → res string.

(** [a_tag['href'] for a_tag in BeautifulSoup(html, 'lxml').find_all('a', href=True)] *)
Variable find_all_href : string → list string.

(** session.get(url, allow_redirects=True, timeout=10): raises (timeout,
    transport error) or yields a response.  crawl_url fetches a URL at most
    once per task, so a function of the URL covers every network. *)
Variable session_get : string → res response.

(** The event loop during a gather, given the coroutines not started yet
    and the URLs in flight: [None] to start the next coroutine, [Some i] to
    let the i-th pending fetch (modulo their number) resolve. *)
Variable schedule : list string → list string → option nat.

(** main.py, CrawlRequest.validate_url: the request layer only accepts a
    URL that parses with a scheme and an authority. *)
Definition validate_url (v : string) : res string :=
  try_except
    (let! parsed := urlparse v in
     if negb (truthy (scheme parsed)) || negb (truthy (netloc parsed))
     then Raise ValueError else Ret v)
    (λ _, Raise ValueError).

(** main.py, is_valid_url: the body of the try block... *)
Definition is_valid_url_body (url base_domain : string) : res bool :=
  let! parsed := urlparse url in
  let path := lower (path parsed) in
  if existsb (λ ext, endswith path ext) SKIP_EXTENSIONS then Ret false
  else Ret (bool_decide (netloc parsed = base_domain) && truthy (scheme parsed)).

(** ... and the function with its bare except, which returns False. *)
Definition is_valid_url_res (url base_domain : string) : res bool :=
  try_except (is_valid_url_body url base_domain) (λ _, Ret false).

(** is_valid_url as its callers use it: a boolean. *)
Definition is_valid_url (url base_domain : string) : bool :=
  match is_valid_url_res url base_domain with
  | Ret b => b
  | Raise _ => false
  end.

(** main.py, fetch_url: the body of the try block... *)
Definition fetch_url_body (url : string) : res (option string * Z) :=
  let! response := session_get url in
  if (resp_status response =? 200)%Z
     && contains (default "" (content_type response)) "text/html"
  then
    let! content := resp_text response in
    Ret (Some content, resp_status response)
  else Ret (None, resp_status response).

(** ... and the function with its except Exception. *)
Definition fetch_url (url : string) : res (option string * Z) :=
  try_except (fetch_url_body url) (λ _, Ret (None, 0)).

(** main.py, extract_links: the for loop over the anchors. *)
Fixpoint extract_links_loop (base_url base_domain : string)
    (hrefs : list string) (links : list string) : res (list string) :=
  match hrefs with
  | [] => Ret links
  | href :: rest =>
      let! absolute_url := urljoin base_url href in
      if is_valid_url absolute_url base_domain
      then extract_links_loop base_url base_domain rest (links ++ [absolute_url])
      else extract_links_loop base_url base_domain rest links
  end.

(** main.py, extract_links. *)
Definition extract_links (html_content base_url : string) : res (list string) :=
  if negb (truthy html_content) then Ret []
  else
    let soup := find_all_href html_content in
    let! parsed := urlparse base_url in
    let base_domain := netloc parsed in
    extract_links_loop base_url base_domain soup [].

(** main.py, crawl_site lines 99-105: the three locals after the initial
    URL was added, over the entry start_crawl created. *)
Definition crawl_site_init (url : string) : crawl_state :=
  CrawlState [url] {[url]} ∅ (TaskEntry [] false).

(** main.py, crawl_url lines 148-157: the body of the loop over the links. *)
Definition enqueue_link (s : crawl_state) (link : string) : crawl_state :=
  if bool_decide (link ∉ discovered_urls s) && bool_decide (link ∉ crawled_urls s)
  then CrawlState (queue s ++ [link]) ({[link]} ∪ discovered_urls s)
                  (crawled_urls s)
                  (TaskEntry (urls (results s) ++ [URLRecord link None true])
                             (complete (results s)))
  else s.

(** main.py, crawl_url lines 128-132, up to the await of fetch_url: the
    boolean tells whether the coroutine goes on to fetch. *)
Definition crawl_url_enter (s : crawl_state) (url : string) : crawl_state * bool :=
  if bool_decide (url ∈ crawled_urls s) then (s, false)
  else (add_crawled url s, true).

(** main.py, crawl_url lines 135-157, from the moment fetch_url resolves
    to the end; nothing in it suspends.  The exception, if any, is the one
    that leaves crawl_url.  [base_domain] is received and not used. *)
Definition crawl_url_resume (s : crawl_state) (url base_domain : string)
    : crawl_state * option exn :=
  match fetch_url url with
  | Raise e => (s, Some e)
  | Ret (content, status) =>
      let s1 := append_result (URLRecord url (Some status) true) s in
      match content with
      | Some html =>
          if truthy html then
            match extract_links html url with
            | Raise e => (s1, Some e)
            | Ret links => (fold_left enqueue_link links s1, None)
            end
          else (s1, None)
      | None => (s1, None)
      end
  end.

(** main.py, crawl_site lines 113-118: [n] iterations of the for loop. *)
Fixpoint take_batch (n : nat) (s : crawl_state) (tasks : list string)
    : crawl_state * list string :=
  match n with
  | O => (s, tasks)
  | S n' =>
      match queue s with
      | [] => (s, tasks)
      | current_url :: q =>
          let s' := set_queue q s in
          if bool_decide (current_url ∉ crawled_urls s')
          then take_batch n' s' (tasks ++ [current_url])
          else take_batch n' s' tasks
      end
  end.

(** asyncio.gather starts the coroutines in order, and each runs until it
    suspends in its fetch; a fetch that was started resolves at some later
    turn of the event loop, possibly before later coroutines start. *)
Definition next_event (todo inflight : list string) : event :=
  match todo, inflight with
  | [], [] => GatherDone
  | u :: rest, [] => Start u rest
  | [], u0 :: _ =>
      let i := (default 0%nat (schedule todo inflight) `mod` length inflight)%nat in
      Resolve i (nth i inflight u0)
  | u :: rest, u0 :: _ =>
      match schedule todo inflight with
      | None => Start u rest
      | Some k =>
          let i := (k `mod` length inflight)%nat in
          Resolve i (nth i inflight u0)
      end
  end.

(** The first exception wins: gather propagates it to crawl_site. *)
Definition first_exn (raised e : option exn) : option exn :=
  match raised with
  | Some _ => raised
  | None => e
  end.

(** One atomic stretch of crawl_site and of the coroutines it gathers. *)
Definition step (base_domain : string) (max_urls : Z) (c : config) : config :=
  match pc c with
  | LoopHead =>
      let s := st c in
      if negb (bool_decide (queue s = []))
         && (Z.of_nat (size (crawled_urls s)) <? max_urls)%Z
      then
        let '(s1, tasks) := take_batch (Nat.min 5 (length (queue s))) s [] in
        match tasks with
        | [] => Config s1 LoopHead
        | _ :: _ => Config s1 (Gathering tasks [] None)
        end
      else Config (mark_complete s) Finished
  | Gathering todo inflight raised =>
      match next_event todo inflight with
      | GatherDone =>
          match raised with
          | None => Config (st c) LoopHead
          | Some e => Config (st c) (Crashed e)
          end
      | Start u rest =>
          let '(s', fetching) := crawl_url_enter (st c) u in
          Config s' (Gathering rest (if fetching then inflight ++ [u] else inflight)
                               raised)
      | Resolve i u =>
          let '(s', e) := crawl_url_resume (st c) u base_domain in
          Config s' (Gathering todo (delete i inflight) (first_exn raised e))
      end
  | Finished => c
  | Crashed _ => c
  end.

Fixpoint run (base_domain : string) (max_urls : Z) (n : nat) (c : config) : config :=
  match n with
  | O => c
  | S n' => run base_domain max_urls n' (step base_domain max_urls c)
  end.

(** main.py, crawl_site, observed after [fuel] atomic stretches.
    [respect_robots] is received and not used. *)
Definition crawl_site (url : string) (respect_robots : bool) (max_urls : Z)
    (fuel : nat) : res config :=
  let! parsed := urlparse url in
  let base_domain := netloc parsed in
  Ret (run base_domain max_urls fuel (Config (crawl_site_init url) LoopHead)).

End Crawler.

(* --------------------------------------------------------------------- *)
(* The registry and the three endpoints                                    *)
(* --------------------------------------------------------------------- *)

(** main.py, start_crawl: the entry is created under [task_id] (a string
    computed from the URL and the clock) before the crawl is scheduled. *)
Definition start_crawl (request : CrawlRequest) (task_id : string)
    (crawl_results : gmap string task_entry) : gmap string task_entry :=
  <[task_id := TaskEntry [] false]> crawl_results.

(** What start_crawl schedules with background_tasks.add_task. *)
Definition background_task
    (urlparse : string → res parse_result)
    (urljoin : string → string → res string)
    (find_all_href : string → list string)
    (session_get : string → res response)
    (schedule : list string → list string → option nat)
    (request : CrawlRequest) (fuel : nat) : res config :=
  crawl_site urlparse urljoin find_all_href session_get schedule
             (req_url request) (respect_robots_txt request) (max_urls request) fuel.

(** main.py, get_results: the response, and the registry afterwards. *)
Definition get_results (task_id : string) (crawl_results : gmap string task_entry)
    : res snapshot * gmap string task_entry :=
  match crawl_results !! task_id with
  | None => (Raise (HTTPException 404 "Task not found"), crawl_results)
  | Some entry =>
      (Ret (Snapshot (urls entry) (complete entry) (length (urls entry))),
       crawl_results)
  end.

(** main.py, event_generator lines 192-196: one pass of the for loop over
    the log.  A Python list iterator also visits what is appended while
    the generator is suspended in a yield, so the pass sees the log as it
    is when the loop runs off its end. *)
Fixpoint scan_urls (log : list url_record) (sent_urls : gset string)
    : gset string * list url_record :=
  match log with
  | [] => (sent_urls, [])
  | url_data :: rest =>
      if bool_decide (url url_data ∉ sent_urls)
      then
        let '(sent', out) := scan_urls rest ({[url url_data]} ∪ sent_urls) in
        (sent', url_data :: out)
      else scan_urls rest sent_urls
  end.

(** main.py, event_generator line 199: the test that breaks the loop. *)
Definition stream_done (entry : task_entry) (sent_urls : gset string) : bool :=
  complete entry && bool_decide (size sent_urls = length (urls entry)).

(** main.py, event_generator: the while True loop, run against the
    successive views of crawl_results[task_id] that its passes find (one
    per pass; the sleep separates them).  It returns what was yielded and
    whether the loop was left by its break. *)
Fixpoint event_generator (views : list task_entry) (sent_urls : gset string)
    : list url_record * bool :=
  match views with
  | [] => ([], false)
  | entry :: later =>
      let '(sent', out) := scan_urls (urls entry) sent_urls in
      if stream_done entry sent' then (out, true)
      else
        let '(out', stopped) := event_generator later sent' in
        (out ++ out', stopped)
  end.

(** main.py, stream_results: 404 for an unknown task, else the generator,
    which starts from sent_urls = set(); and the registry afterwards. *)
Definition stream_results (task_id : string) (crawl_results : gmap string task_entry)
    : res (list task_entry → list url_record * bool) * gmap string task_entry :=
  match crawl_results !! task_id with
  | None => (Raise (HTTPException 404 "Task not found"), crawl_results)
  | Some _ => (Ret (λ views, event_generator views ∅), crawl_results)
  end.

(* --------------------------------------------------------------------- *)
(* Example sites                                                           *)
(* --------------------------------------------------------------------- *)

Module Sites.

Definition html_page (body : string) : res response :=
  Ret (Response 200 (Some "text/html; charset=utf-8") (Ret body)).

(** A seed page with five in-domain links; every other page is a leaf. *)
Definition five_links (u : string) : res response :=
  if String.eqb u "http://a.test/" then
    html_page ("<a href='http://a.test/p1'>1</a><a href='http://a.test/p2'>2</a>"
               +:+ "<a href='http://a.test/p3'>3</a><a href='http://a.test/p4'>4</a>"
               +:+ "<a href='http://a.test/p5'>5</a>")
  else html_page "<p>leaf</p>".

(** Page A links to an in-domain page, a cross-domain page and an image. *)
Definition scenario_a (u : string) : res response :=
  if String.eqb u "http://a.test/" then
    html_page ("<a href='http://a.test/b'>b</a><a href='http://other.test/x'>x</a>"
               +:+ "<a href='http://a.test/c.png'>c</a>")
  else html_page "<p>leaf</p>".

(** A seed page with a link that urllib cannot parse. *)
Definition bad_link (u : string) : res response :=
  if String.eqb u "http://a.test/" then
    html_page "<a href='http://[bad/'>x</a>"
  else html_page "<p>leaf</p>".

(** A seed page with two in-domain links; the first of the two pages has
    a link that urllib cannot parse. *)
Definition bad_inner (u : string) : res response :=
  if String.eqb u "http://a.test/" then
    html_page "<a href='http://a.test/p1'>1</a><a href='http://a.test/p2'>2</a>"
  else if String.eqb u "http://a.test/p1" then
    html_page "<a href='http://[bad/'>x</a>"
  else html_page "<p>leaf</p>".

(** A network on which every request times out. *)
Definition unreachable (u : string) : res response := Raise ClientError.

(** Every coroutine of a round is started before any fetch resolves, and
    the fetches resolve in the order they were started. *)
Definition in_order (todo inflight : list string) : option nat :=
  match todo with
  | [] => Some 0%nat
  | _ :: _ => None
  end.

Definition crawl (net : string → res response) (url : string) (max_urls : Z)
    (fuel : nat) : res config :=
  crawl_site Urllib.urlparse Urllib.urljoin Urllib.find_all_href net in_order
             url false max_urls fuel.

End Sites.

(* --------------------------------------------------------------------- *)
(* Vocabulary of the statements                                            *)
(* --------------------------------------------------------------------- *)

(** The path, lower-cased, ends with a member of the skip-list. *)
Definition has_skipped_extension (p : string) : Prop :=
  ∃ ext t, ext ∈ SKIP_EXTENSIONS ∧ lower p = t +:+ ext.

(** The response is a 200 whose Content-Type header contains text/html. *)
Definition is_html_200 (r : response) : bool :=
  (resp_status r =? 200)%Z && contains (default "" (content_type r)) "text/html".

(** The URLs that occur in a log. *)
Definition seen (log : list url_record) : gset string := list_to_set (url <$> log).

(** What a reader that starts with nothing sent yields on one pass. *)
Definition firsts (log : list url_record) : list url_record := (scan_urls log ∅).2.

(** Successive views of an append-only log: each extends the one before. *)
Fixpoint grows_from (log : list url_record) (views : list task_entry) : Prop :=
  match views with
  | [] => True
  | entry :: later => log `prefix_of` urls entry ∧ grows_from (urls entry) later
  end.

Definition last_log (log : list url_record) (views : list task_entry) : list url_record :=
  match last views with
  | Some entry => urls entry
  | None => log
  end.

(** What the frontier of a task keeps true of its sets, queue and log. *)
Definition frontier_ok (s : crawl_state) : Prop :=
  (∀ u, u ∈ queue s → u ∈ discovered_urls s)
  ∧ crawled_urls s ⊆ discovered_urls s
  ∧ (∀ r, r ∈ urls (results s) → url r ∈ discovered_urls s).

(** The URLs a coroutine of the current gather is still fetching. *)
Definition in_flight (c : config) : list string :=
  match pc c with
  | Gathering _ inflight _ => inflight
  | _ => []
  end.

(** The URLs of the current gather whose coroutine has not finished. *)
Definition gathered (c : config) : list string :=
  match pc c with
  | Gathering todo inflight _ => todo ++ inflight
  | _ => []
  end.

(** Every discovered URL other than the seed passed the classifier for
    [domain]. *)
Definition in_scope (urlparse : string → res parse_result) (seed domain : string)
    (s : crawl_state) : Prop :=
  ∀ u, u ∈ discovered_urls s → u = seed ∨ is_valid_url urlparse u domain = true.

Definition config_ok (urlparse : string → res parse_result) (seed domain : string)
    (c : config) : Prop :=
  frontier_ok (st c)
  ∧ in_scope urlparse seed domain (st c)
  ∧ ∀ u, u ∈ gathered c → u ∈ discovered_urls (st c).

(** The states in which crawl_url inserts links: at an observation point
    [c] the fetch of an in-flight page has resolved, its result was
    appended, and some of its links were inserted already. *)
Definition insertion_point (c : config) (s : crawl_state) : Prop :=
  ∃ u status earlier,
    u ∈ in_flight c
    ∧ s = fold_left enqueue_link earlier
                    (append_result (URLRecord u (Some status) true) (st c)).

(** From [s] to [s'] nothing was put in the queue or in the discovered set
    that the classifier rejects for [domain]. *)
Definition only_in_scope_added (urlparse : string → res parse_result)
    (domain : string) (s s' : crawl_state) : Prop :=
  (∀ u, u ∈ discovered_urls s' →
        u ∈ discovered_urls s ∨ is_valid_url urlparse u domain = true)
  ∧ (∀ u, u ∈ queue s' → u ∈ queue s ∨ is_valid_url urlparse u domain = true).

(** The URLs that have a pending record in a log, and those that have the
    record of a fetch, in log order. *)
Definition pending_urls (log : list url_record) : list string :=
  url <$> filter (λ r, status r = None) log.

Definition fetched_urls (log : list url_record) : list string :=
  url <$> filter (λ r, status r ≠ None) log.

(** The coroutines of the current gather that have not started. *)
Definition todo_of (c : config) : list string :=
  match pc c with
  | Gathering todo _ _ => todo
  | _ => []
  end.

(** urljoin over the hrefs of a page, stopping at the first that raises. *)
Fixpoint join_all (urljoin : string → string → res string) (base : string)
    (hrefs : list string) : res (list string) :=
  match hrefs with
  | [] => Ret []
  | href :: rest =>
      let! l := urljoin base href in
      let! ls := join_all urljoin base rest in
      Ret (l :: ls)
  end.

(** What a crawl keeps true of its state, given the coroutines of the
    current gather that have not started ([todo]) and those whose fetch
    is pending ([inflight]): no URL waits twice; whatever waits or is
    crawled was discovered; nothing that still waits to start is crawled
    and whatever is in flight is; every discovered URL waits or is
    crawled; the log has one pending record for every discovered URL but
    the seed and one record of a fetch for every crawled URL whose fetch
    has resolved. *)
Record state_ok (seed : string) (todo inflight : list string)
    (s : crawl_state) : Prop := StateOk {
  ok_waiting_once : NoDup (queue s ++ todo ++ inflight);
  ok_waiting_discovered :
    ∀ u, u ∈ queue s ++ todo ++ inflight → u ∈ discovered_urls s;
  ok_crawled_discovered : crawled_urls s ⊆ discovered_urls s;
  ok_waiting_fresh : ∀ u, u ∈ queue s ++ todo → u ∉ crawled_urls s;
  ok_inflight_crawled : ∀ u, u ∈ inflight → u ∈ crawled_urls s;
  ok_seed : seed ∈ discovered_urls s;
  ok_covered :
    ∀ u, u ∈ discovered_urls s → u ∈ queue s ++ todo ∨ u ∈ crawled_urls s;
  ok_pending_once : NoDup (pending_urls (urls (results s)));
  ok_pending :
    ∀ u, u ∈ pending_urls (urls (results s)) ↔ u ∈ discovered_urls s ∧ u ≠ seed;
  ok_fetched_once : NoDup (fetched_urls (urls (results s)));
  ok_fetched :
    ∀ u, u ∈ fetched_urls (urls (results s))
         ↔ u ∈ crawled_urls s ∧ u ∉ inflight
}.

(** The same at an observation point of crawl_site, where moreover
    complete is set exactly when the run is over. *)
Definition crawl_ok (seed : string) (c : config) : Prop :=
  state_ok seed (todo_of c) (in_flight c) (st c)
  ∧ (complete (results (st c)) = true ↔ pc c = Finished).

(** From [s] to [s'] the sets only grew and the log was only appended to. *)
Definition extends (s s' : crawl_state) : Prop :=
  discovered_urls s ⊆ discovered_urls s'
  ∧ crawled_urls s ⊆ crawled_urls s'
  ∧ urls (results s) `prefix_of` urls (results s').

(** The entries a reader finds when it looks at a run after [fuel] steps
    and then again after each of the given further numbers of steps. *)
Fixpoint views_at (go : nat → config) (fuel : nat) (gaps : list nat)
    : list task_entry :=
  match gaps with
  | [] => []
  | k :: later =>
      results (st (go (fuel + k)%nat)) :: views_at go (fuel + k)%nat later
  end.

(** The run is over: crawl_site returned or raised. *)
Definition halted (c : config) : Prop :=
  pc c = Finished ∨ ∃ e, pc c = Crashed e.

(** The order of discovery: the seed, then the URLs of the pending
    records in log order; the queue holds the part of it not dequeued yet. *)
Definition queue_in_order (seed : string) (s : crawl_state) : Prop :=
  queue s `suffix_of` (seed :: pending_urls (urls (results s))).

(** The log is empty or starts with the result of the fetch of the seed. *)
Definition log_starts_with_seed (seed : string) (s : crawl_state) : Prop :=
  urls (results s) = []
  ∨ ∃ code rest, urls (results s) = URLRecord seed (Some code) true :: rest.

(** urljoin raises on no href of an HTML page that the network serves,
    taken against the URL of the page. *)
Definition links_resolve (urljoin : string → string → res string)
    (find_all_href : string → list string)
    (session_get : string → res response) : Prop :=
  ∀ u html code h,
    fetch_url session_get u = Ret (Some html, code) →
    h ∈ find_all_href html →
    ∃ l, urljoin u h = Ret l.

(** [e] is what extract_links raised on the non-empty HTML body of a page
    that was crawled. *)
Definition raised_by_extract_links (urlparse : string → res parse_result)
    (urljoin : string → string → res string)
    (find_all_href : string → list string)
    (session_get : string → res response)
    (s : crawl_state) (e : exn) : Prop :=
  ∃ u html code,
    u ∈ crawled_urls s
    ∧ fetch_url session_get u = Ret (Some html, code)
    ∧ html ≠ ""
    ∧ extract_links urlparse urljoin find_all_href html u = Raise e.

(* --------------------------------------------------------------------- *)
(* The entry of a task in the registry, over time                          *)
(* --------------------------------------------------------------------- *)

(** What the server does between two looks of a reader at
    crawl_results[task_id]: the crawl of that task makes some steps, or
    start_crawl registers a task under some id. *)
Inductive server_event : Type :=
  | CrawlSteps (k : nat)
  | StartCrawl (request : CrawlRequest) (id : string).

Definition with_results (entry : task_entry) (c : config) : config :=
  Config (CrawlState (queue (st c)) (discovered_urls (st c))
                     (crawled_urls (st c)) entry)
         (pc c).

Section Server.

Variable urlparse : string → res parse_result.
Variable urljoin : string → string → res string.
Variable find_all_href : string → list string.
Variable session_get : string → res response.
Variable schedule : list string → list string → option nat.
Variable base_domain : string.
Variable limit : Z.
Variable task_id : string.

(** crawl_site and crawl_url reach the entry through crawl_results[task_id]
    at every access (main.py lines 124, 138, 153): the steps of the crawl
    work on the entry that the registry holds under [task_id] at that
    moment and leave it there.  start_crawl (line 165) puts a fresh entry
    under its id, whatever was there.  None is the KeyError of a lookup
    under an id that is not registered. *)
Definition server_step (ev : server_event)
    (σ : gmap string task_entry * config)
    : option (gmap string task_entry * config) :=
  match ev with
  | CrawlSteps k =>
      entry ← σ.1 !! task_id;
      let c' := run urlparse urljoin find_all_href session_get schedule
                    base_domain limit k (with_results entry σ.2) in
      Some (<[task_id := results (st c')]> σ.1, c')
  | StartCrawl request id => Some (start_crawl request id σ.1, σ.2)
  end.

(** The entries that a reader of crawl_results[task_id] finds when it
    looks after each of the given events. *)
Fixpoint server_views (events : list server_event)
    (σ : gmap string task_entry * config) : option (list task_entry) :=
  match events with
  | [] => Some []
  | ev :: later =>
      σ' ← server_step ev σ;
      entry ← σ'.1 !! task_id;
      views ← server_views later σ';
      Some (entry :: views)
  end.

End Server.

(** The exception that a coroutine of the current gather raised, or by
    which crawl_site was left. *)
Definition raised_now (c : config) : option exn :=
  match pc c with
  | Gathering _ _ raised => raised
  | Crashed e => Some e
  | _ => None
  end.

(** The steps of the crawl that an event stands for. *)
Definition gap_of (ev : server_event) : nat :=
  match ev with
  | CrawlSteps k => k
  | StartCrawl _ _ => 0%nat
  end.

(* ===================================================================== *)
(* Properties                                                              *)
(* ===================================================================== *)

(* --------------------------------------------------------------------- *)
(* Strings                                                                 *)
(* --------------------------------------------------------------------- *)

Lemma app_cons (c : ascii) (s t : string) :
  String c s +:+ t = String c (s +:+ t).
Proof. reflexivity. Qed.

Lemma app_nil_l (t : string) : "" +:+ t = t.
Proof. reflexivity. Qed.

Lemma startswith_spec (s p : string) :
  startswith s p = true ↔ ∃ t, s = p +:+ t.
Proof.
  revert s. induction p as [|c p IH]; intros s; simpl.
  - split; [intros _; by exists s | done].
  - destruct s as [|d s].
    + split; [done | intros [t Ht]; rewrite app_cons in Ht; discriminate].
    + destruct (Ascii.eqb_spec c d) as [->|Hne].
      * rewrite IH. split; intros [t Ht]; exists t.
        -- by rewrite app_cons, Ht.
        -- rewrite app_cons in Ht. by injection Ht.
      * split; [done | intros [t Ht]; rewrite app_cons in Ht; congruence].
Qed.

Lemma string_app_assoc (a b c : string) : (a +:+ b) +:+ c = a +:+ (b +:+ c).
Proof.
  induction a as [|x a IH]; [done|]. by rewrite !app_cons, IH.
Qed.

Lemma string_app_nil_r (a : string) : a +:+ "" = a.
Proof.
  induction a as [|x a IH]; [done|]. by rewrite app_cons, IH.
Qed.

Lemma string_rev_app_spec (s acc : string) :
  string_rev_app s acc = string_rev s +:+ acc.
Proof.
  unfold string_rev. revert acc.
  induction s as [|c s IH]; intros acc; simpl; [done|].
  rewrite (IH (String c acc)), (IH (String c "")).
  by rewrite string_app_assoc.
Qed.

Lemma string_rev_cons (c : ascii) (s : string) :
  string_rev (String c s) = string_rev s +:+ String c "".
Proof. unfold string_rev at 1. simpl. apply string_rev_app_spec. Qed.

Lemma string_rev_app_distr (a b : string) :
  string_rev (a +:+ b) = string_rev b +:+ string_rev a.
Proof.
  induction a as [|c a IH].
  - by rewrite app_nil_l, string_app_nil_r.
  - by rewrite app_cons, !string_rev_cons, IH, string_app_assoc.
Qed.

Lemma string_rev_involutive (s : string) : string_rev (string_rev s) = s.
Proof.
  induction s as [|c s IH]; [done|].
  by rewrite string_rev_cons, string_rev_app_distr, IH.
Qed.

(** endswith is the suffix test. *)
Lemma endswith_spec (s suffix : string) :
  endswith s suffix = true ↔ ∃ t, s = t +:+ suffix.
Proof.
  unfold endswith. rewrite startswith_spec. split; intros [t Ht].
  - exists (string_rev t).
    rewrite <- (string_rev_involutive s), Ht, string_rev_app_distr.
    by rewrite string_rev_involutive.
  - exists (string_rev t). by rewrite Ht, string_rev_app_distr.
Qed.

Lemma truthy_spec (s : string) : truthy s = true ↔ s ≠ "".
Proof. destruct s; simpl; split; congruence. Qed.

Lemma skip_test_spec (p : string) :
  existsb (λ ext, endswith (lower p) ext) SKIP_EXTENSIONS = true
  ↔ has_skipped_extension p.
Proof.
  rewrite existsb_exists. unfold has_skipped_extension.
  split.
  - intros (ext & Hin & He). apply endswith_spec in He as [t Ht].
    exists ext, t. by rewrite list_elem_of_In.
  - intros (ext & t & Hin & Ht). exists ext.
    rewrite <- list_elem_of_In. split; [done|].
    apply endswith_spec. by exists t.
Qed.

(* --------------------------------------------------------------------- *)
(* The stream reader: one pass over the log                                *)
(* --------------------------------------------------------------------- *)

Lemma scan_urls_cons_new r l S :
  url r ∉ S →
  scan_urls (r :: l) S
  = ((scan_urls l ({[url r]} ∪ S)).1, r :: (scan_urls l ({[url r]} ∪ S)).2).
Proof.
  intros H. simpl. rewrite bool_decide_eq_true_2 by done.
  by destruct (scan_urls l _).
Qed.

Lemma scan_urls_cons_old r l S :
  url r ∈ S → scan_urls (r :: l) S = scan_urls l S.
Proof. intros H. simpl. rewrite bool_decide_eq_false_2; [done|]. by intros []. Qed.

Lemma scan_urls_sent l S : (scan_urls l S).1 = S ∪ seen l.
Proof.
  revert S. induction l as [|r l IH]; intros S.
  - unfold seen. simpl. set_solver.
  - destruct (decide (url r ∈ S)) as [Hin|Hni].
    + rewrite scan_urls_cons_old, IH by done. unfold seen. simpl. set_solver.
    + rewrite scan_urls_cons_new by done. simpl. rewrite IH. unfold seen. simpl. set_solver.
Qed.

Lemma scan_urls_app l1 l2 S :
  scan_urls (l1 ++ l2) S
  = ((scan_urls l2 (scan_urls l1 S).1).1,
     (scan_urls l1 S).2 ++ (scan_urls l2 (scan_urls l1 S).1).2).
Proof.
  revert S. induction l1 as [|r l1 IH]; intros S.
  - simpl. by destruct (scan_urls l2 S).
  - destruct (decide (url r ∈ S)) as [Hin|Hni].
    + rewrite <- app_comm_cons. rewrite !scan_urls_cons_old by done. apply IH.
    + rewrite <- app_comm_cons. rewrite !scan_urls_cons_new by done. rewrite IH. done.
Qed.

Lemma scan_urls_nothing_new l S : seen l ⊆ S → (scan_urls l S).2 = [].
Proof.
  revert S. induction l as [|r l IH]; intros S H; [done|].
  rewrite scan_urls_cons_old.
  - apply IH. unfold seen in *. simpl in H. set_solver.
  - unfold seen in *. simpl in H. set_solver.
Qed.

Lemma scan_urls_size l S :
  size (scan_urls l S).1 = (size S + length (scan_urls l S).2)%nat.
Proof.
  revert S. induction l as [|r l IH]; intros S.
  - simpl. lia.
  - destruct (decide (url r ∈ S)) as [Hin|Hni].
    + rewrite scan_urls_cons_old by done. apply IH.
    + rewrite scan_urls_cons_new by done. simpl. rewrite IH.
      rewrite size_union by set_solver. rewrite size_singleton. lia.
Qed.

Lemma scan_urls_length l S : (length (scan_urls l S).2 ≤ length l)%nat.
Proof.
  revert S. induction l as [|r l IH]; intros S; [done|].
  destruct (decide (url r ∈ S)) as [Hin|Hni].
  - rewrite scan_urls_cons_old by done. specialize (IH S). simpl. lia.
  - rewrite scan_urls_cons_new by done. simpl. specialize (IH ({[url r]} ∪ S)). lia.
Qed.

Lemma scan_urls_all l S :
  length (scan_urls l S).2 = length l → (scan_urls l S).2 = l.
Proof.
  revert S. induction l as [|r l IH]; intros S; [done|].
  destruct (decide (url r ∈ S)) as [Hin|Hni].
  - rewrite scan_urls_cons_old by done. pose proof (scan_urls_length l S). simpl. lia.
  - rewrite scan_urls_cons_new by done. simpl. intros [= H]. f_equal. by apply IH.
Qed.

Lemma scan_urls_nodup l S :
  NoDup (url <$> l) → (∀ r, r ∈ l → url r ∉ S) → (scan_urls l S).2 = l.
Proof.
  revert S. induction l as [|r l IH]; intros S Hnd Hd; [done|].
  rewrite fmap_cons in Hnd. apply NoDup_cons in Hnd as [Hr Hnd].
  rewrite scan_urls_cons_new by (apply Hd; left). simpl. f_equal.
  apply IH; [done|]. intros r' Hr'.
  assert (url r' ≠ url r). { intros E. apply Hr. rewrite <- E. by apply list_elem_of_fmap_2. }
  assert (url r' ∉ S) by (apply Hd; by right). set_solver.
Qed.

Lemma scan_urls_all_nodup l S :
  (scan_urls l S).2 = l → NoDup (url <$> l) ∧ ∀ r, r ∈ l → url r ∉ S.
Proof.
  revert S. induction l as [|r l IH]; intros S H.
  - split; [constructor|]. intros r Hr. by apply elem_of_nil in Hr.
  - destruct (decide (url r ∈ S)) as [Hin|Hni].
    + rewrite scan_urls_cons_old in H by done.
      pose proof (scan_urls_length l S) as Hl. rewrite H in Hl. simpl in Hl. lia.
    + rewrite scan_urls_cons_new in H by done. simpl in H. injection H as H.
      apply IH in H as [Hnd Hd]. split.
      * rewrite fmap_cons. apply NoDup_cons. split; [|done].
        intros Hin. apply list_elem_of_fmap in Hin as (r' & E & Hr').
        apply Hd in Hr'. set_solver.
      * intros r' Hr'. apply elem_of_cons in Hr' as [->|Hr']; [done|].
        apply Hd in Hr'. set_solver.
Qed.

Lemma seen_app l1 l2 : seen (l1 ++ l2) = seen l1 ∪ seen l2.
Proof. unfold seen. rewrite fmap_app. set_solver. Qed.

Lemma elem_of_seen u l : u ∈ seen l ↔ u ∈ url <$> l.
Proof. unfold seen. set_solver. Qed.

Lemma scan_urls_sublist l S : sublist (scan_urls l S).2 l.
Proof.
  revert S. induction l as [|r l IH]; intros S; [constructor|].
  destruct (decide (url r ∈ S)) as [Hin|Hni].
  - rewrite scan_urls_cons_old by done. by apply sublist_cons.
  - rewrite scan_urls_cons_new by done. simpl. by apply sublist_skip.
Qed.

Lemma scan_urls_fresh l S r : r ∈ (scan_urls l S).2 → url r ∉ S.
Proof.
  revert S. induction l as [|r' l IH]; intros S; [by intros ?%elem_of_nil|].
  destruct (decide (url r' ∈ S)) as [Hin|Hni].
  - rewrite scan_urls_cons_old by done. apply IH.
  - rewrite scan_urls_cons_new by done. simpl.
    intros [->|H]%elem_of_cons; [done|]. apply IH in H. set_solver.
Qed.

Lemma scan_urls_once l S : NoDup (url <$> (scan_urls l S).2).
Proof.
  revert S. induction l as [|r l IH]; intros S; [constructor|].
  destruct (decide (url r ∈ S)) as [Hin|Hni].
  - rewrite scan_urls_cons_old by done. apply IH.
  - rewrite scan_urls_cons_new by done. simpl. apply NoDup_cons. split; [|apply IH].
    intros (r' & E & H)%list_elem_of_fmap. apply scan_urls_fresh in H. set_solver.
Qed.

Lemma scan_urls_first l S r :
  r ∈ (scan_urls l S).2 →
  ∃ l1 l2, l = l1 ++ r :: l2 ∧ url r ∉ url <$> l1.
Proof.
  revert S. induction l as [|r' l IH]; intros S; [by intros ?%elem_of_nil|].
  destruct (decide (url r' ∈ S)) as [Hin|Hni].
  - rewrite scan_urls_cons_old by done. intros H.
    pose proof (scan_urls_fresh _ _ _ H) as Hf.
    apply IH in H as (l1 & l2 & -> & Hl1). exists (r' :: l1), l2. split; [done|].
    rewrite fmap_cons, not_elem_of_cons. split; [|done]. congruence.
  - rewrite scan_urls_cons_new by done. simpl.
    intros [->|H]%elem_of_cons.
    + exists [], l. split; [done|]. simpl. apply not_elem_of_nil.
    + pose proof (scan_urls_fresh _ _ _ H) as Hf.
      apply IH in H as (l1 & l2 & -> & Hl1). exists (r' :: l1), l2. split; [done|].
      rewrite fmap_cons, not_elem_of_cons. split; [|done]. set_solver.
Qed.

Lemma scan_urls_sent_out l S : (scan_urls l S).1 = S ∪ seen (scan_urls l S).2.
Proof.
  revert S. induction l as [|r l IH]; intros S.
  - unfold seen. simpl. set_solver.
  - destruct (decide (url r ∈ S)) as [Hin|Hni].
    + rewrite scan_urls_cons_old by done. apply IH.
    + rewrite scan_urls_cons_new by done. simpl. rewrite IH.
      unfold seen. simpl. set_solver.
Qed.

Lemma scan_urls_covers l S r :
  r ∈ l → url r ∈ S ∨ url r ∈ url <$> (scan_urls l S).2.
Proof.
  intros Hr.
  assert (url r ∈ (scan_urls l S).1) as H.
  { rewrite scan_urls_sent, elem_of_union, elem_of_seen. right. by apply list_elem_of_fmap_2. }
  rewrite scan_urls_sent_out, elem_of_union, elem_of_seen in H. done.
Qed.

Lemma event_generator_cons entry later S :
  event_generator (entry :: later) S
  = if stream_done entry (scan_urls (urls entry) S).1
    then ((scan_urls (urls entry) S).2, true)
    else ((scan_urls (urls entry) S).2
            ++ (event_generator later (scan_urls (urls entry) S).1).1,
          (event_generator later (scan_urls (urls entry) S).1).2).
Proof.
  simpl. destruct (scan_urls (urls entry) S) as [sent' out]. simpl.
  destruct (stream_done entry sent'); [done|].
  by destruct (event_generator later sent').
Qed.

Lemma rescan_prefix log ext :
  scan_urls (log ++ ext) (seen log)
  = (seen (log ++ ext), (scan_urls ext (seen log)).2)
  ∧ firsts (log ++ ext) = firsts log ++ (scan_urls ext (seen log)).2.
Proof.
  unfold firsts. rewrite !scan_urls_app.
  rewrite (scan_urls_nothing_new log (seen log)) by done.
  rewrite !scan_urls_sent. simpl.
  replace (seen log ∪ seen log) with (seen log) by set_solver.
  replace (∅ ∪ seen log) with (seen log) by set_solver.
  rewrite seen_app. done.
Qed.

Lemma stream_done_spec entry :
  stream_done entry (seen (urls entry)) = true
  ↔ complete entry = true ∧ firsts (urls entry) = urls entry.
Proof.
  unfold stream_done. rewrite andb_true_iff, bool_decide_eq_true.
  assert (size (seen (urls entry)) = length (firsts (urls entry))) as ->.
  { unfold firsts. pose proof (scan_urls_size (urls entry) ∅) as H.
    rewrite scan_urls_sent, size_empty in H.
    replace (∅ ∪ seen (urls entry)) with (seen (urls entry)) in H by set_solver.
    done. }
  split; intros [Hc H]; split; try done.
  - by apply scan_urls_all.
  - by rewrite H.
Qed.

Lemma firsts_nodup log : firsts log = log ↔ NoDup (url <$> log).
Proof.
  unfold firsts. split.
  - intros H. by apply scan_urls_all_nodup in H as [H _].
  - intros H. apply scan_urls_nodup; [done|]. set_solver.
Qed.

Lemma event_generator_from log views out stopped :
  grows_from log views →
  event_generator views (seen log) = (out, stopped) →
  ∃ final,
    firsts log ++ out = firsts final
    ∧ (stopped = true →
       ∃ entry, entry ∈ views ∧ final = urls entry
                ∧ complete entry = true ∧ firsts final = final)
    ∧ (stopped = false →
       final = last_log log views
       ∧ ∀ entry, entry ∈ views →
           ¬ (complete entry = true ∧ NoDup (url <$> urls entry))).
Proof.
  revert log out stopped.
  induction views as [|entry later IH]; intros log out stopped Hg Hrun.
  - simpl in Hrun. injection Hrun as <- <-. exists log.
    rewrite app_nil_r. split; [done|]. split; [done|]. intros _.
    split; [done|]. by intros e ?%elem_of_nil.
  - destruct Hg as [[ext Hext] Hg].
    rewrite event_generator_cons in Hrun.
    destruct (rescan_prefix log ext) as [Hscan Hfirsts].
    rewrite <- Hext in Hscan, Hfirsts. rewrite Hscan in Hrun. simpl in Hrun.
    destruct (stream_done entry (seen (urls entry))) eqn:Hdone.
    + injection Hrun as <- <-. apply stream_done_spec in Hdone as [Hc Hall].
      exists (urls entry). split; [done|]. split; [|done].
      intros _. exists entry. split; [left|done].
    + destruct (event_generator later (seen (urls entry))) as [out' stopped'] eqn:Hrest.
      simpl in Hrun. injection Hrun as <- <-.
      destruct (IH _ _ _ Hg Hrest) as (final & Hout & Hstop & Hgo).
      exists final. split; [|split].
      * by rewrite app_assoc, <- Hfirsts.
      * intros Hs. destruct (Hstop Hs) as (e & He & ?). exists e. split; [by right|done].
      * intros Hs. destruct (Hgo Hs) as [Hlast Hnone]. split.
        -- rewrite Hlast. unfold last_log. destruct later as [|e' later']; [done|].
           change (last (entry :: e' :: later')) with (last (e' :: later')).
           destruct (last (e' :: later')) eqn:E; [done|].
           by apply last_None in E.
        -- intros e [->|He]%elem_of_cons; [|by apply Hnone].
           intros [Hc Hnd]. apply firsts_nodup in Hnd.
           assert (stream_done entry (seen (urls entry)) = true)
             by (by apply stream_done_spec).
           congruence.
Qed.

(* --------------------------------------------------------------------- *)
(* The stream reader: the generator                                        *)
(* --------------------------------------------------------------------- *)

Lemma grows_from_replicate (n : nat) (entry : task_entry) (log : list url_record) :
  log `prefix_of` urls entry → grows_from log (replicate n entry).
Proof.
  revert log. induction n as [|n IH]; intros log H; [done|].
  split; [done|]. by apply IH.
Qed.

(** Once a URL has two records in the log, the break test of the reader
    never succeeds, however many passes it makes. *)
Lemma stream_never_stops_on_repeated_url (passes : nat) (entry : task_entry) :
  ¬ NoDup (url <$> urls entry) →
  (event_generator (replicate passes entry) ∅).2 = false.
Proof.
  intros Hdup.
  destruct (event_generator (replicate passes entry) ∅) as [out stopped] eqn:Hrun.
  destruct stopped; [|done]. exfalso.
  destruct (event_generator_from [] (replicate passes entry) out true)
    as (final & _ & Hstop & _).
  - apply grows_from_replicate. apply prefix_nil.
  - done.
  - destruct (Hstop eq_refl) as (e & He & -> & _ & Hall).
    apply elem_of_replicate in He as [-> _].
    by apply firsts_nodup in Hall.
Qed.

(** X20.  Run against successive views of an append-only log, the reader
    yields, for every URL of the log it last
    looked at, the first record appended for that URL, once, and nothing
    else: a later record of a URL already sent is skipped.  It stops only
    on a complete task whose log it has yielded in full, and it does not
    stop before the last view otherwise.  When no URL has two records it
    yields every record exactly once, and it stops iff some view shows
    complete = true. *)
Theorem stream_yields_first_record_per_url
    (views : list task_entry) (out : list url_record) (stopped : bool) :
  grows_from [] views →
  views ≠ [] →
  event_generator views ∅ = (out, stopped) →
  ∃ entry,
    entry ∈ views
    ∧ sublist out (urls entry)
    ∧ NoDup (url <$> out)
    ∧ (∀ r, r ∈ urls entry → url r ∈ url <$> out)
    ∧ (∀ r, r ∈ out → ∃ l1 l2, urls entry = l1 ++ r :: l2 ∧ url r ∉ url <$> l1)
    ∧ (stopped = true → complete entry = true ∧ out = urls entry)
    ∧ (stopped = false → last views = Some entry)
    ∧ ((∀ v, v ∈ views → NoDup (url <$> urls v)) →
       out = urls entry
       ∧ (stopped = true ↔ ∃ v, v ∈ views ∧ complete v = true)).
Proof.
  intros Hg Hne Hrun.
  destruct (event_generator_from [] views out stopped Hg Hrun)
    as (final & Hout & Hstop & Hgo).
  change (firsts [] ++ out) with out in Hout.
  assert (∃ entry, entry ∈ views ∧ final = urls entry
                   ∧ (stopped = false → last views = Some entry)
                   ∧ (stopped = true →
                      complete entry = true ∧ firsts final = final))
    as (entry & Hin & -> & Hlast & Hfull).
  { destruct stopped.
    - destruct (Hstop eq_refl) as (e & He & Hf & Hc & Hall). by exists e.
    - destruct (Hgo eq_refl) as [Hf _]. unfold last_log in Hf.
      destruct (last views) as [e|] eqn:Hl.
      + exists e. split; [|done]. apply last_Some in Hl as [l' ->].
        apply elem_of_app. right. left.
      + by apply last_None in Hl. }
  exists entry. rewrite Hout. unfold firsts.
  split; [done|]. split; [apply scan_urls_sublist|].
  split; [apply scan_urls_once|]. split.
  { intros r Hr. destruct (scan_urls_covers (urls entry) ∅ r Hr); [set_solver|done]. }
  split; [apply scan_urls_first|].
  split; [exact Hfull|]. split; [exact Hlast|].
  intros Hnd. split; [by apply firsts_nodup, Hnd|]. split.
  - intros Hs. destruct (Hstop Hs) as (e & He & _ & Hc & _). by exists e.
  - intros (v & Hv & Hc). destruct stopped; [done|].
    destruct (Hgo eq_refl) as [_ Hnone]. destruct (Hnone v Hv). split; [done|].
    by apply Hnd.
Qed.

(** A log of two views: the seed was fetched, then a link was found. *)
Lemma stream_yields_first_record_per_url_witness :
  ∃ entry,
    entry ∈ [TaskEntry [URLRecord "http://a.test/" (Some 200) true] false;
             TaskEntry [URLRecord "http://a.test/" (Some 200) true;
                        URLRecord "http://a.test/b" None true] true]
    ∧ complete entry = true
    ∧ [URLRecord "http://a.test/" (Some 200) true;
       URLRecord "http://a.test/b" None true] = urls entry.
Proof.
  destruct (stream_yields_first_record_per_url
              [TaskEntry [URLRecord "http://a.test/" (Some 200) true] false;
               TaskEntry [URLRecord "http://a.test/" (Some 200) true;
                          URLRecord "http://a.test/b" None true] true]
              [URLRecord "http://a.test/" (Some 200) true;
               URLRecord "http://a.test/b" None true]
              true)
    as (entry & Hin & _ & _ & _ & _ & Hstop & _).
  - simpl. split; [by eexists|]. split; [|done].
    by exists [URLRecord "http://a.test/b" None true].
  - done.
  - vm_compute. reflexivity.
  - exists entry. split; [done|]. by apply Hstop.
Defined.

Lemma last_replicate_S {A : Type} (n : nat) (x : A) :
  last (replicate (S n) x) = Some x.
Proof.
  induction n as [|n IH]; [done|].
  change (replicate (S (S n)) x) with (x :: replicate (S n) x).
  by rewrite last_cons, IH.
Qed.

(** C2.  The reader does not yield every record and does not stop on a
    finished task.  On the log of the crawl of the scenario site the task
    is complete and the record of the fetch of /b is in the log; however
    many passes the reader makes, it yields the seed's record and the
    pending record of /b, never the record of the fetch of /b, and its
    break test never succeeds. *)
Lemma stream_skips_second_record (passes : nat) :
  ∃ c,
    Sites.crawl Sites.scenario_a "http://a.test/" 10 12 = Ret c
    ∧ pc c = Finished
    ∧ complete (results (st c)) = true
    ∧ URLRecord "http://a.test/b" (Some 200) true ∈ urls (results (st c))
    ∧ event_generator (replicate (S passes) (results (st c))) ∅
      = ([URLRecord "http://a.test/" (Some 200) true;
          URLRecord "http://a.test/b" None true], false)
    ∧ URLRecord "http://a.test/b" (Some 200) true
      ∉ [URLRecord "http://a.test/" (Some 200) true;
         URLRecord "http://a.test/b" None true].
Proof.
  eexists. split; [vm_compute; reflexivity|]. cbn [st pc results complete urls].
  split; [done|]. split; [done|]. split.
  { apply elem_of_cons. right. apply elem_of_cons. right. left. }
  split.
  { set (entry := TaskEntry _ true).
    destruct (event_generator (replicate (S passes) entry) ∅)
      as [out stopped] eqn:Hrun.
    assert (stopped = false) as ->.
    { pose proof (stream_never_stops_on_repeated_url (S passes) entry) as H.
      rewrite Hrun in H. apply H. subst entry. cbn [urls fmap list_fmap url].
      rewrite !NoDup_cons. intros (_ & Hb & _). apply Hb. left. }
    destruct (event_generator_from [] (replicate (S passes) entry) out false)
      as (final & Hout & _ & Hgo).
    - apply grows_from_replicate, prefix_nil.
    - done.
    - destruct (Hgo eq_refl) as [-> _]. f_equal.
      change (firsts [] ++ out) with out in Hout. rewrite Hout.
      unfold last_log. rewrite last_replicate_S. by vm_compute. }
  intros H. repeat (apply elem_of_cons in H as [H|H]; [discriminate|]).
  by apply elem_of_nil in H.
Qed.

Section Proofs.

Variable urlparse : string → res parse_result.
Variable urljoin : string → string → res string.
Variable find_all_href : string → list string.
Variable session_get : string → res response.
Variable schedule : list string → list string → option nat.

(* --------------------------------------------------------------------- *)
(* The classifier                                                          *)
(* --------------------------------------------------------------------- *)

Lemma is_valid_url_true (u domain : string) :
  is_valid_url urlparse u domain = true ↔
  ∃ parsed, urlparse u = Ret parsed
            ∧ ¬ has_skipped_extension (path parsed)
            ∧ scheme parsed ≠ ""
            ∧ netloc parsed = domain.
Proof.
  unfold is_valid_url, is_valid_url_res, is_valid_url_body.
  destruct (urlparse u) as [parsed|e]; cbn [bind try_except].
  - pose proof (skip_test_spec (path parsed)) as Hskip.
    destruct (existsb _ SKIP_EXTENSIONS); cbn [bind try_except].
    + split; [done|]. intros (p & [= <-] & Hno & _). destruct Hno. by apply Hskip.
    + rewrite andb_true_iff, bool_decide_eq_true, truthy_spec.
      split.
      * intros [Hd Hs]. exists parsed. repeat split; try done.
        intros H. apply Hskip in H. done.
      * intros (p & [= <-] & _ & Hs & Hd). done.
  - split; [done|]. intros (p & Hp & _). discriminate.
Qed.

(** C7. is_valid_url is a total boolean function of the candidate URL and
    the domain (no state, no I/O).  It returns False when urlparse raises,
    when the lower-cased path ends with a member of SKIP_EXTENSIONS, when
    the scheme is empty, and when the authority is not the very string
    [domain] (so a subdomain is rejected); it returns True in every other
    case. *)
Theorem is_valid_url_classifies (u domain : string) :
  match urlparse u with
  | Raise _ => is_valid_url urlparse u domain = false
  | Ret parsed =>
      (has_skipped_extension (path parsed) → is_valid_url urlparse u domain = false)
      ∧ (scheme parsed = "" → is_valid_url urlparse u domain = false)
      ∧ (netloc parsed ≠ domain → is_valid_url urlparse u domain = false)
      ∧ (¬ has_skipped_extension (path parsed) → scheme parsed ≠ "" →
         netloc parsed = domain → is_valid_url urlparse u domain = true)
  end.
Proof.
  pose proof (is_valid_url_true u domain) as Hiff.
  destruct (urlparse u) as [parsed|e] eqn:Hp.
  - repeat split.
    + intros Hs. apply not_true_is_false. rewrite Hiff.
      intros (p & [= <-] & Hno & _). done.
    + intros Hs. apply not_true_is_false. rewrite Hiff.
      intros (p & [= <-] & _ & Hne & _). done.
    + intros Hs. apply not_true_is_false. rewrite Hiff.
      intros (p & [= <-] & _ & _ & Heq). done.
    + intros H1 H2 H3. apply Hiff. by exists parsed.
  - apply not_true_is_false. rewrite Hiff. intros (p & [=] & _).
Qed.

(* --------------------------------------------------------------------- *)
(* The fetch unit                                                          *)
(* --------------------------------------------------------------------- *)

(** C6. fetch_url never raises: for every URL it returns a pair.  The pair
    is (None, 0) when session.get raises or reading the body raises; it is
    (body, 200) when the status is 200 and the content type contains
    text/html; it is (None, status) in every other case; and a body is
    only ever returned with status 200 from an HTML response. *)
Theorem fetch_url_total (u : string) :
  ∃ content status,
    fetch_url session_get u = Ret (content, status)
    ∧ match session_get u with
      | Raise _ => content = None ∧ status = 0
      | Ret r =>
          if is_html_200 r then
            match resp_text r with
            | Ret body => content = Some body ∧ status = 200
            | Raise _ => content = None ∧ status = 0
            end
          else content = None ∧ status = resp_status r
      end
    ∧ ∀ body, content = Some body →
        status = 200
        ∧ ∃ r, session_get u = Ret r ∧ resp_status r = 200
               ∧ contains (default "" (content_type r)) "text/html" = true
               ∧ resp_text r = Ret body.
Proof.
  unfold fetch_url, fetch_url_body, is_html_200.
  destruct (session_get u) as [r|e]; cbn [bind try_except].
  - destruct (resp_status r =? 200)%Z eqn:Hs; cbn [andb].
    + apply Z.eqb_eq in Hs.
      destruct (contains _ _) eqn:Hc.
      * destruct (resp_text r) as [body|e] eqn:Ht; cbn [bind try_except].
        -- exists (Some body), (resp_status r).
           split; [done|]. split; [done|].
           intros b [= <-]. split; [done|]. by exists r.
        -- exists None, 0. by repeat split.
      * exists None, (resp_status r). by repeat split.
    + exists None, (resp_status r). by repeat split.
  - exists None, 0. by repeat split.
Qed.

(* --------------------------------------------------------------------- *)
(* The robots flag                                                         *)
(* --------------------------------------------------------------------- *)

(** C9. Two crawl requests that differ only in respect_robots_txt, run on
    the same network with the same completion order, are in the same
    configuration (queue, discovered set, crawled set, result log, control
    point) after any number of steps, and start_crawl creates the same
    entry for both. *)
Theorem respect_robots_noninterference
    (u task_id : string) (limit : Z) (fuel : nat)
    (crawl_results : gmap string task_entry) :
  background_task urlparse urljoin find_all_href session_get schedule
                  (mkCrawlRequest u true limit) fuel
  = background_task urlparse urljoin find_all_href session_get schedule
                    (mkCrawlRequest u false limit) fuel
  ∧ start_crawl (mkCrawlRequest u true limit) task_id crawl_results
    = start_crawl (mkCrawlRequest u false limit) task_id crawl_results.
Proof. split; reflexivity. Qed.

(* --------------------------------------------------------------------- *)
(* The read endpoints                                                      *)
(* --------------------------------------------------------------------- *)

(** C10. For a task id that is not in crawl_results, get_results and
    stream_results both raise HTTPException 404 and leave the registry as
    it was; for a task id that is present both return (the snapshot, the
    event generator) and leave the registry as it was. *)
Theorem read_endpoints_404 (task_id : string)
    (crawl_results : gmap string task_entry) :
  match crawl_results !! task_id with
  | None =>
      get_results task_id crawl_results
        = (Raise (HTTPException 404 "Task not found"), crawl_results)
      ∧ stream_results task_id crawl_results
        = (Raise (HTTPException 404 "Task not found"), crawl_results)
  | Some entry =>
      get_results task_id crawl_results
        = (Ret (Snapshot (urls entry) (complete entry) (length (urls entry))),
           crawl_results)
      ∧ ∃ generator,
          stream_results task_id crawl_results = (Ret generator, crawl_results)
  end.
Proof.
  unfold get_results, stream_results.
  destruct (crawl_results !! task_id) as [entry|]; split; eauto.
Qed.

(* --------------------------------------------------------------------- *)
(* Link extraction                                                         *)
(* --------------------------------------------------------------------- *)

Lemma extract_links_loop_spec (base domain : string) (hrefs acc links : list string) :
  extract_links_loop urlparse urljoin base domain hrefs acc = Ret links →
  ∀ l, l ∈ links ↔
       l ∈ acc ∨ ∃ href, href ∈ hrefs ∧ urljoin base href = Ret l
                         ∧ is_valid_url urlparse l domain = true.
Proof.
  revert acc. induction hrefs as [|href rest IH]; intros acc Hrun l.
  - simpl in Hrun. injection Hrun as <-. split; [by left|].
    intros [H|(h & Hh & _)]; [done|]. by apply elem_of_nil in Hh.
  - simpl in Hrun. destruct (urljoin base href) as [a|e] eqn:Hj; [|done].
    cbn [bind] in Hrun.
    destruct (is_valid_url urlparse a domain) eqn:Hv.
    + rewrite (IH _ Hrun l), elem_of_app, list_elem_of_singleton. split.
      * intros [[H| ->]|(h & Hh & Hjh & Hvh)].
        -- by left.
        -- right. exists href. split; [left|done].
        -- right. exists h. split; [by right|done].
      * intros [H|(h & [->|Hh]%elem_of_cons & Hjh & Hvh)].
        -- left. by left.
        -- left. right. congruence.
        -- right. by exists h.
    + rewrite (IH _ Hrun l). split.
      * intros [H|(h & Hh & Hjh & Hvh)]; [by left|].
        right. exists h. split; [by right|done].
      * intros [H|(h & [->|Hh]%elem_of_cons & Hjh & Hvh)].
        -- by left.
        -- congruence.
        -- right. by exists h.
Qed.

Lemma extract_links_spec (html base : string) (links : list string) :
  extract_links urlparse urljoin find_all_href html base = Ret links →
  html = "" ∧ links = []
  ∨ ∃ parsed, urlparse base = Ret parsed
      ∧ ∀ l, l ∈ links ↔
             ∃ href, href ∈ find_all_href html ∧ urljoin base href = Ret l
                     ∧ is_valid_url urlparse l (netloc parsed) = true.
Proof.
  unfold extract_links. destruct html as [|ch html]; simpl.
  - intros [= <-]. by left.
  - destruct (urlparse base) as [parsed|e]; [|done]. cbn [bind].
    intros Hrun. right. exists parsed. split; [done|]. intros l.
    rewrite (extract_links_loop_spec _ _ _ _ _ Hrun l). split.
    + intros [H|H]; [|done]. by apply elem_of_nil in H.
    + by right.
Qed.

(* --------------------------------------------------------------------- *)
(* The frontier operations                                                 *)
(* --------------------------------------------------------------------- *)

Lemma enqueue_link_new (s : crawl_state) (link : string) :
  link ∉ discovered_urls s → link ∉ crawled_urls s →
  enqueue_link s link
  = CrawlState (queue s ++ [link]) ({[link]} ∪ discovered_urls s) (crawled_urls s)
               (TaskEntry (urls (results s) ++ [URLRecord link None true])
                          (complete (results s))).
Proof.
  intros Hd Hc. unfold enqueue_link.
  by rewrite !bool_decide_eq_true_2.
Qed.

Lemma enqueue_link_old (s : crawl_state) (link : string) :
  link ∈ discovered_urls s ∨ link ∈ crawled_urls s → enqueue_link s link = s.
Proof.
  intros H. unfold enqueue_link.
  destruct H as [H|H].
  - rewrite (bool_decide_eq_false_2 (link ∉ discovered_urls s)); [done|]. by intros [].
  - rewrite (bool_decide_eq_false_2 (link ∉ crawled_urls s)); [|by intros []].
    by rewrite andb_false_r.
Qed.

Lemma enqueue_link_cases (s : crawl_state) (link : string) :
  enqueue_link s link = s
  ∨ ((link ∉ discovered_urls s) ∧ (link ∉ crawled_urls s)
     ∧ enqueue_link s link
       = CrawlState (queue s ++ [link]) ({[link]} ∪ discovered_urls s) (crawled_urls s)
                    (TaskEntry (urls (results s) ++ [URLRecord link None true])
                               (complete (results s)))).
Proof.
  destruct (decide (link ∈ discovered_urls s)) as [Hd|Hd].
  { left. apply enqueue_link_old. by left. }
  destruct (decide (link ∈ crawled_urls s)) as [Hc|Hc].
  { left. apply enqueue_link_old. by right. }
  right. split; [done|]. split; [done|]. by apply enqueue_link_new.
Qed.

Lemma enqueue_link_frontier (s : crawl_state) (link : string) :
  frontier_ok s → frontier_ok (enqueue_link s link).
Proof.
  intros (Hq & Hc & Hl).
  destruct (enqueue_link_cases s link) as [->|(Hd & Hn & ->)]; [done|].
  split; [|split]; simpl.
  - intros u [H| ->%list_elem_of_singleton]%elem_of_app; [|set_solver].
    apply Hq in H. set_solver.
  - set_solver.
  - intros r [H| ->%list_elem_of_singleton]%elem_of_app; [|set_solver].
    apply Hl in H. set_solver.
Qed.

Lemma enqueue_link_added (domain : string) (s : crawl_state) (link : string) :
  is_valid_url urlparse link domain = true →
  only_in_scope_added urlparse domain s (enqueue_link s link).
Proof.
  intros Hv.
  destruct (enqueue_link_cases s link) as [->|(Hd & Hn & ->)].
  { split; intros u H; by left. }
  split; simpl.
  - intros u [->%elem_of_singleton|H]%elem_of_union; [by right|by left].
  - intros u [H| ->%list_elem_of_singleton]%elem_of_app; [by left|by right].
Qed.

Lemma only_in_scope_added_refl (domain : string) (s : crawl_state) :
  only_in_scope_added urlparse domain s s.
Proof. split; intros u H; by left. Qed.

Lemma only_in_scope_added_trans (domain : string) (s1 s2 s3 : crawl_state) :
  only_in_scope_added urlparse domain s1 s2 →
  only_in_scope_added urlparse domain s2 s3 →
  only_in_scope_added urlparse domain s1 s3.
Proof.
  intros [Hd1 Hq1] [Hd2 Hq2]. split; intros u H.
  - destruct (Hd2 u H) as [H'|H']; [by apply Hd1|by right].
  - destruct (Hq2 u H) as [H'|H']; [by apply Hq1|by right].
Qed.

Lemma enqueue_links_frontier (links : list string) (s : crawl_state) :
  frontier_ok s → frontier_ok (fold_left enqueue_link links s).
Proof.
  revert s. induction links as [|l links IH]; intros s H; [done|].
  simpl. by apply IH, enqueue_link_frontier.
Qed.

Lemma enqueue_links_added (domain : string) (links : list string) (s : crawl_state) :
  (∀ l, l ∈ links → is_valid_url urlparse l domain = true) →
  only_in_scope_added urlparse domain s (fold_left enqueue_link links s).
Proof.
  revert s. induction links as [|l links IH]; intros s H.
  - apply only_in_scope_added_refl.
  - simpl. eapply only_in_scope_added_trans.
    + apply enqueue_link_added, H. left.
    + apply IH. intros l' Hl'. apply H. by right.
Qed.

Lemma enqueue_link_discovered (s : crawl_state) (link : string) :
  discovered_urls s ⊆ discovered_urls (enqueue_link s link).
Proof.
  destruct (enqueue_link_cases s link) as [->|(Hd & Hn & ->)]; [done|].
  simpl. set_solver.
Qed.

Lemma enqueue_links_discovered (links : list string) (s : crawl_state) :
  discovered_urls s ⊆ discovered_urls (fold_left enqueue_link links s).
Proof.
  revert s. induction links as [|l links IH]; intros s; [done|].
  simpl. etrans; [apply (enqueue_link_discovered s l)|apply IH].
Qed.

Lemma in_scope_added (seed domain : string) (s s' : crawl_state) :
  in_scope urlparse seed domain s →
  only_in_scope_added urlparse domain s s' →
  in_scope urlparse seed domain s'.
Proof.
  intros Hs [Hd _] u Hu. destruct (Hd u Hu) as [H|H]; [by apply Hs|by right].
Qed.

Lemma append_result_frontier (r : url_record) (s : crawl_state) :
  url r ∈ discovered_urls s → frontier_ok s → frontier_ok (append_result r s).
Proof.
  intros Hr (Hq & Hc & Hl). split; [done|]. split; [done|]. simpl.
  intros r' [H| ->%list_elem_of_singleton]%elem_of_app; [by apply Hl|done].
Qed.

(** A discovered URL parses, and its authority is the seed's. *)
Lemma discovered_netloc (seed : string) (p0 : parse_result) (s : crawl_state) (u : string) :
  urlparse seed = Ret p0 →
  in_scope urlparse seed (netloc p0) s →
  u ∈ discovered_urls s →
  ∃ parsed, urlparse u = Ret parsed ∧ netloc parsed = netloc p0.
Proof.
  intros Hp Hs Hu. destruct (Hs u Hu) as [->|Hv]; [by exists p0|].
  apply is_valid_url_true in Hv as (parsed & H1 & _ & _ & H2). by exists parsed.
Qed.

Lemma crawl_url_resume_ok (seed : string) (p0 : parse_result)
    (s : crawl_state) (u base_domain : string) :
  urlparse seed = Ret p0 →
  frontier_ok s → in_scope urlparse seed (netloc p0) s →
  u ∈ discovered_urls s →
  let s' := (crawl_url_resume urlparse urljoin find_all_href session_get
                              s u base_domain).1 in
  frontier_ok s' ∧ only_in_scope_added urlparse (netloc p0) s s'
  ∧ discovered_urls s ⊆ discovered_urls s'.
Proof.
  intros Hp Hf Hs Hu. unfold crawl_url_resume.
  destruct (fetch_url session_get u) as [[content status]|e]; simpl.
  2:{ split; [done|]. split; [apply only_in_scope_added_refl|done]. }
  set (s1 := append_result (URLRecord u (Some status) true) s).
  assert (frontier_ok s1) as Hf1 by (by apply append_result_frontier).
  assert (only_in_scope_added urlparse (netloc p0) s s1) as Ha1
    by (split; intros x Hx; by left).
  destruct content as [html|]; [|done].
  destruct (truthy html) eqn:Ht; [|done].
  destruct (extract_links urlparse urljoin find_all_href html u) as [links|e] eqn:He;
    simpl; [|done].
  split; [by apply enqueue_links_frontier|].
  split; [|apply (enqueue_links_discovered links s1)].
  eapply only_in_scope_added_trans; [exact Ha1|].
  apply enqueue_links_added.
  apply extract_links_spec in He as [[-> _]|(parsed & Hpu & Hlinks)]; [done|].
  destruct (discovered_netloc seed p0 s u Hp Hs Hu) as (parsed' & Hpu' & Hn).
  assert (parsed' = parsed) as -> by congruence.
  intros l Hl. apply Hlinks in Hl as (href & _ & _ & Hv). by rewrite <- Hn.
Qed.

(* --------------------------------------------------------------------- *)
(* The scheduler                                                           *)
(* --------------------------------------------------------------------- *)

Lemma take_batch_spec (n : nat) (s : crawl_state) (tasks : list string) :
  discovered_urls (take_batch n s tasks).1 = discovered_urls s
  ∧ crawled_urls (take_batch n s tasks).1 = crawled_urls s
  ∧ results (take_batch n s tasks).1 = results s
  ∧ (∀ u, u ∈ queue (take_batch n s tasks).1 → u ∈ queue s)
  ∧ (∀ u, u ∈ (take_batch n s tasks).2 → u ∈ tasks ∨ u ∈ queue s)
  ∧ (length (take_batch n s tasks).2 ≤ length tasks + n)%nat.
Proof.
  revert s tasks. induction n as [|n IH]; intros s tasks; simpl.
  { repeat split; auto with lia. }
  destruct (queue s) as [|current_url q] eqn:Hq; simpl.
  { rewrite Hq. repeat split; auto with lia. }
  destruct (bool_decide (current_url ∉ crawled_urls s)).
  - destruct (IH (set_queue q s) (tasks ++ [current_url]))
      as (Hd & Hc & Hr & Hqs & Ht & Hlen).
    simpl in *. rewrite length_app in Hlen. simpl in Hlen.
    repeat split; try done.
    + intros u Hu. right. by apply Hqs.
    + intros u Hu.
      destruct (Ht u Hu) as [[H| ->%list_elem_of_singleton]%elem_of_app|H].
      * by left.
      * right. left.
      * right. by right.
    + lia.
  - destruct (IH (set_queue q s) tasks) as (Hd & Hc & Hr & Hqs & Ht & Hlen).
    simpl in *. repeat split; try done.
    + intros u Hu. right. by apply Hqs.
    + intros u Hu. destruct (Ht u Hu) as [H|H]; [by left|]. right. by right.
    + lia.
Qed.

Lemma crawl_url_enter_spec (s : crawl_state) (u : string) :
  queue (crawl_url_enter s u).1 = queue s
  ∧ discovered_urls (crawl_url_enter s u).1 = discovered_urls s
  ∧ results (crawl_url_enter s u).1 = results s
  ∧ (∀ x, x ∈ crawled_urls (crawl_url_enter s u).1 → x ∈ crawled_urls s ∨ x = u)
  ∧ (size (crawled_urls (crawl_url_enter s u).1) ≤ S (size (crawled_urls s)))%nat.
Proof.
  unfold crawl_url_enter.
  destruct (bool_decide (u ∈ crawled_urls s)) eqn:Hu; simpl.
  { repeat split; auto with lia. }
  apply bool_decide_eq_false in Hu.
  repeat split; try done.
  - intros x [->%elem_of_singleton|H]%elem_of_union; [by right|by left].
  - rewrite size_union by set_solver. rewrite size_singleton. lia.
Qed.

Lemma in_flight_gathered (c : config) (u : string) :
  u ∈ in_flight c → u ∈ gathered c.
Proof.
  unfold in_flight, gathered. destruct (pc c); try done.
  intros H. apply elem_of_app. by right.
Qed.

(** What the event loop picks is there to be picked. *)
Lemma next_event_spec (todo inflight : list string) :
  match next_event schedule todo inflight with
  | GatherDone => todo = [] ∧ inflight = []
  | Start u rest => todo = u :: rest
  | Resolve i u => u ∈ inflight
  end.
Proof.
  unfold next_event.
  destruct todo as [|t todo], inflight as [|u0 inflight]; try done.
  - apply nth_elem_of, Nat.mod_upper_bound. simpl. lia.
  - destruct (schedule (t :: todo) (u0 :: inflight)) as [k|]; [|done].
    apply nth_elem_of, Nat.mod_upper_bound. simpl. lia.
Qed.

(** One step keeps the frontier consistent and puts nothing out of scope
    into the queue or the discovered set. *)
Lemma step_ok (seed : string) (p0 : parse_result) (base_domain : string)
    (limit : Z) (c : config) :
  urlparse seed = Ret p0 →
  config_ok urlparse seed (netloc p0) c →
  config_ok urlparse seed (netloc p0)
            (step urlparse urljoin find_all_href session_get schedule
                  base_domain limit c)
  ∧ only_in_scope_added urlparse (netloc p0) (st c)
      (st (step urlparse urljoin find_all_href session_get schedule
                base_domain limit c)).
Proof.
  intros Hp (Hf & Hs & Hi). unfold step.
  destruct c as [s ctl]. cbn [st pc] in *.
  destruct ctl as [|todo inflight raised| |e]; cbn [st pc] in *.
  - (* the loop head *)
    generalize (Nat.min 5 (length (queue s))). intros n.
    destruct (negb (bool_decide (queue s = []))
              && (Z.of_nat (size (crawled_urls s)) <? limit)%Z).
    2:{ split; [|split; intros u H; by left].
        split; [|split]; [exact Hf|exact Hs|]. simpl. by intros u ?%elem_of_nil. }
    pose proof (take_batch_spec n s []) as (Hd1 & Hc1 & Hr1 & Hq1 & Ht1 & _).
    destruct (take_batch n s []) as [s1 tasks].
    simpl in *.
    assert (frontier_ok s1) as Hf1.
    { destruct Hf as (Hq & Hc & Hl). split; [|split].
      - intros u Hu. rewrite Hd1. by apply Hq, Hq1.
      - by rewrite Hd1, Hc1.
      - intros r Hr. rewrite Hd1. apply Hl. by rewrite <- Hr1. }
    assert (only_in_scope_added urlparse (netloc p0) s s1) as Ha1.
    { split; intros u Hu; left; [by rewrite <- Hd1|by apply Hq1]. }
    assert (in_scope urlparse seed (netloc p0) s1) as Hs1.
    { intros u Hu. apply Hs. by rewrite <- Hd1. }
    destruct tasks as [|t tasks].
    { split; [|done]. split; [|split]; [done|done|]. simpl. by intros u ?%elem_of_nil. }
    split; [|done]. split; [|split]; [done|done|].
    cbn [gathered pc st]. rewrite app_nil_r. intros u Hu. rewrite Hd1.
    destruct (Ht1 u Hu) as [H|H]; [by apply elem_of_nil in H|].
    destruct Hf as (Hq & _). by apply Hq.
  - (* a turn of the event loop during the gather *)
    cbn [gathered pc] in Hi.
    pose proof (next_event_spec todo inflight) as Hev.
    destruct (next_event schedule todo inflight) as [|u rest|i u].
    + (* every coroutine of the round has finished *)
      destruct raised; (split; [|apply only_in_scope_added_refl]);
        (split; [|split]; [done|done|]); simpl; by intros u ?%elem_of_nil.
    + (* the next coroutine starts *)
      subst todo.
      pose proof (crawl_url_enter_spec s u) as (Hq2 & Hd2 & Hr2 & Hc2 & _).
      destruct (crawl_url_enter s u) as [s' fetching]. cbn [fst snd st pc] in *.
      assert (u ∈ discovered_urls s) as Hu by (apply Hi; left).
      split; [split; [|split]|]; cbn [st pc].
      * destruct Hf as (Hq & Hc & Hl). split; [|split].
        -- intros x Hx. rewrite Hd2. apply Hq. by rewrite <- Hq2.
        -- intros x Hx. rewrite Hd2.
           destruct (Hc2 x Hx) as [H| ->]; [by apply Hc|done].
        -- intros r Hr. rewrite Hd2. apply Hl. by rewrite <- Hr2.
      * intros x Hx. apply Hs. by rewrite <- Hd2.
      * cbn [gathered pc]. intros x Hx. rewrite Hd2. apply Hi.
        apply elem_of_app in Hx as [Hx|Hx]; [set_solver|].
        destruct fetching; [|set_solver].
        apply elem_of_app in Hx as [Hx| ->%list_elem_of_singleton]; set_solver.
      * split; intros x Hx; left; [by rewrite <- Hd2|by rewrite <- Hq2].
    + (* a fetch resolves *)
      assert (u ∈ discovered_urls s) as Hu by (apply Hi; set_solver).
      pose proof (crawl_url_resume_ok seed p0 s u base_domain Hp Hf Hs Hu)
        as (Hf' & Ha' & Hm').
      destruct (crawl_url_resume urlparse urljoin find_all_href session_get
                                 s u base_domain) as [s' e].
      cbn [fst snd st pc] in *. split; [|done].
      split; [|split]; cbn [st pc]; [done| |].
      * by eapply in_scope_added.
      * cbn [gathered pc]. intros x Hx. apply Hm', Hi.
        apply elem_of_app in Hx as [Hx|Hx]; [set_solver|].
        apply list_elem_of_delete_inv in Hx. set_solver.
  - split; [|apply only_in_scope_added_refl]. split; [|split]; [done|done|].
    simpl. by intros u ?%elem_of_nil.
  - split; [|apply only_in_scope_added_refl]. split; [|split]; [done|done|].
    simpl. by intros u ?%elem_of_nil.
Qed.

Lemma run_S (base_domain : string) (limit : Z) (n : nat) (c : config) :
  run urlparse urljoin find_all_href session_get schedule base_domain limit (S n) c
  = step urlparse urljoin find_all_href session_get schedule base_domain limit
         (run urlparse urljoin find_all_href session_get schedule
              base_domain limit n c).
Proof.
  revert c. induction n as [|n IH]; intros c; [done|].
  change (run urlparse urljoin find_all_href session_get schedule
              base_domain limit (S (S n)) c)
    with (run urlparse urljoin find_all_href session_get schedule
              base_domain limit (S n)
              (step urlparse urljoin find_all_href session_get schedule
                    base_domain limit c)).
  by rewrite IH.
Qed.

Lemma init_ok (seed : string) (domain : string) :
  config_ok urlparse seed domain (Config (crawl_site_init seed) LoopHead).
Proof.
  split; [|split]; simpl.
  - split; [|split]; simpl.
    + intros u ->%list_elem_of_singleton. set_solver.
    + set_solver.
    + by intros r ?%elem_of_nil.
  - intros u Hu. simpl in Hu. apply elem_of_singleton in Hu as ->. by left.
  - by intros u ?%elem_of_nil.
Qed.

Lemma run_ok (seed : string) (p0 : parse_result) (base_domain : string)
    (limit : Z) (n : nat) :
  urlparse seed = Ret p0 →
  config_ok urlparse seed (netloc p0)
    (run urlparse urljoin find_all_href session_get schedule base_domain limit n
         (Config (crawl_site_init seed) LoopHead)).
Proof.
  intros Hp. induction n as [|n IH]; [apply init_ok|].
  rewrite run_S. by apply step_ok.
Qed.

(** What crawl_site returns, spelled out. *)
Lemma crawl_site_run (seed : string) (respect_robots : bool) (limit : Z)
    (fuel : nat) (c : config) :
  crawl_site urlparse urljoin find_all_href session_get schedule
             seed respect_robots limit fuel = Ret c →
  ∃ p0, urlparse seed = Ret p0
        ∧ c = run urlparse urljoin find_all_href session_get schedule
                  (netloc p0) limit fuel (Config (crawl_site_init seed) LoopHead).
Proof.
  unfold crawl_site. destruct (urlparse seed) as [p0|e]; [|done].
  cbn [bind]. intros [= <-]. by exists p0.
Qed.

Lemma crawl_site_ok (seed : string) (respect_robots : bool) (limit : Z)
    (fuel : nat) (c : config) (p0 : parse_result) :
  urlparse seed = Ret p0 →
  crawl_site urlparse urljoin find_all_href session_get schedule
             seed respect_robots limit fuel = Ret c →
  config_ok urlparse seed (netloc p0) c.
Proof.
  intros Hp Hrun. apply crawl_site_run in Hrun as (p & Hp' & ->).
  assert (p = p0) as -> by congruence. by apply run_ok.
Qed.

(** Between two consecutive observations of a crawl, no URL that the
    classifier rejects for the seed's authority enters the queue or the
    discovered set; so none is ever there, the seed apart. *)
Lemma crawl_adds_only_in_scope (seed : string) (respect_robots : bool)
    (limit : Z) (fuel : nat) (c c' : config) (p0 : parse_result) :
  urlparse seed = Ret p0 →
  crawl_site urlparse urljoin find_all_href session_get schedule
             seed respect_robots limit fuel = Ret c →
  crawl_site urlparse urljoin find_all_href session_get schedule
             seed respect_robots limit (S fuel) = Ret c' →
  only_in_scope_added urlparse (netloc p0) (st c) (st c')
  ∧ ∀ u, u ∈ discovered_urls (st c) ∨ u ∈ queue (st c) →
         u = seed ∨ is_valid_url urlparse u (netloc p0) = true.
Proof.
  intros Hp Hc Hc'.
  pose proof (crawl_site_ok _ _ _ _ _ _ Hp Hc) as Hok.
  apply crawl_site_run in Hc as (p & Hp1 & ->).
  apply crawl_site_run in Hc' as (p' & Hp2 & ->).
  assert (p = p0) as -> by congruence. assert (p' = p0) as -> by congruence.
  rewrite run_S. split; [by apply (step_ok seed p0 (netloc p0) limit _ Hp Hok)|].
  destruct Hok as ((Hq & _) & Hs & _).
  intros u [Hu|Hu]; [by apply Hs|]. by apply Hs, Hq.
Qed.

(* --------------------------------------------------------------------- *)
(* Insertion into the frontier                                             *)
(* --------------------------------------------------------------------- *)

Lemma filter_none {A : Type} (P : A → Prop) `{!∀ x, Decision (P x)} (l : list A) :
  (∀ x, x ∈ l → ¬ P x) → filter P l = [].
Proof.
  induction l as [|a l IH]; intros Hall; [done|].
  rewrite filter_cons_False by (apply Hall; left).
  apply IH. intros x Hx. apply Hall. by right.
Qed.

Lemma enqueue_link_twice (s : crawl_state) (link : string) :
  enqueue_link (enqueue_link s link) link = enqueue_link s link.
Proof.
  destruct (enqueue_link_cases s link) as [E|(Hd & Hn & E)].
  - by rewrite !E.
  - rewrite E. apply enqueue_link_old. left. simpl. set_solver.
Qed.

(** C3, as the code has it.  In every state in which a crawl inserts a
    link (and at every observation point of the crawl), the insertion does
    nothing when the link is already in the discovered set; otherwise it
    appends the link to the queue, adds it to the discovered set and
    appends the pending record {url: link, status: None} to the log, and a
    second insertion of the same link changes nothing, so that the queue
    holds the link once and the log holds one pending record for it.  The
    seed is put in the queue and in the discovered set when the task
    starts, with no record in the log. *)
Theorem enqueue_link_idempotent (seed : string) (respect_robots : bool)
    (limit : Z) (fuel : nat) (c : config) (s : crawl_state) (link : string) :
  crawl_site urlparse urljoin find_all_href session_get schedule
             seed respect_robots limit fuel = Ret c →
  s = st c ∨ insertion_point c s →
  let s1 := enqueue_link s link in
  (link ∈ discovered_urls s → s1 = s)
  ∧ (link ∉ discovered_urls s →
     queue s1 = queue s ++ [link]
     ∧ discovered_urls s1 = {[link]} ∪ discovered_urls s
     ∧ crawled_urls s1 = crawled_urls s
     ∧ results s1 = TaskEntry (urls (results s) ++ [URLRecord link None true])
                              (complete (results s))
     ∧ length (filter (λ u, u = link) (queue (enqueue_link s1 link))) = 1%nat
     ∧ length (filter (λ r, url r = link ∧ status r = None)
                      (urls (results (enqueue_link s1 link)))) = 1%nat)
  ∧ enqueue_link s1 link = s1
  ∧ (fuel = 0%nat →
     queue (st c) = [seed] ∧ discovered_urls (st c) = {[seed]}
     ∧ urls (results (st c)) = []).
Proof.
  intros Hrun Hs.
  apply crawl_site_run in Hrun as (p0 & Hp & Hc).
  pose proof (run_ok seed p0 (netloc p0) limit fuel Hp) as Hok.
  rewrite <- Hc in Hok. destruct Hok as (Hf & _ & Hi).
  assert (frontier_ok s) as (Hq & Hcr & Hl).
  { destruct Hs as [->|(u & status & earlier & Hu & ->)]; [done|].
    apply enqueue_links_frontier, append_result_frontier; [|done].
    by apply Hi, in_flight_gathered. }
  intros s1.
  assert (enqueue_link s1 link = s1) as Hidem by apply enqueue_link_twice.
  split; [|split; [|split]].
  - intros Hd. apply enqueue_link_old. by left.
  - intros Hd. rewrite Hidem. subst s1.
    rewrite enqueue_link_new by set_solver. simpl.
    repeat split; try done.
    + rewrite filter_app, filter_none.
      * by rewrite filter_cons_True.
      * intros u Hu ->. by apply Hd, Hq.
    + rewrite filter_app, filter_none.
      * by rewrite filter_cons_True.
      * intros r Hr [<- _]. by apply Hd, Hl.
  - done.
  - intros ->. by subst c.
Qed.

(* --------------------------------------------------------------------- *)
(* Which authority link extraction filters by                              *)
(* --------------------------------------------------------------------- *)

(** C4, as the code has it.  extract_links keeps exactly the resolved
    hrefs that the classifier accepts for the authority of the base_url it
    is given, which crawl_url sets to the page being parsed; the seed's
    authority is not an input of it.  In a crawl every page whose content
    reaches extract_links has the seed's authority, so there the links
    kept are those in the seed's domain. *)
Theorem extract_links_uses_page_authority (html page : string) (links : list string) :
  extract_links urlparse urljoin find_all_href html page = Ret links →
  html ≠ "" →
  ∃ parsed,
    urlparse page = Ret parsed
    ∧ (∀ l, l ∈ links ↔
            ∃ href, href ∈ find_all_href html ∧ urljoin page href = Ret l
                    ∧ is_valid_url urlparse l (netloc parsed) = true)
    ∧ ∀ seed respect_robots limit fuel c p0,
        urlparse seed = Ret p0 →
        crawl_site urlparse urljoin find_all_href session_get schedule
                   seed respect_robots limit fuel = Ret c →
        page ∈ in_flight c →
        netloc parsed = netloc p0.
Proof.
  intros He Hne.
  apply extract_links_spec in He as [[-> _]|(parsed & Hp & Hlinks)]; [done|].
  exists parsed. split; [done|]. split; [done|].
  intros seed rr limit fuel c p0 Hp0 Hrun Hin.
  destruct (crawl_site_ok seed rr limit fuel c p0 Hp0 Hrun) as (_ & Hs & Hi).
  destruct (discovered_netloc seed p0 (st c) page Hp0 Hs
              (Hi page (in_flight_gathered c page Hin)))
    as (parsed' & Hp' & Hn).
  congruence.
Qed.

(* --------------------------------------------------------------------- *)
(* A seed that cannot be fetched                                           *)
(* --------------------------------------------------------------------- *)

Lemma validate_url_parses (v : string) :
  validate_url urlparse v = Ret v → ∃ p0, urlparse v = Ret p0.
Proof.
  unfold validate_url. destruct (urlparse v) as [p0|e]; [by exists p0|done].
Qed.

Lemma run_finished (base_domain : string) (limit : Z) (n : nat) (s : crawl_state) :
  run urlparse urljoin find_all_href session_get schedule base_domain limit n
      (Config s Finished)
  = Config s Finished.
Proof. induction n as [|n IH]; [done|]. simpl. exact IH. Qed.

Lemma run_add (base_domain : string) (limit : Z) (n m : nat) (c : config) :
  run urlparse urljoin find_all_href session_get schedule base_domain limit (n + m) c
  = run urlparse urljoin find_all_href session_get schedule base_domain limit m
        (run urlparse urljoin find_all_href session_get schedule
             base_domain limit n c).
Proof. revert c. induction n as [|n IH]; intros c; [done|]. simpl. apply IH. Qed.

(** The five steps of a crawl whose seed cannot be fetched. *)
Lemma failed_seed_steps (seed base_domain : string) (limit : Z) :
  (0 < limit)%Z →
  fetch_url session_get seed = Ret (None, 0%Z) →
  let c0 := Config (crawl_site_init seed) LoopHead in
  let go := run urlparse urljoin find_all_href session_get schedule
                base_domain limit in
  go 1%nat c0
    = Config (CrawlState [] {[seed]} ∅ (TaskEntry [] false))
             (Gathering [seed] [] None)
  ∧ go 2%nat c0
    = Config (CrawlState [] {[seed]} {[seed]} (TaskEntry [] false))
             (Gathering [] [seed] None)
  ∧ go 3%nat c0
    = Config (CrawlState [] {[seed]} {[seed]}
                         (TaskEntry [URLRecord seed (Some 0%Z) true] false))
             (Gathering [] [] None)
  ∧ go 4%nat c0
    = Config (CrawlState [] {[seed]} {[seed]}
                         (TaskEntry [URLRecord seed (Some 0%Z) true] false))
             LoopHead
  ∧ go 5%nat c0
    = Config (CrawlState [] {[seed]} {[seed]}
                         (TaskEntry [URLRecord seed (Some 0%Z) true] true))
             Finished.
Proof.
  intros Hlimit Hfetch c0 go.
  assert (go 1%nat c0
          = Config (CrawlState [] {[seed]} ∅ (TaskEntry [] false))
                   (Gathering [seed] [] None)) as H1.
  { subst go c0. unfold run, step, crawl_site_init. cbn [st pc queue crawled_urls].
    rewrite bool_decide_eq_false_2 by done. rewrite size_empty.
    replace (Z.of_nat 0 <? limit)%Z with true by (symmetry; by apply Z.ltb_lt).
    cbn [negb andb length Nat.min take_batch queue set_queue crawled_urls
         discovered_urls results].
    by rewrite bool_decide_eq_true_2 by set_solver. }
  assert (go 2%nat c0
          = Config (CrawlState [] {[seed]} {[seed]} (TaskEntry [] false))
                   (Gathering [] [seed] None)) as H2.
  { unfold go. rewrite (run_S _ _ 1). fold go. rewrite H1.
    unfold step, next_event, crawl_url_enter. cbn [st pc crawled_urls].
    rewrite bool_decide_eq_false_2 by set_solver.
    unfold add_crawled. cbn [app queue discovered_urls crawled_urls results].
    by rewrite union_empty_r_L. }
  assert (go 3%nat c0
          = Config (CrawlState [] {[seed]} {[seed]}
                               (TaskEntry [URLRecord seed (Some 0%Z) true] false))
                   (Gathering [] [] None)) as H3.
  { unfold go. rewrite (run_S _ _ 2). fold go. rewrite H2.
    unfold step, next_event. cbn [st pc length]. rewrite Nat.mod_1_r. cbn [nth].
    unfold crawl_url_resume. rewrite Hfetch. done. }
  assert (go 4%nat c0
          = Config (CrawlState [] {[seed]} {[seed]}
                               (TaskEntry [URLRecord seed (Some 0%Z) true] false))
                   LoopHead) as H4.
  { unfold go. rewrite (run_S _ _ 3). fold go. by rewrite H3. }
  assert (go 5%nat c0
          = Config (CrawlState [] {[seed]} {[seed]}
                               (TaskEntry [URLRecord seed (Some 0%Z) true] true))
                   Finished) as H5.
  { unfold go. rewrite (run_S _ _ 4). fold go. rewrite H4.
    unfold step. cbn [st pc queue]. by rewrite bool_decide_eq_true_2. }
  done.
Qed.

(** C5. When the fetch of the seed fails (fetch_url gives (None, 0)) on a
    task with a positive max_urls, the crawl is over after five steps and
    stays so: the log is the single record {url: seed, status: 0}, the
    queue is empty, complete is true; and at no point of the run does the
    discovered set hold anything but the seed. *)
Theorem seed_fetch_failure (seed : string) (respect_robots : bool) (limit : Z) :
  validate_url urlparse seed = Ret seed →
  (0 < limit)%Z →
  fetch_url session_get seed = Ret (None, 0%Z) →
  (∀ fuel, (5 ≤ fuel)%nat →
     crawl_site urlparse urljoin find_all_href session_get schedule
                seed respect_robots limit fuel
     = Ret (Config (CrawlState [] {[seed]} {[seed]}
                               (TaskEntry [URLRecord seed (Some 0%Z) true] true))
                   Finished))
  ∧ ∀ fuel c,
      crawl_site urlparse urljoin find_all_href session_get schedule
                 seed respect_robots limit fuel = Ret c →
      discovered_urls (st c) = {[seed]}.
Proof.
  intros Hv Hlimit Hfetch.
  apply validate_url_parses in Hv as [p0 Hp].
  destruct (failed_seed_steps seed (netloc p0) limit Hlimit Hfetch)
    as (H1 & H2 & H3 & H4 & H5).
  assert (∀ fuel, (5 ≤ fuel)%nat →
            run urlparse urljoin find_all_href session_get schedule
                (netloc p0) limit fuel (Config (crawl_site_init seed) LoopHead)
            = Config (CrawlState [] {[seed]} {[seed]}
                                 (TaskEntry [URLRecord seed (Some 0%Z) true] true))
                     Finished) as Hlate.
  { intros fuel Hfuel. replace fuel with (5 + (fuel - 5))%nat by lia.
    rewrite run_add, H5. apply run_finished. }
  split.
  - intros fuel Hfuel. unfold crawl_site. rewrite Hp. cbn [bind].
    by rewrite Hlate.
  - intros fuel c Hrun. apply crawl_site_run in Hrun as (p & Hp' & ->).
    assert (p = p0) as -> by congruence.
    destruct (decide (5 ≤ fuel)%nat) as [Hge|Hlt]; [by rewrite Hlate|].
    assert (fuel = 0 ∨ fuel = 1 ∨ fuel = 2 ∨ fuel = 3 ∨ fuel = 4)%nat
      as [-> | [-> | [-> | [-> | ->]]]] by lia.
    + done.
    + by rewrite H1.
    + by rewrite H2.
    + by rewrite H3.
    + by rewrite H4.
Qed.

(* --------------------------------------------------------------------- *)
(* How far the crawled set can pass max_urls                               *)
(* --------------------------------------------------------------------- *)

Lemma enqueue_links_crawled (links : list string) (s : crawl_state) :
  crawled_urls (fold_left enqueue_link links s) = crawled_urls s.
Proof.
  revert s. induction links as [|l links IH]; intros s; [done|].
  simpl. rewrite IH.
  by destruct (enqueue_link_cases s l) as [->|(_ & _ & ->)].
Qed.

Lemma crawl_url_resume_crawled (s : crawl_state) (u base_domain : string) :
  crawled_urls (crawl_url_resume urlparse urljoin find_all_href session_get
                                 s u base_domain).1
  = crawled_urls s.
Proof.
  unfold crawl_url_resume.
  destruct (fetch_url session_get u) as [[content status]|e]; [|done].
  destruct content as [html|]; [|done].
  destruct (truthy html); [|done].
  destruct (extract_links urlparse urljoin find_all_href html u); [|done].
  simpl. by rewrite enqueue_links_crawled.
Qed.

(** X18. The test of the while loop is made once per round and a round
    starts up to five fetches, so at every observation point of every
    crawl the crawled set has at most max_urls + 4 elements (none when
    max_urls + 4 is negative). *)
Lemma crawled_overshoot_bound (seed : string) (respect_robots : bool)
    (limit : Z) (fuel : nat) (c : config) :
  crawl_site urlparse urljoin find_all_href session_get schedule
             seed respect_robots limit fuel = Ret c →
  (Z.of_nat (size (crawled_urls (st c))) ≤ Z.max 0 (limit + 4))%Z.
Proof.
  intros Hrun. apply crawl_site_run in Hrun as (p0 & _ & ->).
  (* the coroutines of the round that have not started are counted in *)
  cut (Z.of_nat (size (crawled_urls (st
         (run urlparse urljoin find_all_href session_get schedule
              (netloc p0) limit fuel (Config (crawl_site_init seed) LoopHead))))
        + match pc (run urlparse urljoin find_all_href session_get schedule
                        (netloc p0) limit fuel
                        (Config (crawl_site_init seed) LoopHead)) with
          | Gathering todo _ _ => length todo
          | _ => 0%nat
          end)
       ≤ Z.max 0 (limit + 4))%Z; [lia|].
  induction fuel as [|fuel IH].
  { cbn [run st pc crawl_site_init crawled_urls]. rewrite size_empty. lia. }
  rewrite run_S.
  destruct (run urlparse urljoin find_all_href session_get schedule
                (netloc p0) limit fuel _) as [s ctl].
  unfold step. cbn [st pc] in *.
  destruct ctl as [|todo inflight raised| |e]; cbn [st pc]; try done.
  - generalize (Nat.le_min_l 5 (length (queue s))).
    generalize (Nat.min 5 (length (queue s))). intros n Hn.
    destruct (negb (bool_decide (queue s = []))); cbn [andb]; [|done].
    destruct (Z.ltb_spec (Z.of_nat (size (crawled_urls s))) limit) as [Hlt|Hge];
      [|done].
    pose proof (take_batch_spec n s []) as (_ & Hc1 & _ & _ & _ & Hlen).
    destruct (take_batch n s []) as [s1 tasks]. cbn [fst snd] in *.
    destruct tasks as [|t tasks]; cbn [st pc]; rewrite Hc1; simpl in Hlen |- *; lia.
  - pose proof (next_event_spec todo inflight) as Hev.
    destruct (next_event schedule todo inflight) as [|u rest|i u].
    + destruct raised; cbn [st pc]; lia.
    + subst todo.
      pose proof (crawl_url_enter_spec s u) as (_ & _ & _ & _ & Hsz).
      destruct (crawl_url_enter s u) as [s' fetching].
      cbn [fst st pc length] in *. lia.
    + pose proof (crawl_url_resume_crawled s u (netloc p0)) as Hsame.
      destruct (crawl_url_resume _ _ _ _ s u (netloc p0)) as [s' e].
      cbn [fst st pc] in *. by rewrite Hsame.
Qed.

(* --------------------------------------------------------------------- *)
(* Request validation, batches, extraction: closed forms                   *)
(* --------------------------------------------------------------------- *)

Lemma validate_url_spec (v : string) :
  (validate_url urlparse v = Ret v
   ↔ ∃ parsed, urlparse v = Ret parsed
               ∧ scheme parsed ≠ "" ∧ netloc parsed ≠ "")
  ∧ (validate_url urlparse v = Ret v ∨ validate_url urlparse v = Raise ValueError).
Proof.
  unfold validate_url.
  destruct (urlparse v) as [parsed|e]; cbn [bind try_except].
  - destruct (truthy (scheme parsed)) eqn:Hs, (truthy (netloc parsed)) eqn:Hn;
      cbn [negb orb try_except].
    + split; [|by left].
      split; [|done]. intros _. exists parsed.
      split; [done|]. by split; apply truthy_spec.
    + split; [|by right].
      split; [done|]. intros (p & [= <-] & _ & H).
      apply truthy_spec in H. congruence.
    + split; [|by right].
      split; [done|]. intros (p & [= <-] & H & _).
      apply truthy_spec in H. congruence.
    + split; [|by right].
      split; [done|]. intros (p & [= <-] & H & _).
      apply truthy_spec in H. congruence.
  - split; [|by right].
    split; [done|]. by intros (p & H & _).
Qed.

Lemma set_queue_same (s : crawl_state) : set_queue (queue s) s = s.
Proof. by destruct s. Qed.

Lemma take_batch_closed_form (n : nat) (s : crawl_state) (tasks : list string) :
  take_batch n s tasks
  = (set_queue (drop n (queue s)) s,
     tasks ++ filter (λ u, u ∉ crawled_urls s) (take n (queue s))).
Proof.
  revert s tasks. induction n as [|n IH]; intros s tasks.
  { simpl. by rewrite drop_0, set_queue_same, app_nil_r. }
  destruct s as [q d cr r]. cbn [take_batch queue crawled_urls].
  destruct q as [|current_url q].
  { by rewrite app_nil_r. }
  cbn [take drop]. unfold set_queue at 1 2. cbn [crawled_urls].
  destruct (decide (current_url ∉ cr)) as [Hn|Hn].
  - rewrite bool_decide_eq_true_2 by done. rewrite IH.
    rewrite filter_cons_True by done. cbn [queue set_queue crawled_urls].
    by rewrite <- app_assoc.
  - rewrite bool_decide_eq_false_2 by done. rewrite IH.
    rewrite filter_cons_False by done. done.
Qed.

(** X2. A round of crawl_site takes the first min(5, len) entries off the
    queue in FIFO order, dispatches those of them that are not crawled
    yet, in that order, and leaves the rest of the queue as it was; the
    sets and the log are untouched and at most five fetches are
    dispatched. *)
Theorem round_takes_queue_front (s : crawl_state) :
  let n := Nat.min 5 (length (queue s)) in
  let batch := take_batch n s [] in
  batch.2 = filter (λ u, u ∉ crawled_urls s) (take n (queue s))
  ∧ queue batch.1 = drop n (queue s)
  ∧ discovered_urls batch.1 = discovered_urls s
  ∧ crawled_urls batch.1 = crawled_urls s
  ∧ results batch.1 = results s
  ∧ (length batch.2 ≤ 5)%nat
  ∧ (queue s ≠ [] → (length (queue batch.1) < length (queue s))%nat).
Proof.
  intros n batch. subst batch. rewrite take_batch_closed_form.
  cbn [fst snd app queue discovered_urls crawled_urls results set_queue].
  repeat split; try done.
  - etrans; [apply length_filter|]. rewrite length_take. lia.
  - intros Hne. rewrite length_drop. destruct (queue s); [done|]. simpl in *. lia.
Qed.

Lemma extract_links_loop_closed_form (base domain : string)
    (hrefs acc : list string) :
  extract_links_loop urlparse urljoin base domain hrefs acc
  = (let! joined := join_all urljoin base hrefs in
     Ret (acc ++ filter (λ l, is_valid_url urlparse l domain = true) joined)).
Proof.
  revert acc. induction hrefs as [|href rest IH]; intros acc.
  { simpl. by rewrite app_nil_r. }
  cbn [extract_links_loop join_all].
  destruct (urljoin base href) as [l|e]; [|done]. cbn [bind].
  destruct (is_valid_url urlparse l domain) eqn:Hv; rewrite IH;
    destruct (join_all urljoin base rest) as [ls|e]; cbn [bind]; try done.
  - rewrite filter_cons_True by done. by rewrite <- app_assoc.
  - rewrite filter_cons_False; [done|]. by rewrite Hv.
Qed.

(** X3. On non-empty content extract_links returns the resolved hrefs that
    the classifier accepts for the authority of the base URL, in document
    order and with repetitions kept; it raises when urlparse raises on the
    base URL, else with the exception of the first href on which urljoin
    raises.  On empty content it returns no link and parses nothing. *)
Theorem extract_links_closed_form (html base : string) :
  (html ≠ "" →
   extract_links urlparse urljoin find_all_href html base
   = (let! parsed := urlparse base in
      let! joined := join_all urljoin base (find_all_href html) in
      Ret (filter (λ l, is_valid_url urlparse l (netloc parsed) = true) joined)))
  ∧ extract_links urlparse urljoin find_all_href "" base = Ret [].
Proof.
  split; [|done]. intros Hne. unfold extract_links.
  destruct html as [|ch html]; [done|]. cbn [truthy negb].
  destruct (urlparse base) as [parsed|e]; [|done]. cbn [bind].
  apply extract_links_loop_closed_form.
Qed.

(** X4. start_crawl followed by get_results under the same task id gives
    the empty, incomplete snapshot, whatever the registry held under that
    id before (a colliding id wipes the earlier task's results); lookups
    under any other id are as before. *)
Theorem start_crawl_then_get_results (request : CrawlRequest) (task_id other : string)
    (crawl_results : gmap string task_entry) :
  (get_results task_id (start_crawl request task_id crawl_results)).1
  = Ret (Snapshot [] false 0)
  ∧ (other ≠ task_id →
     (get_results other (start_crawl request task_id crawl_results)).1
     = (get_results other crawl_results).1
     ∧ ((stream_results other (start_crawl request task_id crawl_results)).1
          = Raise (HTTPException 404 "Task not found")
        ↔ crawl_results !! other = None)).
Proof.
  unfold get_results, stream_results, start_crawl. split.
  - by rewrite lookup_insert_eq.
  - intros Hne. rewrite lookup_insert_ne by done.
    split; [by destruct (crawl_results !! other)|].
    destruct (crawl_results !! other); split; done.
Qed.

(* --------------------------------------------------------------------- *)
(* What a crawl keeps true of its state                                    *)
(* --------------------------------------------------------------------- *)

Lemma pending_urls_snoc (log : list url_record) (r : url_record) :
  pending_urls (log ++ [r])
  = pending_urls log ++ (if decide (status r = None) then [url r] else []).
Proof.
  unfold pending_urls. rewrite filter_app, fmap_app. f_equal.
  rewrite filter_cons, filter_nil. by destruct (decide (status r = None)).
Qed.

Lemma fetched_urls_snoc (log : list url_record) (r : url_record) :
  fetched_urls (log ++ [r])
  = fetched_urls log ++ (if decide (status r = None) then [] else [url r]).
Proof.
  unfold fetched_urls. rewrite filter_app, fmap_app. f_equal.
  rewrite filter_cons, filter_nil.
  destruct (decide (status r = None)) as [H|H].
  - rewrite decide_False; [done|]. by intros [].
  - by rewrite decide_True.
Qed.

Lemma snoc_Permutation {A : Type} (q rest : list A) (x : A) :
  (q ++ [x]) ++ rest ≡ₚ x :: q ++ rest.
Proof. rewrite <- app_assoc. simpl. symmetry. apply Permutation_middle. Qed.

Lemma state_ok_init (seed : string) :
  state_ok seed [] [] (crawl_site_init seed).
Proof.
  split; simpl; try set_solver; try constructor; try constructor.
  by intros ?%elem_of_nil.
Qed.

(** Inserting a link keeps the state consistent. *)
Lemma enqueue_link_state_ok (seed : string) (todo inflight : list string)
    (s : crawl_state) (link : string) :
  state_ok seed todo inflight s →
  state_ok seed todo inflight (enqueue_link s link).
Proof.
  intros [H1 H2 H3 H4 H5 H6 H7 H8 H9 H10 H11].
  destruct (enqueue_link_cases s link) as [->|(Hd & Hn & ->)]; [done|].
  split; cbn [queue discovered_urls crawled_urls results urls].
  - rewrite snoc_Permutation. apply NoDup_cons. split; [|done].
    intros Hin. by apply Hd, H2.
  - intros u. rewrite snoc_Permutation. intros [->|Hu]%elem_of_cons; [set_solver|].
    apply H2 in Hu. set_solver.
  - set_solver.
  - intros u. rewrite snoc_Permutation. intros [->|Hu]%elem_of_cons; [done|].
    by apply H4.
  - done.
  - set_solver.
  - intros u [->%elem_of_singleton|Hu]%elem_of_union.
    + left. set_solver.
    + destruct (H7 u Hu) as [H|H]; [left|by right]. set_solver.
  - rewrite pending_urls_snoc. cbn [status url]. rewrite decide_True by done.
    apply NoDup_app. split; [done|]. split; [|apply NoDup_singleton].
    intros u Hu ->%list_elem_of_singleton. apply H9 in Hu as [Hu _]. done.
  - intros u. rewrite pending_urls_snoc. cbn [status url].
    rewrite decide_True by done. rewrite elem_of_app, list_elem_of_singleton, H9.
    split.
    + intros [[Hu Hne]| ->]; [set_solver|]. split; [set_solver|].
      intros ->. done.
    + intros [[->%elem_of_singleton|Hu]%elem_of_union Hne]; [by right|by left].
  - rewrite fetched_urls_snoc. cbn [status]. rewrite decide_True by done.
    by rewrite app_nil_r.
  - intros u. rewrite fetched_urls_snoc. cbn [status].
    rewrite decide_True by done. rewrite app_nil_r. apply H11.
Qed.

Lemma enqueue_links_state_ok (seed : string) (todo inflight : list string)
    (links : list string) (s : crawl_state) :
  state_ok seed todo inflight s →
  state_ok seed todo inflight (fold_left enqueue_link links s).
Proof.
  revert s. induction links as [|l links IH]; intros s H; [done|].
  simpl. by apply IH, enqueue_link_state_ok.
Qed.

Lemma fetch_url_returns (u : string) :
  ∃ content status, fetch_url session_get u = Ret (content, status).
Proof.
  unfold fetch_url, fetch_url_body.
  destruct (session_get u) as [r|e]; cbn [bind try_except]; [|eauto].
  destruct ((resp_status r =? 200)%Z && contains _ _); [|eauto].
  destruct (resp_text r); cbn [bind try_except]; eauto.
Qed.

(** The fetch of the [i]-th in-flight URL resolved and its result was
    appended. *)
Lemma append_result_state_ok (seed : string) (todo inflight : list string)
    (s : crawl_state) (i : nat) (u : string) (code : Z) :
  inflight !! i = Some u →
  state_ok seed todo inflight s →
  state_ok seed todo (delete i inflight)
           (append_result (URLRecord u (Some code) true) s).
Proof.
  intros Hi [H1 H2 H3 H4 H5 H6 H7 H8 H9 H10 H11].
  pose proof (delete_Permutation inflight i u Hi) as Hperm.
  assert (NoDup inflight) as Hnd.
  { apply NoDup_app in H1 as (_ & _ & H1). by apply NoDup_app in H1 as (_ & _ & H1). }
  assert (u ∉ delete i inflight) as Hu.
  { rewrite Hperm in Hnd. by apply NoDup_cons in Hnd as [Hnd _]. }
  assert (∀ x, x ∈ inflight ↔ x = u ∨ x ∈ delete i inflight) as Hin.
  { intros x. by rewrite Hperm at 1; rewrite elem_of_cons. }
  split; cbn [append_result queue discovered_urls crawled_urls results urls].
  - rewrite Hperm in H1.
    rewrite !app_assoc in H1. rewrite <- Permutation_middle in H1.
    apply NoDup_cons in H1 as [_ H1]. by rewrite !app_assoc.
  - intros x Hx. apply H2. rewrite !elem_of_app in Hx. rewrite !elem_of_app, Hin.
    tauto.
  - done.
  - done.
  - intros x Hx. apply H5, Hin. by right.
  - done.
  - done.
  - rewrite pending_urls_snoc. cbn [status]. rewrite decide_False by done.
    by rewrite app_nil_r.
  - intros x. rewrite pending_urls_snoc. cbn [status].
    rewrite decide_False by done. rewrite app_nil_r. apply H9.
  - rewrite fetched_urls_snoc. cbn [status url]. rewrite decide_False by done.
    apply NoDup_app. split; [done|]. split; [|apply NoDup_singleton].
    intros x Hx ->%list_elem_of_singleton. apply H11 in Hx as [_ Hx].
    apply Hx, Hin. by left.
  - intros x. rewrite fetched_urls_snoc. cbn [status url].
    rewrite decide_False by done.
    rewrite elem_of_app, list_elem_of_singleton, H11, Hin. split.
    + intros [[Hc Hn]| ->].
      * split; [done|]. intros Hd. apply Hn. by right.
      * split; [|done]. apply H5, Hin. by left.
    + intros [Hc Hn]. destruct (decide (x = u)) as [->|Hne]; [by right|].
      left. split; [done|]. intros [->|Hd]; done.
Qed.

Lemma crawl_url_resume_state_ok (seed : string) (todo inflight : list string)
    (s : crawl_state) (i : nat) (u base_domain : string) :
  inflight !! i = Some u →
  state_ok seed todo inflight s →
  state_ok seed todo (delete i inflight)
           (crawl_url_resume urlparse urljoin find_all_href session_get
                             s u base_domain).1.
Proof.
  intros Hi Hok. unfold crawl_url_resume.
  destruct (fetch_url_returns u) as (content & status & ->).
  pose proof (append_result_state_ok seed todo inflight s i u status Hi Hok) as Hok1.
  destruct content as [html|]; [|done].
  destruct (truthy html); [|done].
  destruct (extract_links urlparse urljoin find_all_href html u); [|done].
  cbn [fst]. by apply enqueue_links_state_ok.
Qed.

(** The next coroutine of the gather starts. *)
Lemma crawl_url_enter_state_ok (seed : string) (rest inflight : list string)
    (s : crawl_state) (u : string) :
  state_ok seed (u :: rest) inflight s →
  crawl_url_enter s u = (add_crawled u s, true)
  ∧ state_ok seed rest (inflight ++ [u]) (add_crawled u s).
Proof.
  intros [H1 H2 H3 H4 H5 H6 H7 H8 H9 H10 H11].
  assert (u ∉ crawled_urls s) as Hu by (apply H4; set_solver).
  split.
  { unfold crawl_url_enter. by rewrite bool_decide_eq_false_2. }
  assert (queue s ++ rest ++ inflight ++ [u] ≡ₚ u :: queue s ++ rest ++ inflight)
    as Hperm.
  { rewrite !app_assoc. rewrite <- Permutation_cons_append. done. }
  assert (queue s ++ (u :: rest) ++ inflight ≡ₚ u :: queue s ++ rest ++ inflight)
    as Hperm0.
  { simpl. by rewrite <- Permutation_middle. }
  rewrite Hperm0 in H1. apply NoDup_cons in H1 as [Hfresh H1].
  split; cbn [add_crawled queue discovered_urls crawled_urls results urls].
  - by rewrite Hperm, NoDup_cons.
  - intros x Hx. apply H2. by rewrite Hperm0, <- Hperm.
  - assert (u ∈ discovered_urls s) by (apply H2; set_solver). set_solver.
  - intros x Hx [->%elem_of_singleton|Hc]%elem_of_union.
    + apply Hfresh. rewrite !elem_of_app in Hx. rewrite !elem_of_app. tauto.
    + eapply H4; [|done]. rewrite !elem_of_app in Hx. rewrite !elem_of_app.
      rewrite elem_of_cons. tauto.
  - intros x [Hx| ->%list_elem_of_singleton]%elem_of_app; [|set_solver].
    apply H5 in Hx. set_solver.
  - done.
  - intros x Hx. destruct (H7 x Hx) as [Hw|Hc]; [|right; set_solver].
    rewrite elem_of_app, elem_of_cons in Hw. rewrite elem_of_app.
    destruct Hw as [Hw|[->|Hw]]; [by left; left|right; set_solver|by left; right].
  - done.
  - done.
  - done.
  - intros x. rewrite H11, elem_of_app, list_elem_of_singleton, elem_of_union,
      elem_of_singleton. split.
    + intros [Hc Hn]. split; [by right|]. intros [Hd| ->]; done.
    + intros [[->|Hc] Hn]; [exfalso; apply Hn; by right|].
      split; [done|]. intros Hd. apply Hn. by left.
Qed.

Lemma filter_all {A : Type} (P : A → Prop) `{!∀ x, Decision (P x)} (l : list A) :
  (∀ x, x ∈ l → P x) → filter P l = l.
Proof.
  induction l as [|a l IH]; intros Hall; [done|].
  rewrite filter_cons_True by (apply Hall; left).
  f_equal. apply IH. intros x Hx. apply Hall. by right.
Qed.

(** At the head of the loop nothing that waits in the queue is crawled, so
    a round dispatches the whole front of the queue. *)
Lemma take_batch_state_ok (seed : string) (n : nat) (s : crawl_state) :
  state_ok seed [] [] s →
  take_batch n s [] = (set_queue (drop n (queue s)) s, take n (queue s))
  ∧ state_ok seed (take n (queue s)) [] (set_queue (drop n (queue s)) s).
Proof.
  intros [H1 H2 H3 H4 H5 H6 H7 H8 H9 H10 H11].
  rewrite !app_nil_r in *.
  assert (∀ x, x ∈ queue s ↔ x ∈ drop n (queue s) ∨ x ∈ take n (queue s)) as Hq.
  { intros x. rewrite <- (take_drop n (queue s)) at 1. rewrite elem_of_app. tauto. }
  split.
  { rewrite take_batch_closed_form. cbn [app]. f_equal.
    apply filter_all. intros x Hx. apply H4, Hq. by right. }
  split; cbn [set_queue queue discovered_urls crawled_urls results urls];
    rewrite ?app_nil_r; try done.
  - rewrite (comm (++)). by rewrite take_drop.
  - intros x Hx. apply H2, Hq. by apply elem_of_app in Hx.
  - intros x Hx. apply H4, Hq. by apply elem_of_app in Hx.
  - intros x Hx. destruct (H7 x Hx) as [Hw|Hc]; [left|by right].
    apply elem_of_app. by apply Hq.
Qed.

Lemma nth_mod_lookup (k : nat) (u0 : string) (l : list string) :
  (u0 :: l) !! (k `mod` length (u0 :: l))%nat
  = Some (nth (k `mod` length (u0 :: l)) (u0 :: l) u0).
Proof.
  destruct (nth_lookup_or_length (u0 :: l) (k `mod` length (u0 :: l)) u0)
    as [H|H]; [done|].
  pose proof (Nat.mod_upper_bound k (length (u0 :: l))) as Hlt.
  simpl in *. lia.
Qed.

Lemma next_event_cases (todo inflight : list string) :
  match next_event schedule todo inflight with
  | GatherDone => todo = [] ∧ inflight = []
  | Start u rest => todo = u :: rest
  | Resolve i u => inflight !! i = Some u
  end.
Proof.
  unfold next_event.
  destruct todo as [|t todo], inflight as [|u0 inflight]; try done.
  - apply nth_mod_lookup.
  - destruct (schedule (t :: todo) (u0 :: inflight)) as [k|]; [|done].
    apply nth_mod_lookup.
Qed.

Lemma enqueue_links_complete (links : list string) (s : crawl_state) :
  complete (results (fold_left enqueue_link links s)) = complete (results s).
Proof.
  revert s. induction links as [|l links IH]; intros s; [done|].
  simpl. rewrite IH.
  by destruct (enqueue_link_cases s l) as [->|(_ & _ & ->)].
Qed.

Lemma crawl_url_resume_complete (s : crawl_state) (u base_domain : string) :
  complete (results (crawl_url_resume urlparse urljoin find_all_href session_get
                                      s u base_domain).1)
  = complete (results s).
Proof.
  unfold crawl_url_resume.
  destruct (fetch_url session_get u) as [[content status]|e]; [|done].
  destruct content as [html|]; [|done].
  destruct (truthy html); [|done].
  destruct (extract_links urlparse urljoin find_all_href html u); [|done].
  cbn [fst]. by rewrite enqueue_links_complete.
Qed.

(** One step keeps the state of the crawl consistent. *)
Lemma step_crawl_ok (seed base_domain : string) (limit : Z) (c : config) :
  crawl_ok seed c →
  crawl_ok seed (step urlparse urljoin find_all_href session_get schedule
                      base_domain limit c).
Proof.
  intros [Hok Hdone]. unfold step, crawl_ok in *.
  destruct c as [s ctl]. cbn [st pc todo_of in_flight] in *.
  destruct ctl as [|todo inflight raised| |e]; cbn [st pc todo_of in_flight] in *.
  - (* the loop head *)
    generalize (Nat.min 5 (length (queue s))). intros n.
    destruct (negb (bool_decide (queue s = []))
              && (Z.of_nat (size (crawled_urls s)) <? limit)%Z).
    2:{ cbn [st pc todo_of in_flight]. split; [by destruct Hok|done]. }
    destruct (take_batch_state_ok seed n s Hok) as [-> Hok1].
    assert (complete (results s) ≠ true) as Hc by (intros H; by apply Hdone in H).
    destruct (take n (queue s)) as [|t tasks] eqn:Ht;
      cbn [st pc todo_of in_flight]; (split; [done|]);
      cbn [set_queue results]; split; try done.
  - (* a turn of the event loop during the gather *)
    assert (complete (results s) ≠ true) as Hc by (intros H; by apply Hdone in H).
    pose proof (next_event_cases todo inflight) as Hev.
    destruct (next_event schedule todo inflight) as [|u rest|i u].
    + destruct Hev as [-> ->].
      destruct raised; cbn [st pc todo_of in_flight]; (split; [done|]);
        split; done.
    + subst todo.
      destruct (crawl_url_enter_state_ok seed rest inflight s u Hok) as [-> Hok1].
      cbn [st pc todo_of in_flight]. split; [done|].
      cbn [add_crawled results]. split; done.
    + pose proof (crawl_url_resume_state_ok seed todo inflight s i u base_domain
                    Hev Hok) as Hok1.
      pose proof (crawl_url_resume_complete s u base_domain) as Hsame.
      destruct (crawl_url_resume urlparse urljoin find_all_href session_get
                                 s u base_domain) as [s' e].
      cbn [fst st pc todo_of in_flight] in *. split; [done|].
      rewrite Hsame. split; done.
  - done.
  - done.
Qed.

Lemma run_crawl_ok (seed base_domain : string) (limit : Z) (n : nat) :
  crawl_ok seed
    (run urlparse urljoin find_all_href session_get schedule base_domain limit n
         (Config (crawl_site_init seed) LoopHead)).
Proof.
  induction n as [|n IH].
  - split; [apply state_ok_init|done].
  - rewrite run_S. by apply step_crawl_ok.
Qed.

Lemma crawl_site_crawl_ok (seed : string) (respect_robots : bool) (limit : Z)
    (fuel : nat) (c : config) :
  crawl_site urlparse urljoin find_all_href session_get schedule
             seed respect_robots limit fuel = Ret c →
  crawl_ok seed c.
Proof.
  intros Hrun. apply crawl_site_run in Hrun as (p0 & _ & ->). apply run_crawl_ok.
Qed.

(* --------------------------------------------------------------------- *)
(* The invariants of the data model                                        *)
(* --------------------------------------------------------------------- *)

Lemma log_urls_split (log : list url_record) :
  url <$> log ≡ₚ pending_urls log ++ fetched_urls log.
Proof.
  unfold pending_urls, fetched_urls. rewrite <- fmap_app.
  by rewrite (filter_app_complement (λ r, status r = None) log).
Qed.

Lemma length_as_size (l : list string) (X : gset string) :
  NoDup l → (∀ u, u ∈ l ↔ u ∈ X) → length l = size X.
Proof.
  intros Hnd Hiff. rewrite <- (size_list_to_set (C:=gset string) l) by done.
  f_equal. apply set_eq. intros u. by rewrite elem_of_list_to_set.
Qed.

(** X5. At every observation point of every crawl: the crawled set is
    inside the discovered set, which holds the seed; the queue has no
    repeated entry and holds only discovered URLs that are not crawled;
    every discovered URL either waits (in the queue or in the round being
    started) or is crawled; and every URL of the log is discovered. *)
Theorem frontier_invariant (seed : string) (respect_robots : bool) (limit : Z)
    (fuel : nat) (c : config) :
  crawl_site urlparse urljoin find_all_href session_get schedule
             seed respect_robots limit fuel = Ret c →
  crawled_urls (st c) ⊆ discovered_urls (st c)
  ∧ seed ∈ discovered_urls (st c)
  ∧ NoDup (queue (st c))
  ∧ (∀ u, u ∈ queue (st c) →
          u ∈ discovered_urls (st c) ∧ u ∉ crawled_urls (st c))
  ∧ (∀ u, u ∈ discovered_urls (st c) →
          u ∈ queue (st c) ∨ u ∈ todo_of c ∨ u ∈ crawled_urls (st c))
  ∧ (∀ r, r ∈ urls (results (st c)) → url r ∈ discovered_urls (st c)).
Proof.
  intros Hrun. apply crawl_site_crawl_ok in Hrun as [[H1 H2 H3 H4 H5 H6 H7 H8 H9 H10 H11] _].
  split; [done|]. split; [done|].
  split; [by apply NoDup_app in H1 as [H1 _]|].
  split; [|split].
  - intros u Hu. split; [apply H2|apply H4]; set_solver.
  - intros u Hu. destruct (H7 u Hu) as [[Hq|Ht]%elem_of_app|Hc]; auto.
  - intros r Hr.
    assert (url r ∈ url <$> urls (results (st c))) as Hin
      by (by apply list_elem_of_fmap_2).
    rewrite log_urls_split, elem_of_app in Hin. destruct Hin as [Hp|Hf].
    + by apply H9 in Hp as [Hp _].
    + apply H11 in Hf as [Hf _]. by apply H3.
Qed.

(** X6. No URL is fetched twice and no URL is announced twice: at every
    observation point the log holds at most one record with a status per
    URL, namely for the crawled URLs whose fetch has resolved, and at most
    one pending record per URL, namely for the discovered URLs other than
    the seed; so the log has |discovered| - 1 + |crawled| - |in flight|
    records. *)
Theorem one_record_of_each_kind (seed : string) (respect_robots : bool)
    (limit : Z) (fuel : nat) (c : config) :
  crawl_site urlparse urljoin find_all_href session_get schedule
             seed respect_robots limit fuel = Ret c →
  let log := urls (results (st c)) in
  NoDup (fetched_urls log)
  ∧ (∀ u, u ∈ fetched_urls log ↔ u ∈ crawled_urls (st c) ∧ u ∉ in_flight c)
  ∧ NoDup (pending_urls log)
  ∧ (∀ u, u ∈ pending_urls log ↔ u ∈ discovered_urls (st c) ∧ u ≠ seed)
  ∧ length log
    = (size (discovered_urls (st c)) - 1
       + (size (crawled_urls (st c)) - length (in_flight c)))%nat.
Proof.
  intros Hrun log.
  apply crawl_site_crawl_ok in Hrun as [[H1 H2 H3 H4 H5 H6 H7 H8 H9 H10 H11] _].
  fold log in H8, H9, H10, H11.
  split; [done|]. split; [done|]. split; [done|]. split; [done|].
  rewrite <- (length_fmap url log), log_urls_split, length_app. f_equal.
  - rewrite (length_as_size _ (discovered_urls (st c) ∖ {[seed]}) H8).
    + rewrite size_difference by set_solver. by rewrite size_singleton.
    + intros u. rewrite H9. set_solver.
  - assert (NoDup (in_flight c)) as Hnd.
    { apply NoDup_app in H1 as (_ & _ & H1). by apply NoDup_app in H1 as (_ & _ & H1). }
    rewrite (length_as_size _ (crawled_urls (st c) ∖ list_to_set (in_flight c)) H10).
    + rewrite size_difference.
      * by rewrite size_list_to_set.
      * intros u Hu%elem_of_list_to_set. by apply H5.
    + intros u. rewrite H11, elem_of_difference, elem_of_list_to_set. done.
Qed.

(* --------------------------------------------------------------------- *)
(* The sets only grow, the log is append-only                              *)
(* --------------------------------------------------------------------- *)

Lemma extends_refl (s : crawl_state) : extends s s.
Proof. by split; [|split]. Qed.

Lemma extends_trans (s1 s2 s3 : crawl_state) :
  extends s1 s2 → extends s2 s3 → extends s1 s3.
Proof.
  intros (Hd1 & Hc1 & Hl1) (Hd2 & Hc2 & Hl2).
  split; [|split]; by etrans.
Qed.

Lemma enqueue_links_extends (links : list string) (s : crawl_state) :
  extends s (fold_left enqueue_link links s).
Proof.
  revert s. induction links as [|l links IH]; intros s; [apply extends_refl|].
  simpl. eapply extends_trans; [|apply IH].
  destruct (enqueue_link_cases s l) as [->|(_ & _ & ->)]; [apply extends_refl|].
  split; [|split]; simpl; [set_solver|done|by apply prefix_app_r].
Qed.

Lemma crawl_url_resume_extends (s : crawl_state) (u base_domain : string) :
  extends s (crawl_url_resume urlparse urljoin find_all_href session_get
                              s u base_domain).1.
Proof.
  unfold crawl_url_resume.
  destruct (fetch_url session_get u) as [[content status]|e];
    [|apply extends_refl].
  assert (extends s (append_result (URLRecord u (Some status) true) s)) as H1.
  { split; [|split]; simpl; [done|done|by apply prefix_app_r]. }
  destruct content as [html|]; [|done].
  destruct (truthy html); [|done].
  destruct (extract_links urlparse urljoin find_all_href html u); [|done].
  cbn [fst]. eapply extends_trans; [exact H1|apply enqueue_links_extends].
Qed.

Lemma step_extends (base_domain : string) (limit : Z) (c : config) :
  extends (st c)
          (st (step urlparse urljoin find_all_href session_get schedule
                    base_domain limit c)).
Proof.
  unfold step. destruct c as [s ctl]. cbn [st pc].
  destruct ctl as [|todo inflight raised| |e]; cbn [st]; try apply extends_refl.
  - destruct (negb (bool_decide (queue s = []))
              && (Z.of_nat (size (crawled_urls s)) <? limit)%Z);
      [|by split; [|split]].
    rewrite take_batch_closed_form.
    destruct (filter _ _); cbn [st]; by split; [|split].
  - destruct (next_event schedule todo inflight) as [|u rest|i u].
    + destruct raised; apply extends_refl.
    + unfold crawl_url_enter. destruct (bool_decide (u ∈ crawled_urls s));
        cbn [st]; [apply extends_refl|].
      split; [|split]; simpl; [done|set_solver|done].
    + pose proof (crawl_url_resume_extends s u base_domain) as H.
      by destruct (crawl_url_resume _ _ _ _ s u base_domain).
Qed.

Lemma run_halted (base_domain : string) (limit : Z) (n : nat) (c : config) :
  halted c →
  run urlparse urljoin find_all_href session_get schedule base_domain limit n c = c.
Proof.
  intros Hh. induction n as [|n IH]; [done|]. simpl.
  assert (step urlparse urljoin find_all_href session_get schedule
               base_domain limit c = c) as ->; [|done].
  unfold step. by destruct Hh as [->|[e ->]].
Qed.

Lemma run_extends (base_domain : string) (limit : Z) (n k : nat) (c : config) :
  extends
    (st (run urlparse urljoin find_all_href session_get schedule
             base_domain limit n c))
    (st (run urlparse urljoin find_all_href session_get schedule
             base_domain limit (n + k) c)).
Proof.
  induction k as [|k IH].
  - rewrite Nat.add_0_r. apply extends_refl.
  - rewrite Nat.add_succ_r, run_S.
    eapply extends_trans; [exact IH|apply step_extends].
Qed.

(** X7. A crawl never takes anything back: between an observation and any
    later one the discovered set and the crawled set only grow and the log
    is only appended to (the earlier log is a prefix of the later one, so
    no record is changed or removed); and once complete is set nothing
    changes any more. *)
Theorem crawl_only_grows (seed : string) (respect_robots : bool) (limit : Z)
    (fuel k : nat) (c c' : config) :
  crawl_site urlparse urljoin find_all_href session_get schedule
             seed respect_robots limit fuel = Ret c →
  crawl_site urlparse urljoin find_all_href session_get schedule
             seed respect_robots limit (fuel + k) = Ret c' →
  discovered_urls (st c) ⊆ discovered_urls (st c')
  ∧ crawled_urls (st c) ⊆ crawled_urls (st c')
  ∧ urls (results (st c)) `prefix_of` urls (results (st c'))
  ∧ (complete (results (st c)) = true → c' = c).
Proof.
  intros Hc Hc'.
  pose proof (crawl_site_crawl_ok _ _ _ _ _ Hc) as [_ Hdone].
  apply crawl_site_run in Hc as (p0 & Hp & ->).
  apply crawl_site_run in Hc' as (p0' & Hp' & ->).
  assert (p0' = p0) as -> by congruence.
  destruct (run_extends (netloc p0) limit fuel k
              (Config (crawl_site_init seed) LoopHead)) as (Hd & Hcr & Hl).
  split; [done|]. split; [done|]. split; [done|].
  intros Hcomplete. rewrite run_add. apply run_halted. left. by apply Hdone.
Qed.

Lemma views_at_grow (base_domain : string) (limit : Z) (c0 : config)
    (fuel : nat) (gaps : list nat) :
  let go := λ n, run urlparse urljoin find_all_href session_get schedule
                     base_domain limit n c0 in
  grows_from (urls (results (st (go fuel)))) (views_at go fuel gaps).
Proof.
  intros go. revert fuel. induction gaps as [|k later IH]; intros fuel; [done|].
  split; [|apply IH].
  by destruct (run_extends base_domain limit fuel k c0) as (_ & _ & H).
Qed.

Lemma with_results_same (c : config) : with_results (results (st c)) c = c.
Proof. by destruct c as [[q d cr r] ctl]. Qed.

Lemma server_views_alone (base_domain : string) (limit : Z) (task_id : string)
    (c0 : config) (events : list server_event) :
  let go := λ n, run urlparse urljoin find_all_href session_get schedule
                     base_domain limit n c0 in
  ∀ (n : nat) (reg : gmap string task_entry),
    (∀ request id, StartCrawl request id ∈ events → id ≠ task_id) →
    reg !! task_id = Some (results (st (go n))) →
    server_views urlparse urljoin find_all_href session_get schedule
                 base_domain limit task_id events (reg, go n)
    = Some (views_at go n (gap_of <$> events)).
Proof.
  intros go. induction events as [|ev later IH]; intros n reg Hne Hreg; [done|].
  assert (∀ request id, StartCrawl request id ∈ later → id ≠ task_id) as Hne'.
  { intros r id H. apply (Hne r). by right. }
  cbn [server_views fmap list_fmap views_at].
  destruct ev as [k|request id]; cbn [server_step gap_of fst snd].
  - rewrite Hreg. cbn [mbind option_bind]. rewrite with_results_same.
    assert (run urlparse urljoin find_all_href session_get schedule
                base_domain limit k (go n) = go (n + k)%nat) as ->.
    { unfold go. by rewrite run_add. }
    cbn [fst]. rewrite lookup_insert_eq. cbn [mbind option_bind].
    rewrite (IH (n + k)%nat) by (done || apply lookup_insert_eq). done.
  - cbn [mbind option_bind fst]. unfold start_crawl.
    assert (id ≠ task_id) as Hid by (apply (Hne request); left).
    rewrite lookup_insert_ne, Hreg by done. cbn [mbind option_bind].
    rewrite Nat.add_0_r.
    rewrite (IH n) by (done || by rewrite lookup_insert_ne). done.
Qed.

(** X8. As long as no later call of start_crawl reuses the id of a task,
    a reader of crawl_results[task_id] finds a growing sequence of logs,
    whatever the crawl of the task and calls of start_crawl under other
    ids do between its looks: each view extends the one before, so no
    record it saw is changed or removed.  A call of start_crawl under the
    same id puts the empty entry in its place. *)
Theorem crawl_views_grow (request : CrawlRequest) (task_id : string)
    (crawl_results : gmap string task_entry) (events : list server_event)
    (p0 : parse_result) :
  urlparse (req_url request) = Ret p0 →
  (∀ request' id, StartCrawl request' id ∈ events → id ≠ task_id) →
  (∃ views,
     server_views urlparse urljoin find_all_href session_get schedule
                  (netloc p0) (max_urls request) task_id events
                  (start_crawl request task_id crawl_results,
                   Config (crawl_site_init (req_url request)) LoopHead)
     = Some views
     ∧ length views = length events
     ∧ grows_from [] views)
  ∧ ∀ request' σ,
      ∃ σ', server_step urlparse urljoin find_all_href session_get schedule
                        (netloc p0) (max_urls request) task_id
                        (StartCrawl request' task_id) σ = Some σ'
            ∧ σ'.1 !! task_id = Some (TaskEntry [] false).
Proof.
  intros Hp Hne. split.
  - set (c0 := Config (crawl_site_init (req_url request)) LoopHead).
    pose proof (server_views_alone (netloc p0) (max_urls request) task_id c0
                  events 0 (start_crawl request task_id crawl_results) Hne)
      as Hviews.
    cbn [run] in Hviews. rewrite Hviews by apply lookup_insert_eq.
    eexists. split; [done|]. split.
    + clear. generalize 0%nat. induction events as [|ev later IH]; intros n; [done|].
      cbn [fmap list_fmap views_at length]. f_equal. apply IH.
    + apply (views_at_grow (netloc p0) (max_urls request) c0 0).
  - intros request' σ. eexists. split; [done|]. apply lookup_insert_eq.
Qed.

(* --------------------------------------------------------------------- *)
(* Completion                                                              *)
(* --------------------------------------------------------------------- *)

Lemma step_finished (base_domain : string) (limit : Z) (c : config) :
  pc (step urlparse urljoin find_all_href session_get schedule
           base_domain limit c) = Finished →
  pc c = Finished
  ∨ (pc c = LoopHead
     ∧ (queue (st c) = [] ∨ (limit ≤ Z.of_nat (size (crawled_urls (st c))))%Z)
     ∧ step urlparse urljoin find_all_href session_get schedule
            base_domain limit c
       = Config (mark_complete (st c)) Finished).
Proof.
  unfold step. destruct c as [s ctl]. cbn [st pc].
  destruct ctl as [|todo inflight raised| |e]; cbn [pc]; try done; [| |by left].
  - destruct (bool_decide (queue s = [])) eqn:Hq; cbn [negb andb].
    { intros _. right. apply bool_decide_eq_true in Hq. by auto. }
    destruct (Z.ltb_spec (Z.of_nat (size (crawled_urls s))) limit) as [Hlt|Hge].
    + destruct (take_batch _ s []) as [s1 [|t tasks]]; done.
    + intros _. right. auto.
  - destruct (next_event schedule todo inflight) as [|u rest|i u].
    + by destruct raised.
    + by destruct (crawl_url_enter s u).
    + by destruct (crawl_url_resume _ _ _ _ s u base_domain).
Qed.

Lemma step_halted (base_domain : string) (limit : Z) (c : config) :
  halted c →
  step urlparse urljoin find_all_href session_get schedule base_domain limit c = c.
Proof. intros Hh. unfold step. by destruct Hh as [->|[e ->]]. Qed.

Lemma finished_done (base_domain : string) (limit : Z) (n : nat) (c0 : config) :
  pc c0 = LoopHead →
  let c := run urlparse urljoin find_all_href session_get schedule
               base_domain limit n c0 in
  pc c = Finished →
  queue (st c) = [] ∨ (limit ≤ Z.of_nat (size (crawled_urls (st c))))%Z.
Proof.
  intros H0. induction n as [|n IH]; intros c Hf.
  { subst c. simpl in Hf. congruence. }
  subst c. rewrite run_S in *.
  destruct (step_finished _ _ _ Hf) as [Hprev|(_ & Hcond & ->)].
  - rewrite step_halted by (by left). by apply IH.
  - cbn [st mark_complete queue crawled_urls]. exact Hcond.
Qed.

(** X9. complete is true exactly when crawl_site has returned.  From then
    on the entry never changes, no fetch is pending, and the queue is empty
    or max_urls is reached; if max_urls was not reached, every URL that
    was discovered was crawled and has the record of its fetch in the log. *)
Theorem complete_means_over (seed : string) (respect_robots : bool) (limit : Z)
    (fuel : nat) (c : config) :
  crawl_site urlparse urljoin find_all_href session_get schedule
             seed respect_robots limit fuel = Ret c →
  (complete (results (st c)) = true ↔ pc c = Finished)
  ∧ (pc c = Finished →
     (∀ k, crawl_site urlparse urljoin find_all_href session_get schedule
                      seed respect_robots limit (fuel + k) = Ret c)
     ∧ in_flight c = []
     ∧ (queue (st c) = [] ∨ (limit ≤ Z.of_nat (size (crawled_urls (st c))))%Z)
     ∧ ((Z.of_nat (size (crawled_urls (st c))) < limit)%Z →
        crawled_urls (st c) = discovered_urls (st c)
        ∧ ∀ u, u ∈ discovered_urls (st c) →
               u ∈ fetched_urls (urls (results (st c))))).
Proof.
  intros Hrun.
  pose proof (crawl_site_crawl_ok _ _ _ _ _ Hrun)
    as [[H1 H2 H3 H4 H5 H6 H7 H8 H9 H10 H11] Hdone].
  split; [done|]. intros Hf.
  apply crawl_site_run in Hrun as (p0 & Hp & Hc).
  assert (queue (st c) = []
          ∨ (limit ≤ Z.of_nat (size (crawled_urls (st c))))%Z) as Hcond.
  { rewrite Hc in Hf |- *. by apply (finished_done (netloc p0) limit fuel). }
  assert (in_flight c = [] ∧ todo_of c = []) as [Hi Ht].
  { unfold in_flight, todo_of. by rewrite Hf. }
  split; [|split; [done|split; [done|]]].
  - intros k. unfold crawl_site. rewrite Hp. cbn [bind]. f_equal.
    rewrite run_add, <- Hc. apply run_halted. by left.
  - intros Hlt. destruct Hcond as [Hq|Hge]; [|lia].
    assert (discovered_urls (st c) ⊆ crawled_urls (st c)) as Hall.
    { intros u Hu. destruct (H7 u Hu) as [Hw|Hcr]; [|done].
      rewrite Hq, Ht in Hw. by apply elem_of_nil in Hw. }
    split; [set_solver|].
    intros u Hu. apply H11. split; [by apply Hall|].
    rewrite Hi. apply not_elem_of_nil.
Qed.

(* --------------------------------------------------------------------- *)
(* Every gather ends, every crawl ends                                     *)
(* --------------------------------------------------------------------- *)

(** A gather with [todo] coroutines to start and [inflight] fetches
    pending is over after exactly 2|todo| + |inflight| turns of the event
    loop, whichever way the loop schedules them. *)
Lemma gather_finishes (seed base_domain : string) (limit : Z) (m : nat) :
  ∀ (c : config) (todo inflight : list string) (raised : option exn),
    crawl_ok seed c →
    pc c = Gathering todo inflight raised →
    (2 * length todo + length inflight = m)%nat →
    ∃ s' raised',
      run urlparse urljoin find_all_href session_get schedule
          base_domain limit m c
      = Config s' (Gathering [] [] raised')
      ∧ crawl_ok seed (Config s' (Gathering [] [] raised'))
      ∧ extends (st c) s'
      ∧ (∀ u, u ∈ todo → u ∈ crawled_urls s')
      ∧ (∀ e, raised = Some e → raised' = Some e).
Proof.
  induction m as [|m IH]; intros c todo inflight raised Hok Hpc Hm.
  { destruct todo, inflight; try (simpl in Hm; lia).
    destruct c as [s ctl]. cbn [pc] in Hpc. subst ctl.
    exists s, raised. split; [done|]. split; [done|].
    split; [apply extends_refl|]. split; [|done]. by intros u ?%elem_of_nil. }
  pose proof (step_crawl_ok seed base_domain limit c Hok) as Hok'.
  pose proof (step_extends base_domain limit c) as Hext.
  cbn [run]. destruct c as [s ctl]. cbn [pc st] in *. subst ctl.
  unfold step in *. cbn [pc st] in *.
  pose proof (next_event_cases todo inflight) as Hev.
  destruct Hok as [Hst _]. cbn [st todo_of in_flight pc] in Hst.
  destruct (next_event schedule todo inflight) as [|u rest|i u].
  - destruct Hev as [-> ->]. simpl in Hm. lia.
  - subst todo.
    destruct (crawl_url_enter_state_ok seed rest inflight s u Hst) as [Hent _].
    rewrite Hent in *. cbn [st] in *.
    destruct (IH _ rest (inflight ++ [u]) raised Hok' eq_refl)
      as (s' & raised' & Hrun & Hok2 & Hext2 & Hin & Hr).
    { rewrite length_app. simpl in *. lia. }
    exists s', raised'. split; [done|]. split; [done|].
    split; [by eapply extends_trans|]. split; [|done].
    intros x [->|Hx]%elem_of_cons; [|by apply Hin].
    destruct Hext2 as (_ & Hc & _). apply Hc. simpl. set_solver.
  - destruct (crawl_url_resume urlparse urljoin find_all_href session_get
                               s u base_domain) as [s1 e1].
    cbn [st] in *.
    destruct (IH _ todo (delete i inflight) (first_exn raised e1) Hok' eq_refl)
      as (s' & raised' & Hrun & Hok2 & Hext2 & Hin & Hr).
    { rewrite length_delete by (by eexists).
      apply lookup_lt_Some in Hev. lia. }
    exists s', raised'. split; [done|]. split; [done|].
    split; [by eapply extends_trans|]. split; [done|].
    intros e ->. by apply Hr.
Qed.

Lemma run_succ (base_domain : string) (limit : Z) (n : nat) (c : config) :
  run urlparse urljoin find_all_href session_get schedule base_domain limit (S n) c
  = run urlparse urljoin find_all_href session_get schedule base_domain limit n
        (step urlparse urljoin find_all_href session_get schedule
              base_domain limit c).
Proof. reflexivity. Qed.

Lemma take_length_min (n : nat) (q : list string) :
  length (take (Nat.min n (length q)) q) = Nat.min n (length q).
Proof. rewrite length_take. lia. Qed.

(** From the head of the loop the run is over within 12 steps for each
    URL that may still be crawled, plus one. *)
Lemma loop_terminates (seed base_domain : string) (limit : Z) (d : nat) :
  ∀ c : config,
    crawl_ok seed c →
    pc c = LoopHead →
    (limit - Z.of_nat (size (crawled_urls (st c))) ≤ Z.of_nat d)%Z →
    ∃ k, (k ≤ 12 * d + 1)%nat
         ∧ halted (run urlparse urljoin find_all_href session_get schedule
                       base_domain limit k c).
Proof.
  induction d as [|d IH]; intros c Hok Hpc Hd.
  - exists 1%nat. split; [lia|]. cbn [run]. unfold step. rewrite Hpc.
    replace (Z.of_nat (size (crawled_urls (st c))) <? limit)%Z with false
      by (symmetry; apply Z.ltb_ge; lia).
    rewrite andb_false_r. by left.
  - destruct (bool_decide (queue (st c) = [])) eqn:Hq.
    { exists 1%nat. split; [lia|]. cbn [run]. unfold step. rewrite Hpc, Hq.
      by left. }
    destruct (Z.ltb_spec (Z.of_nat (size (crawled_urls (st c)))) limit)
      as [Hlt|Hge].
    2:{ exists 1%nat. split; [lia|]. cbn [run]. unfold step. rewrite Hpc, Hq.
        replace (Z.of_nat (size (crawled_urls (st c))) <? limit)%Z with false
          by (symmetry; apply Z.ltb_ge; lia).
        by left. }
    apply bool_decide_eq_false in Hq.
    (* a round *)
    set (n := Nat.min 5 (length (queue (st c)))).
    assert (1 ≤ n ≤ 5)%nat as Hn.
    { subst n. destruct (queue (st c)); [done|]. cbn [length]. lia. }
    pose proof (step_crawl_ok seed base_domain limit c Hok) as Hok1.
    assert (state_ok seed [] [] (st c)) as Hst.
    { destruct Hok as [Hst _]. unfold todo_of, in_flight in Hst.
      by rewrite Hpc in Hst. }
    destruct (take_batch_state_ok seed n (st c) Hst) as [Hbatch Hst1].
    assert (length (take n (queue (st c))) = n) as Hlen
      by apply take_length_min.
    destruct (take n (queue (st c))) as [|t tasks] eqn:Htasks;
      [simpl in Hlen; lia|].
    assert (step urlparse urljoin find_all_href session_get schedule
                 base_domain limit c
            = Config (set_queue (drop n (queue (st c))) (st c))
                     (Gathering (t :: tasks) [] None)) as Hstep.
    { unfold step. rewrite Hpc. rewrite bool_decide_eq_false_2 by done.
      replace (Z.of_nat (size (crawled_urls (st c))) <? limit)%Z with true
        by (symmetry; by apply Z.ltb_lt).
      cbn [negb andb]. fold n. by rewrite Hbatch. }
    rewrite Hstep in Hok1.
    destruct (gather_finishes seed base_domain limit (2 * n) _ (t :: tasks) []
                None Hok1 eq_refl) as (s' & raised' & Hrun & Hok2 & Hext & Hin & _).
    { rewrite Hlen. simpl. lia. }
    assert (t ∉ crawled_urls (st c)) as Hfresh.
    { destruct Hst as [_ _ _ H4 _ _ _ _ _ _ _]. apply H4.
      rewrite app_nil_r, <- (take_drop n (queue (st c))), Htasks. set_solver. }
    assert (size (crawled_urls (st c)) < size (crawled_urls s'))%nat as Hgrow.
    { apply subset_size. destruct Hext as (_ & Hc & _). cbn [st set_queue crawled_urls] in Hc.
      split; [done|]. intros Hback. apply Hfresh, Hback, Hin. left. }
    pose proof (step_crawl_ok seed base_domain limit _ Hok2) as Hok3.
    destruct raised' as [e|].
    + (* the round raised: crawl_site is left by the exception *)
      exists (S (2 * n + 1)). split; [lia|].
      rewrite run_succ, Hstep, (run_add base_domain limit (2 * n) 1), Hrun.
      right. by exists e.
    + destruct (IH (Config s' LoopHead)) as (k & Hk & Hhalt).
      * exact Hok3.
      * done.
      * cbn [st]. lia.
      * exists (S (2 * n + 1) + k)%nat. split; [lia|].
        rewrite (run_add base_domain limit (S (2 * n + 1)) k).
        rewrite run_succ, Hstep, (run_add base_domain limit (2 * n) 1), Hrun.
        exact Hhalt.
Qed.

(** X10. Every crawl ends: whatever the site, the network and the event
    loop do, crawl_site has returned or raised after at most
    12 * max_urls + 1 steps, and its configuration stays what it is then. *)
Theorem crawl_terminates (seed : string) (respect_robots : bool) (limit : Z)
    (p0 : parse_result) :
  urlparse seed = Ret p0 →
  ∃ c,
    halted c
    ∧ ∀ fuel, (12 * Z.to_nat limit + 1 ≤ fuel)%nat →
        crawl_site urlparse urljoin find_all_href session_get schedule
                   seed respect_robots limit fuel = Ret c.
Proof.
  intros Hp.
  destruct (loop_terminates seed (netloc p0) limit (Z.to_nat limit)
              (Config (crawl_site_init seed) LoopHead))
    as (k & Hk & Hhalt).
  - apply (run_crawl_ok seed (netloc p0) limit 0).
  - done.
  - cbn [st crawl_site_init crawled_urls]. rewrite size_empty. lia.
  - eexists. split; [exact Hhalt|].
    intros fuel Hfuel. unfold crawl_site. rewrite Hp. cbn [bind]. f_equal.
    replace fuel with (k + (fuel - k))%nat by lia.
    rewrite run_add. by apply run_halted.
Qed.

(* --------------------------------------------------------------------- *)
(* Exceptions during a round                                               *)
(* --------------------------------------------------------------------- *)

Lemma crawl_url_resume_raises (s : crawl_state) (u base_domain : string) (e : exn) :
  (crawl_url_resume urlparse urljoin find_all_href session_get
                    s u base_domain).2 = Some e
  ↔ ∃ html status,
      fetch_url session_get u = Ret (Some html, status)
      ∧ html ≠ ""
      ∧ extract_links urlparse urljoin find_all_href html u = Raise e.
Proof.
  unfold crawl_url_resume.
  destruct (fetch_url_returns u) as (content & status & ->).
  destruct content as [html|]; cbn [snd].
  2:{ split; [done|]. by intros (h & st' & [=] & _). }
  destruct (truthy html) eqn:Ht.
  - apply truthy_spec in Ht.
    destruct (extract_links urlparse urljoin find_all_href html u) as [links|e']
      eqn:He; cbn [snd].
    + split; [done|]. intros (h & st' & [= <- <-] & _ & He'). congruence.
    + split.
      * intros [= ->]. by exists html, status.
      * intros (h & st' & [= <- <-] & _ & He'). congruence.
  - split; [done|]. intros (h & st' & [= <- <-] & Hne & _).
    apply truthy_spec in Hne. congruence.
Qed.

(** X11. Once a coroutine of a round has raised, the exception it raised
    is the one by which crawl_site is left, within 2|todo| + |inflight| + 1
    steps.  The coroutines of the round that had not finished still run
    to their end: every URL that was waiting to start or in flight is
    crawled and has the record of its fetch in the log, which only grew.
    complete is never set: the task stays incomplete for ever. *)
Theorem raised_means_crashed (seed : string) (respect_robots : bool) (limit : Z)
    (fuel : nat) (c : config) (todo inflight : list string) (e : exn) :
  crawl_site urlparse urljoin find_all_href session_get schedule
             seed respect_robots limit fuel = Ret c →
  pc c = Gathering todo inflight (Some e) →
  ∃ c',
    pc c' = Crashed e
    ∧ (∀ k, (2 * length todo + length inflight + 1 ≤ k)%nat →
         crawl_site urlparse urljoin find_all_href session_get schedule
                    seed respect_robots limit (fuel + k) = Ret c')
    ∧ (∀ u, u ∈ todo ++ inflight →
            u ∈ crawled_urls (st c')
            ∧ u ∈ fetched_urls (urls (results (st c'))))
    ∧ urls (results (st c)) `prefix_of` urls (results (st c'))
    ∧ ∀ k c'',
        crawl_site urlparse urljoin find_all_href session_get schedule
                   seed respect_robots limit (fuel + k) = Ret c'' →
        complete (results (st c'')) = false.
Proof.
  intros Hrun Hpc.
  pose proof (crawl_site_crawl_ok _ _ _ _ _ Hrun) as Hok.
  apply crawl_site_run in Hrun as (p0 & Hp & Hc).
  set (m := (2 * length todo + length inflight)%nat).
  destruct (gather_finishes seed (netloc p0) limit m c todo inflight (Some e)
              Hok Hpc eq_refl) as (s' & raised' & Hg & Hok' & Hext & Htodo & Hr).
  rewrite (Hr e eq_refl) in Hg, Hok'.
  assert (∀ k, (m + 1 ≤ k)%nat →
            run urlparse urljoin find_all_href session_get schedule
                (netloc p0) limit (fuel + k)
                (Config (crawl_site_init seed) LoopHead)
            = Config s' (Crashed e)) as Hlate.
  { intros k Hk. rewrite run_add, <- Hc.
    replace k with (m + (1 + (k - (m + 1))))%nat by lia.
    rewrite run_add, Hg, run_add. cbn [run step pc next_event st].
    apply run_halted. right. by exists e. }
  exists (Config s' (Crashed e)). split; [done|]. split; [|split; [|split]].
  - intros k Hk. unfold crawl_site. rewrite Hp. cbn [bind]. by rewrite Hlate.
  - destruct Hok as [Hst _], Hok' as [Hst' _].
    unfold todo_of, in_flight in Hst. rewrite Hpc in Hst.
    cbn [st pc todo_of in_flight] in Hst'. cbn [st].
    intros u Hu.
    assert (u ∈ crawled_urls s') as Hcr.
    { apply elem_of_app in Hu as [Hu|Hu]; [by apply Htodo|].
      destruct Hext as (_ & Hsub & _). apply Hsub.
      by apply (ok_inflight_crawled _ _ _ _ Hst). }
    split; [done|]. apply (ok_fetched _ _ _ _ Hst'). split; [done|].
    apply not_elem_of_nil.
  - by destruct Hext as (_ & _ & Hlog).
  - intros k c'' Hrun''.
    pose proof (crawl_site_crawl_ok _ _ _ _ _ Hrun'') as [_ Hdone].
    apply crawl_site_run in Hrun'' as (p0' & Hp' & Hc'').
    assert (p0' = p0) as -> by congruence.
    destruct (complete (results (st c''))) eqn:Hcomp; [|done]. exfalso.
    assert (pc c'' = Finished) as Hfin by (by apply Hdone).
    assert (run urlparse urljoin find_all_href session_get schedule
                (netloc p0) limit (fuel + (k + (m + 1)))
                (Config (crawl_site_init seed) LoopHead) = c'') as Hsame.
    { rewrite Nat.add_assoc, run_add, <- Hc''. apply run_halted. by left. }
    rewrite Hlate in Hsame by lia. by rewrite <- Hsame in Hfin.
Qed.

(* --------------------------------------------------------------------- *)
(* Where an exception can come from                                        *)
(* --------------------------------------------------------------------- *)

Lemma raised_by_extract_links_mono (s s' : crawl_state) (e : exn) :
  crawled_urls s ⊆ crawled_urls s' →
  raised_by_extract_links urlparse urljoin find_all_href session_get s e →
  raised_by_extract_links urlparse urljoin find_all_href session_get s' e.
Proof.
  intros Hsub (u & html & code & Hu & H). exists u, html, code.
  split; [by apply Hsub|done].
Qed.

Lemma step_raised (seed base_domain : string) (limit : Z) (c : config) :
  crawl_ok seed c →
  (∀ e, raised_now c = Some e →
        raised_by_extract_links urlparse urljoin find_all_href session_get
                                (st c) e) →
  ∀ e,
    raised_now (step urlparse urljoin find_all_href session_get schedule
                     base_domain limit c) = Some e →
    raised_by_extract_links urlparse urljoin find_all_href session_get
      (st (step urlparse urljoin find_all_href session_get schedule
                base_domain limit c)) e.
Proof.
  intros [Hok _] Hc e.
  pose proof (step_extends base_domain limit c) as (_ & Hmono & _).
  assert (raised_now c = Some e →
          raised_by_extract_links urlparse urljoin find_all_href session_get
            (st (step urlparse urljoin find_all_href session_get schedule
                      base_domain limit c)) e) as Hold.
  { intros H. eapply raised_by_extract_links_mono; [exact Hmono|by apply Hc]. }
  revert Hold Hmono. clear Hc. unfold step, raised_now.
  destruct c as [s ctl]. cbn [st pc todo_of in_flight] in *.
  destruct ctl as [|todo inflight raised| |e0]; cbn [st pc todo_of in_flight] in *.
  - intros _ _.
    destruct (negb (bool_decide (queue s = []))
              && (Z.of_nat (size (crawled_urls s)) <? limit)%Z); [|done].
    by destruct (take_batch _ s []) as [s1 [|t tasks]].
  - pose proof (next_event_cases todo inflight) as Hev.
    destruct (next_event schedule todo inflight) as [|u rest|i u].
    + intros Hold _. destruct raised as [e1|]; cbn [pc st]; [|done].
      intros [= ->]. by apply Hold.
    + destruct (crawl_url_enter s u) as [s' f]. cbn [pc st].
      intros Hold _ H. by apply Hold.
    + destruct (crawl_url_resume urlparse urljoin find_all_href session_get
                                 s u base_domain) as [s' e1] eqn:Hres.
      cbn [pc st]. intros Hold Hmono.
      destruct raised as [e0|]; cbn [first_exn]; [intros H; by apply Hold|].
      intros ->.
      assert ((crawl_url_resume urlparse urljoin find_all_href session_get
                                s u base_domain).2 = Some e) as Hraise
        by (by rewrite Hres).
      apply crawl_url_resume_raises in Hraise as (html & code & Hf & Hne & He).
      exists u, html, code. split; [|done]. apply Hmono.
      apply (ok_inflight_crawled _ _ _ _ Hok).
      by eapply list_elem_of_lookup_2.
  - done.
  - intros Hold _ H. by apply Hold.
Qed.

Lemma run_raised (seed base_domain : string) (limit : Z) (n : nat) (e : exn) :
  let c := run urlparse urljoin find_all_href session_get schedule
               base_domain limit n (Config (crawl_site_init seed) LoopHead) in
  raised_now c = Some e →
  raised_by_extract_links urlparse urljoin find_all_href session_get (st c) e.
Proof.
  revert e. induction n as [|n IH]; intros e; [done|].
  cbn zeta. rewrite run_S. apply (step_raised seed).
  - apply run_crawl_ok.
  - exact IH.
Qed.

(** X1. validate_url returns the URL it was given, unchanged, exactly when
    the URL parses with a non-empty scheme and a non-empty authority; in
    every other case it raises ValueError.  On a URL that validate_url
    returned, the first statement of crawl_site (urlparse(url).netloc)
    does not raise, and if crawl_site is left by an exception at all, it
    is one that extract_links raised in a coroutine, on the non-empty
    HTML body of a page that was crawled. *)
Theorem validate_url_accepts (v : string) :
  (validate_url urlparse v = Ret v
   ↔ ∃ parsed, urlparse v = Ret parsed
               ∧ scheme parsed ≠ "" ∧ netloc parsed ≠ "")
  ∧ (validate_url urlparse v = Ret v ∨ validate_url urlparse v = Raise ValueError)
  ∧ (validate_url urlparse v = Ret v →
     ∃ parsed,
       urlparse v = Ret parsed
       ∧ ∀ respect_robots limit fuel,
           ∃ c, crawl_site urlparse urljoin find_all_href session_get schedule
                           v respect_robots limit fuel = Ret c
                ∧ ∀ e, pc c = Crashed e →
                       raised_by_extract_links urlparse urljoin find_all_href
                                               session_get (st c) e).
Proof.
  destruct (validate_url_spec v) as [Hiff Hcases].
  split; [done|]. split; [done|].
  intros Hok. apply Hiff in Hok as (parsed & Hp & _).
  exists parsed. split; [done|]. intros respect_robots limit fuel.
  unfold crawl_site. rewrite Hp. cbn [bind]. eexists. split; [done|].
  intros e He. apply (run_raised v (netloc parsed) limit fuel).
  unfold raised_now. by rewrite He.
Qed.

(* --------------------------------------------------------------------- *)
(* Crawls that cannot raise                                                *)
(* --------------------------------------------------------------------- *)

Lemma join_all_total (base : string) (hrefs : list string) :
  (∀ h, h ∈ hrefs → ∃ l, urljoin base h = Ret l) →
  ∃ ls, join_all urljoin base hrefs = Ret ls.
Proof.
  induction hrefs as [|h rest IH]; intros Hj; [by exists []|].
  cbn [join_all]. destruct (Hj h) as [l ->]; [left|]. cbn [bind].
  destruct IH as [ls ->]; [intros h' Hh'; apply Hj; by right|].
  cbn [bind]. eauto.
Qed.

Lemma step_no_exception (seed : string) (p0 : parse_result) (base_domain : string)
    (limit : Z) (c : config) :
  urlparse seed = Ret p0 →
  links_resolve urljoin find_all_href session_get →
  config_ok urlparse seed (netloc p0) c →
  (∀ todo inflight raised, pc c = Gathering todo inflight raised → raised = None) →
  (∀ e, pc c ≠ Crashed e) →
  let c' := step urlparse urljoin find_all_href session_get schedule
                 base_domain limit c in
  (∀ todo inflight raised, pc c' = Gathering todo inflight raised → raised = None)
  ∧ (∀ e, pc c' ≠ Crashed e).
Proof.
  intros Hp Hj Hok Hnone Hnc c'. subst c'. unfold step.
  destruct c as [s ctl]. cbn [st pc] in *.
  destruct ctl as [|todo inflight raised| |e]; cbn [pc].
  - destruct (negb (bool_decide (queue s = []))
              && (Z.of_nat (size (crawled_urls s)) <? limit)%Z); [|done].
    destruct (take_batch _ s []) as [s1 [|t tasks]]; cbn [pc]; [done|].
    split; [|done]. by intros ? ? ? [= _ _ <-].
  - rewrite (Hnone todo inflight raised eq_refl).
    pose proof (next_event_cases todo inflight) as Hev.
    destruct (next_event schedule todo inflight) as [|u rest|i u]; [done| |].
    + destruct (crawl_url_enter s u) as [s' f]. cbn [pc].
      split; [|done]. by intros ? ? ? [= _ _ <-].
    + destruct Hok as (_ & Hs & Hi). cbn [st gathered pc] in Hs, Hi.
      assert (u ∈ discovered_urls s) as Hu.
      { apply Hi, elem_of_app. right. by eapply list_elem_of_lookup_2. }
      destruct (discovered_netloc seed p0 s u Hp Hs Hu) as (parsed & Hpu & _).
      destruct (crawl_url_resume urlparse urljoin find_all_href session_get
                                 s u base_domain) as [s' e] eqn:Hres.
      cbn [pc]. split; [|done]. intros ? ? ? [= _ _ <-]. cbn [first_exn].
      destruct e as [e|]; [|done]. exfalso.
      assert ((crawl_url_resume urlparse urljoin find_all_href session_get
                                s u base_domain).2 = Some e) as Hraise
        by (by rewrite Hres).
      apply crawl_url_resume_raises in Hraise as (html & status & Hf & Hne & He).
      unfold extract_links in He. destruct html as [|ch html]; [done|].
      cbn [truthy negb] in He. rewrite Hpu in He. cbn [bind] in He.
      rewrite extract_links_loop_closed_form in He.
      destruct (join_all_total u (find_all_href (String ch html))) as [ls Hls].
      { intros h Hh. by apply (Hj u (String ch html) status h). }
      by rewrite Hls in He.
  - done.
  - by destruct (Hnc e).
Qed.

(** X12. If urljoin raises on no href of a page that the network serves
    (and urlparse accepted the seed), a crawl cannot be left by an
    exception: after at most 12 * max_urls + 1 steps crawl_site has
    returned, with complete set, and stays so. *)
Theorem crawl_completes_without_urljoin_errors (seed : string)
    (respect_robots : bool) (limit : Z) (p0 : parse_result) :
  urlparse seed = Ret p0 →
  links_resolve urljoin find_all_href session_get →
  ∃ c,
    pc c = Finished
    ∧ complete (results (st c)) = true
    ∧ ∀ fuel, (12 * Z.to_nat limit + 1 ≤ fuel)%nat →
        crawl_site urlparse urljoin find_all_href session_get schedule
                   seed respect_robots limit fuel = Ret c.
Proof.
  intros Hp Hj.
  set (c0 := Config (crawl_site_init seed) LoopHead).
  assert (∀ n,
            let c := run urlparse urljoin find_all_href session_get schedule
                         (netloc p0) limit n c0 in
            (∀ todo inflight raised,
               pc c = Gathering todo inflight raised → raised = None)
            ∧ (∀ e, pc c ≠ Crashed e)) as Hnever.
  { induction n as [|n [IH1 IH2]]; [done|].
    rewrite run_S. apply (step_no_exception seed p0); try done.
    by apply run_ok. }
  destruct (loop_terminates seed (netloc p0) limit (Z.to_nat limit) c0)
    as (k & Hk & Hhalt).
  - apply (run_crawl_ok seed (netloc p0) limit 0).
  - done.
  - cbn [st c0 crawl_site_init crawled_urls]. rewrite size_empty. lia.
  - destruct Hhalt as [Hfin|[e He]]; [|by destruct (Hnever k) as [_ H]; destruct (H e)].
    eexists. split; [exact Hfin|]. split.
    + by apply (run_crawl_ok seed (netloc p0) limit k).
    + intros fuel Hfuel. unfold crawl_site. rewrite Hp. cbn [bind]. f_equal.
      replace fuel with (k + (fuel - k))%nat by lia.
      rewrite run_add. apply run_halted. by left.
Qed.

(* --------------------------------------------------------------------- *)
(* The stream of a finished crawl                                          *)
(* --------------------------------------------------------------------- *)

(** X13. When a crawl has finished, the event generator started on its
    entry stops (at its first pass, having yielded the whole log) if the
    crawl fetched no page but the seed, and otherwise never stops, however
    many passes it makes. *)
Theorem stream_of_finished_crawl (seed : string) (respect_robots : bool)
    (limit : Z) (fuel : nat) (c : config) (passes : nat) :
  crawl_site urlparse urljoin find_all_href session_get schedule
             seed respect_robots limit fuel = Ret c →
  pc c = Finished →
  (crawled_urls (st c) ⊆ {[seed]} →
   event_generator (replicate (S passes) (results (st c))) ∅
   = (urls (results (st c)), true))
  ∧ (¬ crawled_urls (st c) ⊆ {[seed]} →
     (event_generator (replicate passes (results (st c))) ∅).2 = false).
Proof.
  intros Hrun Hfin.
  pose proof (crawl_site_crawl_ok _ _ _ _ _ Hrun)
    as [[H1 H2 H3 H4 H5 H6 H7 H8 H9 H10 H11] Hdone].
  assert (in_flight c = []) as Hi by (unfold in_flight; by rewrite Hfin).
  assert (NoDup (url <$> urls (results (st c)))
          ↔ crawled_urls (st c) ⊆ {[seed]}) as Hnd.
  { rewrite log_urls_split, NoDup_app. split.
    - intros (_ & Hdis & _) u Hu. apply elem_of_singleton.
      destruct (decide (u = seed)) as [|Hne]; [done|]. exfalso.
      apply (Hdis u).
      + apply H9. split; [by apply H3|done].
      + apply H11. split; [done|]. rewrite Hi. apply not_elem_of_nil.
    - intros Hsub. split; [done|]. split; [|done].
      intros u [_ Hne]%H9 [Hc _]%H11. apply Hne.
      apply Hsub in Hc. by apply elem_of_singleton in Hc. }
  split.
  - intros Hsub. apply Hnd in Hsub.
    cbn [replicate]. rewrite event_generator_cons, scan_urls_sent.
    replace (∅ ∪ seen (urls (results (st c))))
      with (seen (urls (results (st c)))) by set_solver.
    assert (stream_done (results (st c)) (seen (urls (results (st c)))) = true)
      as ->.
    { apply stream_done_spec. split; [by apply Hdone|by apply firsts_nodup]. }
    f_equal. by apply firsts_nodup.
  - intros Hsub. apply stream_never_stops_on_repeated_url. by rewrite Hnd.
Qed.

(* --------------------------------------------------------------------- *)
(* The order of the queue and of the log                                   *)
(* --------------------------------------------------------------------- *)

Lemma enqueue_links_in_order (seed : string) (links : list string) (s : crawl_state) :
  queue_in_order seed s → queue_in_order seed (fold_left enqueue_link links s).
Proof.
  revert s. induction links as [|l links IH]; intros s H; [done|].
  simpl. apply IH.
  destruct (enqueue_link_cases s l) as [->|(_ & _ & ->)]; [done|].
  unfold queue_in_order in *. cbn [queue results urls].
  rewrite pending_urls_snoc. cbn [status url]. rewrite decide_True by done.
  rewrite app_comm_cons. by apply suffix_app.
Qed.

Lemma enqueue_links_log_head (links : list string) (s : crawl_state)
    (r : url_record) (rest : list url_record) :
  urls (results s) = r :: rest →
  ∃ rest', urls (results (fold_left enqueue_link links s)) = r :: rest'.
Proof.
  revert s rest. induction links as [|l links IH]; intros s rest H; [by eexists|].
  simpl.
  destruct (enqueue_link_cases s l) as [->|(_ & _ & ->)]; [by eapply IH|].
  eapply IH. cbn [results urls]. rewrite H. by rewrite <- app_comm_cons.
Qed.

Lemma crawl_url_resume_order (seed : string) (todo inflight : list string)
    (s : crawl_state) (u base_domain : string) :
  state_ok seed todo inflight s →
  u ∈ inflight →
  queue_in_order seed s → log_starts_with_seed seed s →
  let s' := (crawl_url_resume urlparse urljoin find_all_href session_get
                              s u base_domain).1 in
  queue_in_order seed s' ∧ log_starts_with_seed seed s'.
Proof.
  intros [H1 H2 H3 H4 H5 H6 H7 H8 H9 H10 H11] Hu Hq Hl. unfold crawl_url_resume.
  destruct (fetch_url_returns u) as (content & code & ->).
  set (s1 := append_result (URLRecord u (Some code) true) s).
  assert (queue_in_order seed s1) as Hq1.
  { unfold queue_in_order in *. cbn [s1 append_result queue results urls].
    rewrite pending_urls_snoc. cbn [status]. rewrite decide_False by done.
    by rewrite app_nil_r. }
  assert (∃ code' rest, urls (results s1) = URLRecord seed (Some code') true :: rest)
    as (code' & rest & Hl1).
  { cbn [s1 append_result results urls].
    destruct Hl as [Hnil|(code' & rest & Hrest)].
    - (* nothing was recorded yet: only the seed can be in flight *)
      assert (u = seed) as ->.
      { assert (u ∈ discovered_urls s) as Hd by (apply H2; set_solver).
        destruct (decide (u = seed)) as [|Hne]; [done|].
        assert (u ∈ pending_urls (urls (results s))) as Hp by (by apply H9).
        rewrite Hnil in Hp. by apply elem_of_nil in Hp. }
      rewrite Hnil. by exists code, [].
    - rewrite Hrest. by exists code', (rest ++ [URLRecord u (Some code) true]). }
  assert (log_starts_with_seed seed s1) as Hls1 by (right; by exists code', rest).
  destruct content as [html|]; [|done].
  destruct (truthy html); [|done].
  destruct (extract_links urlparse urljoin find_all_href html u) as [links|e];
    [|done].
  cbn [fst]. split; [by apply enqueue_links_in_order|].
  destruct (enqueue_links_log_head links s1 _ _ Hl1) as [rest' Hrest'].
  right. by exists code', rest'.
Qed.

Lemma step_order (seed base_domain : string) (limit : Z) (c : config) :
  crawl_ok seed c →
  queue_in_order seed (st c) → log_starts_with_seed seed (st c) →
  let c' := step urlparse urljoin find_all_href session_get schedule
                 base_domain limit c in
  queue_in_order seed (st c') ∧ log_starts_with_seed seed (st c').
Proof.
  intros [Hok _] Hq Hl c'. subst c'. unfold step.
  destruct c as [s ctl]. cbn [st pc todo_of in_flight] in *.
  destruct ctl as [|todo inflight raised| |e]; cbn [st pc todo_of in_flight] in *;
    try done.
  - destruct (negb (bool_decide (queue s = []))
              && (Z.of_nat (size (crawled_urls s)) <? limit)%Z); [|done].
    rewrite take_batch_closed_form.
    assert (queue_in_order seed
              (set_queue (drop (Nat.min 5 (length (queue s))) (queue s)) s)) as Hq1.
    { unfold queue_in_order in *. cbn [set_queue queue results].
      etrans; [apply suffix_drop|done]. }
    by destruct (filter _ _).
  - pose proof (next_event_cases todo inflight) as Hev.
    destruct (next_event schedule todo inflight) as [|u rest|i u].
    + by destruct raised.
    + unfold crawl_url_enter. by destruct (bool_decide (u ∈ crawled_urls s)).
    + assert (u ∈ inflight) as Hu by (by eapply list_elem_of_lookup_2).
      pose proof (crawl_url_resume_order seed todo inflight s u base_domain
                    Hok Hu Hq Hl) as H.
      by destruct (crawl_url_resume _ _ _ _ s u base_domain).
Qed.

Lemma run_order (seed base_domain : string) (limit : Z) (n : nat) :
  let c := run urlparse urljoin find_all_href session_get schedule
               base_domain limit n (Config (crawl_site_init seed) LoopHead) in
  queue_in_order seed (st c) ∧ log_starts_with_seed seed (st c).
Proof.
  induction n as [|n [IH1 IH2]].
  - split; [|by left]. unfold queue_in_order. by simpl.
  - cbn zeta. rewrite run_S. apply step_order; [apply run_crawl_ok|done|done].
Qed.

(** X14. URLs leave the queue in the order in which they were discovered:
    at every observation point the queue is a suffix of the discovery
    sequence, which is the seed followed by the URLs of the pending
    records in log order. *)
Theorem queue_follows_discovery_order (seed : string) (respect_robots : bool)
    (limit : Z) (fuel : nat) (c : config) :
  crawl_site urlparse urljoin find_all_href session_get schedule
             seed respect_robots limit fuel = Ret c →
  queue (st c) `suffix_of` (seed :: pending_urls (urls (results (st c)))).
Proof.
  intros Hrun. apply crawl_site_run in Hrun as (p0 & _ & ->).
  by destruct (run_order seed (netloc p0) limit fuel).
Qed.

(** X15. The first record of every log is the result of the fetch of the
    seed; as long as the log is empty nothing but the seed is discovered
    and the crawled set holds at most the seed. *)
Theorem log_begins_with_seed_result (seed : string) (respect_robots : bool)
    (limit : Z) (fuel : nat) (c : config) :
  crawl_site urlparse urljoin find_all_href session_get schedule
             seed respect_robots limit fuel = Ret c →
  (urls (results (st c)) = []
   ∧ discovered_urls (st c) = {[seed]}
   ∧ crawled_urls (st c) ⊆ {[seed]})
  ∨ ∃ code rest,
      urls (results (st c)) = URLRecord seed (Some code) true :: rest.
Proof.
  intros Hrun.
  pose proof (crawl_site_crawl_ok _ _ _ _ _ Hrun)
    as [[H1 H2 H3 H4 H5 H6 H7 H8 H9 H10 H11] _].
  apply crawl_site_run in Hrun as (p0 & _ & Hc).
  destruct (run_order seed (netloc p0) limit fuel) as [_ Hl].
  rewrite <- Hc in Hl. destruct Hl as [Hnil|Hhead]; [left|by right].
  split; [done|].
  assert (discovered_urls (st c) = {[seed]}) as Hd.
  { apply set_eq. intros u. rewrite elem_of_singleton. split; [|by intros ->].
    intros Hu. destruct (decide (u = seed)) as [|Hne]; [done|].
    assert (u ∈ pending_urls (urls (results (st c)))) as Hp by (by apply H9).
    rewrite Hnil in Hp. by apply elem_of_nil in Hp. }
  split; [done|]. by rewrite <- Hd.
Qed.

(* --------------------------------------------------------------------- *)
(* crawl_url after its fetch                                               *)
(* --------------------------------------------------------------------- *)

(** X16. When the fetch of a page resolves, crawl_url first appends the
    record {url, status} to the log and only then extracts links: the
    record is there whatever happens next.  A failed fetch, a response
    that is not HTML and an empty body insert nothing and raise nothing;
    crawl_url raises exactly when extract_links raises on a non-empty
    body, and then no link was inserted; the crawled set is not touched. *)
Theorem crawl_url_records_before_extracting (s : crawl_state) (u base_domain : string) :
  let out := crawl_url_resume urlparse urljoin find_all_href session_get
                              s u base_domain in
  ∃ content code,
    fetch_url session_get u = Ret (content, code)
    ∧ (urls (results s) ++ [URLRecord u (Some code) true])
        `prefix_of` urls (results out.1)
    ∧ crawled_urls out.1 = crawled_urls s
    ∧ (content = None ∨ content = Some "" →
       out = (append_result (URLRecord u (Some code) true) s, None))
    ∧ (∀ e, out.2 = Some e ↔
            ∃ html, content = Some html ∧ html ≠ ""
                    ∧ extract_links urlparse urljoin find_all_href html u = Raise e)
    ∧ (∀ e, out.2 = Some e →
            out.1 = append_result (URLRecord u (Some code) true) s).
Proof.
  intros out.
  pose proof (crawl_url_resume_crawled s u base_domain) as Hcr.
  pose proof (λ e, crawl_url_resume_raises s u base_domain e) as Hraise.
  subst out. unfold crawl_url_resume in *.
  destruct (fetch_url_returns u) as (content & code & Hfetch).
  rewrite Hfetch in *. exists content, code. split; [done|].
  set (s1 := append_result (URLRecord u (Some code) true) s) in *.
  assert (urls (results s1) = urls (results s) ++ [URLRecord u (Some code) true])
    as Hs1 by done.
  split; [|split; [done|split; [|split]]].
  - rewrite <- Hs1.
    destruct content as [html|]; [|done].
    destruct (truthy html); [|done].
    destruct (extract_links urlparse urljoin find_all_href html u) as [links|e];
      [|done].
    by destruct (enqueue_links_extends links s1) as (_ & _ & H).
  - by intros [-> | ->].
  - intros e. destruct (Hraise e) as [Hto Hfrom]. split.
    + intros Hout. destruct (Hto Hout) as (html & code' & Heq & Hne & He).
      injection Heq as Hcontent _. by exists html.
    + intros (html & -> & Hne & He). apply Hfrom. by exists html, code.
  - intros e.
    destruct content as [html|]; [|done].
    destruct (truthy html); [|done].
    by destruct (extract_links urlparse urljoin find_all_href html u).
Qed.

(* --------------------------------------------------------------------- *)
(* Small values of max_urls                                                *)
(* --------------------------------------------------------------------- *)

(** X17. With max_urls zero or negative nothing is ever fetched: after its
    first step crawl_site has returned with complete set, an empty log,
    and the seed still in the queue. *)
Theorem nothing_fetched_without_budget (seed : string) (respect_robots : bool)
    (limit : Z) (p0 : parse_result) (fuel : nat) :
  urlparse seed = Ret p0 →
  (limit ≤ 0)%Z →
  (1 ≤ fuel)%nat →
  crawl_site urlparse urljoin find_all_href session_get schedule
             seed respect_robots limit fuel
  = Ret (Config (CrawlState [seed] {[seed]} ∅ (TaskEntry [] true)) Finished).
Proof.
  intros Hp Hlimit Hfuel. unfold crawl_site. rewrite Hp. cbn [bind]. f_equal.
  replace fuel with (S (fuel - 1)) by lia. rewrite run_succ.
  assert (step urlparse urljoin find_all_href session_get schedule
               (netloc p0) limit (Config (crawl_site_init seed) LoopHead)
          = Config (CrawlState [seed] {[seed]} ∅ (TaskEntry [] true)) Finished)
    as ->.
  { unfold step. cbn [pc st crawl_site_init crawled_urls]. rewrite size_empty.
    replace (Z.of_nat 0 <? limit)%Z with false
      by (symmetry; apply Z.ltb_ge; lia).
    by rewrite andb_false_r. }
  apply run_halted. by left.
Qed.

Lemma run_only_seed (seed base_domain : string) (limit : Z) (n : nat) :
  (limit ≤ 1)%Z →
  let c := run urlparse urljoin find_all_href session_get schedule
               base_domain limit n (Config (crawl_site_init seed) LoopHead) in
  crawled_urls (st c) ⊆ {[seed]} ∧ ∀ u, u ∈ todo_of c → u = seed.
Proof.
  intros Hlimit. induction n as [|n IH].
  { split; [done|]. by intros u ?%elem_of_nil. }
  cbn zeta in *. rewrite run_S.
  pose proof (run_crawl_ok seed base_domain limit n) as [Hok _].
  pose proof (run_order seed base_domain limit n) as [_ Hhead].
  destruct (run urlparse urljoin find_all_href session_get schedule
                base_domain limit n _) as [s ctl].
  destruct IH as [Hc Ht]. unfold step. cbn [st pc todo_of in_flight] in *.
  destruct ctl as [|todo inflight raised| |e]; cbn [st pc todo_of in_flight] in *;
    try done.
  - destruct (negb (bool_decide (queue s = []))); cbn [andb]; [|done].
    destruct (Z.ltb_spec (Z.of_nat (size (crawled_urls s))) limit) as [Hlt|Hge];
      [|done].
    assert (crawled_urls s = ∅) as Hempty.
    { apply leibniz_equiv, size_empty_iff. lia. }
    destruct Hok as [H1 H2 H3 H4 H5 H6 H7 H8 H9 H10 H11].
    assert (urls (results s) = []) as Hnil.
    { destruct Hhead as [|(code & rest & Hrest)]; [done|]. exfalso.
      assert (seed ∈ fetched_urls (urls (results s))) as Hf.
      { rewrite Hrest. unfold fetched_urls. rewrite filter_cons_True by done.
        left. }
      apply H11 in Hf as [Hf _]. rewrite Hempty in Hf. set_solver. }
    assert (∀ u, u ∈ queue s → u = seed) as Hq.
    { intros u Hu. destruct (decide (u = seed)) as [|Hne]; [done|]. exfalso.
      assert (u ∈ pending_urls (urls (results s))) as Hp.
      { apply H9. split; [|done]. apply H2. set_solver. }
      rewrite Hnil in Hp. by apply elem_of_nil in Hp. }
    rewrite take_batch_closed_form. cbn [app].
    destruct (filter _ _) as [|t tasks] eqn:Hfilter; cbn [st pc todo_of]; [done|].
    split; [done|]. intros u Hu. apply Hq.
    rewrite <- Hfilter in Hu. apply list_elem_of_filter in Hu as [_ Hu].
    by eapply subseteq_take.
  - pose proof (next_event_cases todo inflight) as Hev.
    destruct (next_event schedule todo inflight) as [|u rest|i u].
    + destruct raised; cbn [st pc todo_of]; (split; [done|]);
        by intros ? ?%elem_of_nil.
    + subst todo. unfold crawl_url_enter.
      destruct (bool_decide (u ∈ crawled_urls s)); cbn [st pc todo_of].
      * split; [done|]. intros x Hx. apply Ht. by right.
      * split; [|intros x Hx; apply Ht; by right].
        assert (u = seed) as -> by (apply Ht; left). simpl. set_solver.
    + pose proof (crawl_url_resume_crawled s u base_domain) as Hsame.
      destruct (crawl_url_resume _ _ _ _ s u base_domain) as [s' e].
      cbn [fst st pc todo_of] in *. by rewrite Hsame.
Qed.

(** X19. With max_urls at most 1 no page but the seed is ever crawled: at
    every observation point the crawled set is empty or the seed alone,
    whatever the seed page links to. *)
Theorem only_seed_crawled_with_budget_one (seed : string) (respect_robots : bool)
    (limit : Z) (fuel : nat) (c : config) :
  (limit ≤ 1)%Z →
  crawl_site urlparse urljoin find_all_href session_get schedule
             seed respect_robots limit fuel = Ret c →
  crawled_urls (st c) ⊆ {[seed]}
  ∧ fetched_urls (urls (results (st c))) `sublist_of` [seed].
Proof.
  intros Hlimit Hrun.
  pose proof (crawl_site_crawl_ok _ _ _ _ _ Hrun)
    as [[H1 H2 H3 H4 H5 H6 H7 H8 H9 H10 H11] _].
  apply crawl_site_run in Hrun as (p0 & _ & Hc).
  destruct (run_only_seed seed (netloc p0) limit fuel Hlimit) as [Hsub _].
  rewrite <- Hc in Hsub. split; [done|].
  assert (∀ u, u ∈ fetched_urls (urls (results (st c))) → u = seed) as Hall.
  { intros u [Hu _]%H11. apply Hsub in Hu. by apply elem_of_singleton in Hu. }
  destruct (fetched_urls (urls (results (st c)))) as [|a [|b l]].
  - apply sublist_nil_l.
  - rewrite (Hall a) by left. done.
  - exfalso. apply NoDup_cons in H10 as [Hnot _].
    apply Hnot. rewrite (Hall a) by left. rewrite (Hall b) by (right; left). left.
Qed.

End Proofs.

(* ===================================================================== *)
(* The properties on the example sites                                     *)
(* ===================================================================== *)

(** C1.  On a seed page with five in-domain links and max_urls = 2, the
    crawl ends with six URLs in crawled_urls: the test of the while loop
    lets the second round start with one URL crawled, and the round
    dispatches all five queued links. *)
Theorem crawled_exceeds_max_urls :
  ∃ c,
    Sites.crawl Sites.five_links "http://a.test/" 2 20 = Ret c
    ∧ pc c = Finished
    ∧ complete (results (st c)) = true
    ∧ size (crawled_urls (st c)) = 6%nat
    ∧ ¬ (Z.of_nat (size (crawled_urls (st c))) ≤ 2)%Z.
Proof.
  eexists. split; [vm_compute; reflexivity|].
  split; [done|]. split; [done|].
  split; [vm_compute; reflexivity|].
  vm_compute. intros H. by apply H.
Qed.

(** C8.  Between two consecutive observations of any crawl, a URL that
    is_valid_url rejects for the seed's authority enters neither the
    discovered set nor the queue, so such a URL, unless it is the seed
    itself, is in neither at any point.  In particular, on every network
    and under every completion order, a crawl from http://a.test/ never
    has http://other.test/x or http://a.test/c.png in its discovered set
    or its queue. *)
Theorem rejected_links_never_enqueued :
  (∀ urlparse urljoin find_all_href session_get schedule
     seed respect_robots limit fuel c c' p0 u,
     urlparse seed = Ret p0 →
     crawl_site urlparse urljoin find_all_href session_get schedule
                seed respect_robots limit fuel = Ret c →
     crawl_site urlparse urljoin find_all_href session_get schedule
                seed respect_robots limit (S fuel) = Ret c' →
     is_valid_url urlparse u (netloc p0) = false →
     (u ∈ discovered_urls (st c') → u ∈ discovered_urls (st c))
     ∧ (u ∈ queue (st c') → u ∈ queue (st c))
     ∧ (u ≠ seed → (u ∉ discovered_urls (st c)) ∧ (u ∉ queue (st c))))
  ∧ (∀ urljoin find_all_href session_get schedule respect_robots limit fuel c u,
       crawl_site Urllib.urlparse urljoin find_all_href session_get schedule
                  "http://a.test/" respect_robots limit fuel = Ret c →
       u = "http://other.test/x" ∨ u = "http://a.test/c.png" →
       (u ∉ discovered_urls (st c)) ∧ (u ∉ queue (st c))).
Proof.
  assert (∀ urlparse urljoin find_all_href session_get schedule
            seed respect_robots limit fuel c p0 u,
            urlparse seed = Ret p0 →
            crawl_site urlparse urljoin find_all_href session_get schedule
                       seed respect_robots limit fuel = Ret c →
            is_valid_url urlparse u (netloc p0) = false →
            u ≠ seed → (u ∉ discovered_urls (st c)) ∧ (u ∉ queue (st c)))
    as Hnever.
  { intros urlparse urljoin find_all_href session_get schedule
           seed rr limit fuel c p0 u Hp Hc Hv Hne.
    destruct (crawl_site_ok urlparse urljoin find_all_href session_get schedule
                            seed rr limit fuel c p0 Hp Hc) as ((Hq & _) & Hs & _).
    assert (u ∉ discovered_urls (st c)) as Hd.
    { intros Hu. destruct (Hs u Hu) as [H|H]; [done|congruence]. }
    split; [done|]. intros Hu. by apply Hd, Hq. }
  split.
  - intros urlparse urljoin find_all_href session_get schedule
           seed rr limit fuel c c' p0 u Hp Hc Hc' Hv.
    destruct (crawl_adds_only_in_scope urlparse urljoin find_all_href session_get
                schedule seed rr limit fuel c c' p0 Hp Hc Hc') as [[Hd Hq] _].
    split; [|split].
    + intros Hu. destruct (Hd u Hu) as [H|H]; [done|congruence].
    + intros Hu. destruct (Hq u Hu) as [H|H]; [done|congruence].
    + by eapply Hnever.
  - intros urljoin find_all_href session_get schedule rr limit fuel c u Hc Hu.
    eapply (Hnever Urllib.urlparse); [|exact Hc| |].
    + vm_compute. reflexivity.
    + destruct Hu as [-> | ->]; vm_compute; reflexivity.
    + destruct Hu as [-> | ->]; discriminate.
Qed.

(** The scenario of the specification, run to its end. *)
Lemma rejected_links_never_enqueued_witness :
  ∃ c,
    Sites.crawl Sites.scenario_a "http://a.test/" 10 12 = Ret c
    ∧ pc c = Finished
    ∧ ("http://other.test/x" ∉ discovered_urls (st c))
    ∧ ("http://a.test/c.png" ∉ discovered_urls (st c)).
Proof.
  eexists. split; [vm_compute; reflexivity|]. split; [done|].
  destruct rejected_links_never_enqueued as [_ Hscenario].
  split.
  - eapply (Hscenario Urllib.urljoin Urllib.find_all_href Sites.scenario_a
                      Sites.in_order false 10%Z 12%nat).
    + vm_compute. reflexivity.
    + by left.
  - eapply (Hscenario Urllib.urljoin Urllib.find_all_href Sites.scenario_a
                      Sites.in_order false 10%Z 12%nat).
    + vm_compute. reflexivity.
    + by right.
Defined.

(** The classifier on a subdomain of the crawled domain. *)
Lemma is_valid_url_classifies_witness :
  is_valid_url Urllib.urlparse "http://sub.a.test/page" "a.test" = false.
Proof.
  pose proof (is_valid_url_classifies Urllib.urlparse
                "http://sub.a.test/page" "a.test") as H.
  change (Urllib.urlparse "http://sub.a.test/page")
    with (Ret (ParseResult "http" "sub.a.test" "/page")) in H.
  destruct H as (_ & _ & H & _). apply H. discriminate.
Defined.

(** C3 fails for the seed: when the task starts the seed is in the queue
    and in the discovered set and the log is empty, and when the crawl is
    over the log still has no pending record for it. *)
Lemma seed_enqueued_without_pending_record :
  ∃ c0 c,
    Sites.crawl Sites.scenario_a "http://a.test/" 10 0 = Ret c0
    ∧ queue (st c0) = ["http://a.test/"]
    ∧ "http://a.test/" ∈ discovered_urls (st c0)
    ∧ urls (results (st c0)) = []
    ∧ Sites.crawl Sites.scenario_a "http://a.test/" 10 12 = Ret c
    ∧ pc c = Finished
    ∧ URLRecord "http://a.test/" None true ∉ urls (results (st c)).
Proof.
  eexists. eexists.
  split; [vm_compute; reflexivity|]. split; [done|].
  split; [cbn; set_solver|]. split; [done|].
  split; [vm_compute; reflexivity|]. split; [done|].
  cbn [st results urls]. intros H.
  repeat (apply elem_of_cons in H as [H|H]; [discriminate|]).
  by apply elem_of_nil in H.
Qed.

(** The seed page of the scenario site has been fetched and its result
    appended; its first link is inserted, and inserted again. *)
Lemma enqueue_link_idempotent_witness :
  ∃ c,
    Sites.crawl Sites.scenario_a "http://a.test/" 10 2 = Ret c
    ∧ pc c = Gathering [] ["http://a.test/"] None
    ∧ let s := append_result (URLRecord "http://a.test/" (Some 200) true) (st c) in
      enqueue_link (enqueue_link s "http://a.test/b") "http://a.test/b"
      = enqueue_link s "http://a.test/b".
Proof.
  eexists. split; [vm_compute; reflexivity|]. split; [done|].
  eapply (enqueue_link_idempotent Urllib.urlparse Urllib.urljoin
            Urllib.find_all_href Sites.scenario_a Sites.in_order
            "http://a.test/" false 10%Z 2%nat).
  - vm_compute. reflexivity.
  - right. exists "http://a.test/", 200, []. split; [|done].
    cbn [in_flight pc]. left.
Defined.

(** C4 fails for extract_links taken alone: given a page of other.test
    while the crawl's seed is in a.test, it keeps the link into other.test,
    which the classifier rejects for a.test, and drops the link into
    a.test, which the classifier accepts for a.test. *)
Lemma extract_links_follows_page_not_seed :
  extract_links Urllib.urlparse Urllib.urljoin Urllib.find_all_href
                "<a href='http://a.test/in'>in</a><a href='/y'>y</a>"
                "http://other.test/x"
  = Ret ["http://other.test/y"]
  ∧ is_valid_url Urllib.urlparse "http://other.test/y" "a.test" = false
  ∧ is_valid_url Urllib.urlparse "http://a.test/in" "a.test" = true.
Proof. repeat split; vm_compute; reflexivity. Qed.

(** The seed page of the scenario site. *)
Lemma extract_links_uses_page_authority_witness :
  ∃ parsed,
    Urllib.urlparse "http://a.test/" = Ret parsed
    ∧ ∃ href,
        Urllib.urljoin "http://a.test/" href = Ret "http://a.test/b"
        ∧ is_valid_url Urllib.urlparse "http://a.test/b" (netloc parsed) = true.
Proof.
  destruct (extract_links_uses_page_authority Urllib.urlparse Urllib.urljoin
              Urllib.find_all_href Sites.scenario_a Sites.in_order
              "<a href='http://a.test/b'>b</a><a href='http://other.test/x'>x</a>"
              "http://a.test/" ["http://a.test/b"])
    as (parsed & Hp & Hl & _).
  - vm_compute. reflexivity.
  - discriminate.
  - exists parsed. split; [done|].
    destruct (proj1 (Hl "http://a.test/b")) as (href & _ & Hj & Hv); [left|].
    by exists href.
Defined.

(** A seed on a network where every request times out. *)
Lemma seed_fetch_failure_witness :
  crawl_site Urllib.urlparse Urllib.urljoin Urllib.find_all_href
             Sites.unreachable Sites.in_order "http://a.test/" false 10 5
  = Ret (Config (CrawlState [] {["http://a.test/"]} {["http://a.test/"]}
                   (TaskEntry [URLRecord "http://a.test/" (Some 0%Z) true] true))
                Finished).
Proof.
  apply (seed_fetch_failure Urllib.urlparse Urllib.urljoin Urllib.find_all_href
           Sites.unreachable Sites.in_order "http://a.test/" false 10%Z).
  - vm_compute. reflexivity.
  - lia.
  - vm_compute. reflexivity.
  - lia.
Defined.

(* --------------------------------------------------------------------- *)
(* The invariants and the termination on the example sites                 *)
(* --------------------------------------------------------------------- *)

Lemma frontier_invariant_witness :
  ∃ c,
    Sites.crawl Sites.scenario_a "http://a.test/" 10 4 = Ret c
    ∧ NoDup (queue (st c)).
Proof.
  eexists. split; [vm_compute; reflexivity|].
  eapply (frontier_invariant Urllib.urlparse Urllib.urljoin Urllib.find_all_href
            Sites.scenario_a Sites.in_order "http://a.test/" false 10%Z 4%nat).
  vm_compute. reflexivity.
Defined.

Lemma one_record_of_each_kind_witness :
  ∃ c,
    Sites.crawl Sites.scenario_a "http://a.test/" 10 12 = Ret c
    ∧ NoDup (fetched_urls (urls (results (st c)))).
Proof.
  eexists. split; [vm_compute; reflexivity|].
  eapply (one_record_of_each_kind Urllib.urlparse Urllib.urljoin
            Urllib.find_all_href Sites.scenario_a Sites.in_order
            "http://a.test/" false 10%Z 12%nat).
  vm_compute. reflexivity.
Defined.

Lemma crawl_only_grows_witness :
  ∃ c c',
    Sites.crawl Sites.scenario_a "http://a.test/" 10 4 = Ret c
    ∧ Sites.crawl Sites.scenario_a "http://a.test/" 10 12 = Ret c'
    ∧ urls (results (st c)) `prefix_of` urls (results (st c')).
Proof.
  eexists. eexists. split; [vm_compute; reflexivity|].
  split; [vm_compute; reflexivity|].
  eapply (crawl_only_grows Urllib.urlparse Urllib.urljoin Urllib.find_all_href
            Sites.scenario_a Sites.in_order "http://a.test/" false 10%Z
            4%nat 8%nat).
  - vm_compute. reflexivity.
  - vm_compute. reflexivity.
Defined.

Lemma complete_means_over_witness :
  ∃ c,
    Sites.crawl Sites.scenario_a "http://a.test/" 10 12 = Ret c
    ∧ pc c = Finished
    ∧ complete (results (st c)) = true.
Proof.
  eexists. split; [vm_compute; reflexivity|]. split; [done|].
  eapply (complete_means_over Urllib.urlparse Urllib.urljoin Urllib.find_all_href
            Sites.scenario_a Sites.in_order "http://a.test/" false 10%Z 12%nat).
  - vm_compute. reflexivity.
  - done.
Defined.

Lemma crawl_terminates_witness :
  ∃ c, halted c ∧ Sites.crawl Sites.scenario_a "http://a.test/" 10 121 = Ret c.
Proof.
  destruct (crawl_terminates Urllib.urlparse Urllib.urljoin Urllib.find_all_href
              Sites.scenario_a Sites.in_order "http://a.test/" false 10%Z
              (ParseResult "http" "a.test" "/")) as (c & Hhalt & Hall).
  - vm_compute. reflexivity.
  - exists c. split; [done|]. apply Hall. vm_compute. lia.
Defined.

Lemma stream_of_finished_crawl_witness :
  event_generator
    [TaskEntry [URLRecord "http://a.test/" (Some 0%Z) true] true] ∅
  = ([URLRecord "http://a.test/" (Some 0%Z) true], true).
Proof.
  eapply (stream_of_finished_crawl Urllib.urlparse Urllib.urljoin
            Urllib.find_all_href Sites.unreachable Sites.in_order
            "http://a.test/" false 10%Z 5%nat
            (Config (CrawlState [] {["http://a.test/"]} {["http://a.test/"]}
                       (TaskEntry [URLRecord "http://a.test/" (Some 0%Z) true] true))
                    Finished) 0%nat).
  - vm_compute. reflexivity.
  - done.
  - done.
Defined.

Lemma queue_follows_discovery_order_witness :
  ∃ c,
    Sites.crawl Sites.five_links "http://a.test/" 10 3 = Ret c
    ∧ queue (st c)
        `suffix_of` ("http://a.test/" :: pending_urls (urls (results (st c)))).
Proof.
  eexists. split; [vm_compute; reflexivity|].
  eapply (queue_follows_discovery_order Urllib.urlparse Urllib.urljoin
            Urllib.find_all_href Sites.five_links Sites.in_order
            "http://a.test/" false 10%Z 3%nat).
  vm_compute. reflexivity.
Defined.

Lemma log_begins_with_seed_result_witness :
  ∃ c,
    Sites.crawl Sites.five_links "http://a.test/" 10 3 = Ret c
    ∧ ∃ code rest,
        urls (results (st c)) = URLRecord "http://a.test/" (Some code) true :: rest.
Proof.
  eexists. split; [vm_compute; reflexivity|].
  destruct (log_begins_with_seed_result Urllib.urlparse Urllib.urljoin
              Urllib.find_all_href Sites.five_links Sites.in_order
              "http://a.test/" false 10%Z 3%nat _ eq_refl)
    as [(Hnil & _)|H]; [discriminate Hnil|exact H].
Defined.

Lemma nothing_fetched_without_budget_witness :
  crawl_site Urllib.urlparse Urllib.urljoin Urllib.find_all_href
             Sites.five_links Sites.in_order "http://a.test/" false 0 1
  = Ret (Config (CrawlState ["http://a.test/"] {["http://a.test/"]} ∅
                            (TaskEntry [] true))
                Finished).
Proof.
  apply (nothing_fetched_without_budget Urllib.urlparse Urllib.urljoin
           Urllib.find_all_href Sites.five_links Sites.in_order
           "http://a.test/" false 0%Z (ParseResult "http" "a.test" "/") 1%nat).
  - vm_compute. reflexivity.
  - lia.
  - lia.
Defined.

Lemma crawled_overshoot_bound_witness :
  ∃ c,
    Sites.crawl Sites.five_links "http://a.test/" 2 20 = Ret c
    ∧ (Z.of_nat (size (crawled_urls (st c))) ≤ Z.max 0 (2 + 4))%Z.
Proof.
  eexists. split; [vm_compute; reflexivity|].
  eapply (crawled_overshoot_bound Urllib.urlparse Urllib.urljoin
            Urllib.find_all_href Sites.five_links Sites.in_order
            "http://a.test/" false 2%Z 20%nat).
  vm_compute. reflexivity.
Defined.

Lemma only_seed_crawled_with_budget_one_witness :
  ∃ c,
    Sites.crawl Sites.five_links "http://a.test/" 1 12 = Ret c
    ∧ crawled_urls (st c) ⊆ {["http://a.test/"]}.
Proof.
  eexists. split; [vm_compute; reflexivity|].
  eapply (only_seed_crawled_with_budget_one Urllib.urlparse Urllib.urljoin
            Urllib.find_all_href Sites.five_links Sites.in_order
            "http://a.test/" false 1%Z 12%nat).
  - lia.
  - vm_compute. reflexivity.
Defined.

(* --------------------------------------------------------------------- *)
(* The request, the round and the coroutine on the example sites           *)
(* --------------------------------------------------------------------- *)

Lemma round_takes_queue_front_witness :
  (length (queue (take_batch 2
                    (CrawlState ["http://a.test/p1"; "http://a.test/p2"]
                                ∅ {["http://a.test/p1"]} (TaskEntry [] false))
                    []).1) < 2)%nat.
Proof.
  apply (round_takes_queue_front
           (CrawlState ["http://a.test/p1"; "http://a.test/p2"]
                       ∅ {["http://a.test/p1"]} (TaskEntry [] false))).
  discriminate.
Defined.

Lemma extract_links_closed_form_witness :
  extract_links Urllib.urlparse Urllib.urljoin Urllib.find_all_href
                "<a href='http://a.test/b'>b</a><a href='http://other.test/x'>x</a>"
                "http://a.test/"
  = Ret ["http://a.test/b"].
Proof.
  rewrite (proj1 (extract_links_closed_form Urllib.urlparse Urllib.urljoin
                    Urllib.find_all_href
                    "<a href='http://a.test/b'>b</a><a href='http://other.test/x'>x</a>"
                    "http://a.test/")).
  - vm_compute. reflexivity.
  - discriminate.
Defined.

Lemma start_crawl_then_get_results_witness :
  (get_results "t2"
     (start_crawl (mkCrawlRequest "http://a.test/" false 10) "t1" ∅)).1
  = (get_results "t2" ∅).1.
Proof.
  apply (start_crawl_then_get_results
           (mkCrawlRequest "http://a.test/" false 10) "t1" "t2" ∅).
  discriminate.
Defined.

Lemma crawl_url_records_before_extracting_witness :
  crawl_url_resume Urllib.urlparse Urllib.urljoin Urllib.find_all_href
                   Sites.unreachable (crawl_site_init "http://a.test/")
                   "http://a.test/" "a.test"
  = (append_result (URLRecord "http://a.test/" (Some 0%Z) true)
                   (crawl_site_init "http://a.test/"), None).
Proof.
  destruct (crawl_url_records_before_extracting Urllib.urlparse Urllib.urljoin
              Urllib.find_all_href Sites.unreachable Sites.in_order
              (crawl_site_init "http://a.test/") "http://a.test/" "a.test")
    as (content & code & Hfetch & _ & _ & Hnone & _).
  vm_compute in Hfetch. injection Hfetch as <- <-.
  apply Hnone. by left.
Defined.

(* --------------------------------------------------------------------- *)
(* Exceptions and the registry on the example sites                        *)
(* --------------------------------------------------------------------- *)

Lemma validate_url_accepts_witness :
  validate_url Urllib.urlparse "http://a.test/" = Ret "http://a.test/"
  ∧ ∃ c,
      Sites.crawl Sites.bad_link "http://a.test/" 10 4 = Ret c
      ∧ pc c = Crashed ValueError
      ∧ raised_by_extract_links Urllib.urlparse Urllib.urljoin
                                Urllib.find_all_href Sites.bad_link
                                (st c) ValueError.
Proof.
  destruct (validate_url_accepts Urllib.urlparse Urllib.urljoin
              Urllib.find_all_href Sites.bad_link Sites.in_order
              "http://a.test/") as (Hiff & _ & Hrun).
  assert (validate_url Urllib.urlparse "http://a.test/" = Ret "http://a.test/")
    as Hok.
  { apply Hiff. exists (ParseResult "http" "a.test" "/").
    split; [vm_compute; reflexivity|]. split; discriminate. }
  split; [exact Hok|].
  destruct (Hrun Hok) as (parsed & _ & Hall).
  destruct (Hall false 10%Z 4%nat) as (c & Hc & Hcrash).
  exists c. split; [exact Hc|].
  assert (pc c = Crashed ValueError) as Hpc.
  { vm_compute in Hc. injection Hc as <-. reflexivity. }
  split; [exact Hpc|]. by apply Hcrash.
Defined.

Lemma crawl_views_grow_witness :
  ∃ views,
    server_views Urllib.urlparse Urllib.urljoin Urllib.find_all_href
                 Sites.scenario_a Sites.in_order "a.test" 10 "t1"
                 [CrawlSteps 3;
                  StartCrawl (mkCrawlRequest "http://b.test/" false 5) "t2";
                  CrawlSteps 9]
                 (start_crawl (mkCrawlRequest "http://a.test/" false 10) "t1" ∅,
                  Config (crawl_site_init "http://a.test/") LoopHead)
    = Some views
    ∧ length views = 3%nat
    ∧ grows_from [] views.
Proof.
  destruct (crawl_views_grow Urllib.urlparse Urllib.urljoin Urllib.find_all_href
              Sites.scenario_a Sites.in_order
              (mkCrawlRequest "http://a.test/" false 10) "t1" ∅
              [CrawlSteps 3;
               StartCrawl (mkCrawlRequest "http://b.test/" false 5) "t2";
               CrawlSteps 9]
              (ParseResult "http" "a.test" "/")) as [H _].
  - vm_compute. reflexivity.
  - intros request' id Hin.
    apply elem_of_cons in Hin as [Hin|Hin]; [discriminate Hin|].
    apply elem_of_cons in Hin as [Hin|Hin];
      [injection Hin as _ ->; discriminate|].
    apply elem_of_cons in Hin as [Hin|Hin]; [discriminate Hin|].
    by apply elem_of_nil in Hin.
  - exact H.
Defined.

Lemma raised_means_crashed_witness :
  ∃ c',
    pc c' = Crashed ValueError
    ∧ Sites.crawl Sites.bad_inner "http://a.test/" 10 10 = Ret c'
    ∧ "http://a.test/p2" ∈ fetched_urls (urls (results (st c'))).
Proof.
  assert (∃ c, Sites.crawl Sites.bad_inner "http://a.test/" 10 8 = Ret c
               ∧ pc c = Gathering [] ["http://a.test/p2"] (Some ValueError))
    as (c & Hrun & Hpc).
  { eexists. split; [vm_compute; reflexivity|done]. }
  destruct (raised_means_crashed Urllib.urlparse Urllib.urljoin
              Urllib.find_all_href Sites.bad_inner Sites.in_order
              "http://a.test/" false 10%Z 8%nat c
              [] ["http://a.test/p2"] ValueError Hrun Hpc)
    as (c' & Hpc' & Hall & Hdone & _).
  exists c'. split; [done|]. split.
  - apply (Hall 2%nat). simpl. lia.
  - apply Hdone. simpl. left.
Defined.

(** Every link of the scenario site resolves. *)
Lemma scenario_a_links_resolve :
  links_resolve Urllib.urljoin Urllib.find_all_href Sites.scenario_a.
Proof.
  intros u html code h Hf Hh.
  unfold fetch_url, fetch_url_body, Sites.scenario_a in Hf.
  destruct (String.eqb_spec u "http://a.test/") as [->|Hne].
  - vm_compute in Hf. injection Hf as <- <-.
    assert (Urllib.find_all_href
              ("<a href='http://a.test/b'>b</a><a href='http://other.test/x'>x</a>"
               +:+ "<a href='http://a.test/c.png'>c</a>")
            = ["http://a.test/b"; "http://other.test/x"; "http://a.test/c.png"])
      as Hrefs by (vm_compute; reflexivity).
    vm_compute "+:+" in Hrefs.
    rewrite Hrefs in Hh.
    repeat (apply elem_of_cons in Hh as [->|Hh];
            [eexists; vm_compute; reflexivity|]).
    by apply elem_of_nil in Hh.
  - vm_compute in Hf. injection Hf as <- <-.
    assert (Urllib.find_all_href "<p>leaf</p>" = []) as Hrefs
      by (vm_compute; reflexivity).
    rewrite Hrefs in Hh. by apply elem_of_nil in Hh.
Qed.

Lemma crawl_completes_without_urljoin_errors_witness :
  ∃ c,
    pc c = Finished
    ∧ Sites.crawl Sites.scenario_a "http://a.test/" 2 25 = Ret c.
Proof.
  destruct (crawl_completes_without_urljoin_errors Urllib.urlparse
              Urllib.urljoin Urllib.find_all_href Sites.scenario_a
              Sites.in_order "http://a.test/" false 2%Z
              (ParseResult "http" "a.test" "/")) as (c & Hfin & _ & Hall).
  - vm_compute. reflexivity.
  - apply scenario_a_links_resolve.
  - exists c. split; [done|]. apply Hall. vm_compute. lia.
Defined.
